(** * GATF agent validation framework: a shallow embedding and its properties

    The development follows the Python sources of the framework module by
    module.  Conventions of the embedding:

    - a Python [float] is read as an exact rational ([Q]); comparisons are
      the order of [Q] and equality is [Qeq];
    - a Python [int] is a [Z], a [len(...)] is a [nat];
    - a [dict] whose iteration order is observable is an association list in
      insertion order, a [dict] used only through membership and lookup is a
      [gmap], a [set] is a [gset];
    - a wall-clock reading ([time.time()], [datetime.utcnow()]) is an
      explicit argument of the operation that reads it;
    - a raised exception is a value of a result type, and [try]/[except] is
      a function on that type. *)

From Stdlib Require Import QArith Qminmax Qabs Lqa Lia List Sorted Permutation.
From stdpp Require Import base gmap strings list pretty.

Local Open Scope string_scope.
Local Open Scope Z_scope.
Local Open Scope list_scope.

Set Warnings "-register-all,-clear-no-such-hyp".

(* ===================================================================== *)
(** ** Trust framework: badge assignment
       ([src/gatf/core/trust_framework.py]) *)
(* ===================================================================== *)

Module TrustFramework.

(** [class BadgeType(Enum)] *)
Inductive BadgeType := BRONZE | SILVER | GOLD | PLATINUM | DOMAIN_EXPERT.

#[global] Instance BadgeType_eq_dec : EqDecision BadgeType.
Proof. solve_decision. Defined.

(** [BadgeType.value] *)
Definition badge_value (b : BadgeType) : string :=
  match b with
  | BRONZE => "bronze" | SILVER => "silver" | GOLD => "gold"
  | PLATINUM => "platinum" | DOMAIN_EXPERT => "domain_expert"
  end.

(** A [datetime] in microseconds, a [timedelta(days=d)] in the same unit. *)
Definition datetime := Z.
Definition timedelta_days (d : Z) : Z := d * 86400 * 1000000.

(** [@dataclass TrustScore] *)
Record TrustScore := {
  overall_score : Q;
  domain_scores : list (string * Q);
  metric_scores : list (string * Q);
  confidence : Q
}.

(** The [metadata] dictionaries the two kinds of badge carry. *)
Inductive BadgeMetadata :=
| GeneralMeta (domains : list string) (test_cases : Z)
| DomainMeta (domain : string).

(** [@dataclass TrustBadge] *)
Record TrustBadge := {
  badge_type : BadgeType;
  domain : option string;
  score : Q;
  requirements_met : list string;
  issued_date : datetime;
  expiry_date : option datetime;
  metadata : BadgeMetadata
}.

(** The entries of the requirement table of the four general badges and
    of the domain-expert badge. *)
Record GeneralRequirements := {
  min_score : Z;
  min_domains : Z;
  required_metrics : list string;
  min_test_cases : Z
}.

Record ExpertRequirements := {
  min_domain_score : Z;
  min_test_cases_per_domain : Z;
  required_domain_metrics : list string
}.

Inductive Requirements :=
| General (r : GeneralRequirements)
| Expert (r : ExpertRequirements).

(** [TrustFramework._initialize_badge_requirements] *)
Definition _initialize_badge_requirements (b : BadgeType) : Requirements :=
  match b with
  | BRONZE => General
      {| min_score := 50; min_domains := 1;
         required_metrics := ["accuracy"; "consistency"];
         min_test_cases := 10 |}
  | SILVER => General
      {| min_score := 70; min_domains := 2;
         required_metrics := ["accuracy"; "consistency"; "reliability"];
         min_test_cases := 50 |}
  | GOLD => General
      {| min_score := 85; min_domains := 3;
         required_metrics :=
           ["accuracy"; "consistency"; "reliability"; "robustness"];
         min_test_cases := 100 |}
  | PLATINUM => General
      {| min_score := 95; min_domains := 5;
         required_metrics :=
           ["accuracy"; "consistency"; "reliability"; "robustness"; "fairness"];
         min_test_cases := 500 |}
  | DOMAIN_EXPERT => Expert
      {| min_domain_score := 90;
         min_test_cases_per_domain := 100;
         required_domain_metrics := ["domain_expertise"; "compliance"] |}
  end.

(** [', '.join(l)] *)
Fixpoint join_comma (l : list string) : string :=
  match l with
  | [] => ""
  | [x] => x
  | x :: rest => x +:+ ", " +:+ join_comma rest
  end.

(** [all(m in metrics for m in required_metrics)] *)
Definition all_metrics_present {M : Type} (metrics : gmap string M)
    (required : list string) : bool :=
  forallb (fun m => bool_decide (is_Some (metrics !! m))) required.

(** The badge built when all requirements of a general badge are met. *)
Definition general_badge (now : datetime) (bt : BadgeType)
    (r : GeneralRequirements) (ts : TrustScore) (num_test_cases : Z)
    (domains : list string) : TrustBadge :=
  {| badge_type := bt;
     domain := None;
     score := overall_score ts;
     requirements_met :=
       [ "Score >= " +:+ pretty (min_score r);
         "Domains >= " +:+ pretty (min_domains r);
         "Test cases >= " +:+ pretty (min_test_cases r);
         "Required metrics: " +:+ join_comma (required_metrics r) ];
     issued_date := now;
     expiry_date := Some (now + timedelta_days 365);
     metadata := GeneralMeta domains num_test_cases |}.

(** The first loop of [_assign_badges], over the candidate badge types
    that are still to be checked.  A [continue] moves to the rest of the
    candidates; the [break] after [badges.append(badge)] ends the loop. *)
Fixpoint assign_general {M : Type} (now : datetime)
    (candidates : list BadgeType) (ts : TrustScore) (metrics : gmap string M)
    (num_test_cases : Z) (domains : list string) : list TrustBadge :=
  match candidates with
  | [] => []
  | bt :: rest =>
      match _initialize_badge_requirements bt with
      | Expert _ => assign_general now rest ts metrics num_test_cases domains
      | General r =>
          if Qlt_le_dec (overall_score ts) (inject_Z (min_score r)) then
            assign_general now rest ts metrics num_test_cases domains
          else if Z.of_nat (length domains) <? min_domains r then
            assign_general now rest ts metrics num_test_cases domains
          else if num_test_cases <? min_test_cases r then
            assign_general now rest ts metrics num_test_cases domains
          else if negb (all_metrics_present metrics (required_metrics r)) then
            assign_general now rest ts metrics num_test_cases domains
          else
            [general_badge now bt r ts num_test_cases domains]
      end
  end.

(** The second loop of [_assign_badges]: one domain-expert badge for each
    entry of [trust_score.domain_scores] that reaches the domain score. *)
Definition expert_badge (now : datetime) (r : ExpertRequirements)
    (d : string) (s : Q) : TrustBadge :=
  {| badge_type := DOMAIN_EXPERT;
     domain := Some d;
     score := s;
     requirements_met :=
       [ "Domain score >= " +:+ pretty (min_domain_score r);
         "Domain: " +:+ d ];
     issued_date := now;
     expiry_date := Some (now + timedelta_days 180);
     metadata := DomainMeta d |}.

Fixpoint assign_expert (now : datetime) (r : ExpertRequirements)
    (scores : list (string * Q)) : list TrustBadge :=
  match scores with
  | [] => []
  | (d, s) :: rest =>
      if Qle_bool (inject_Z (min_domain_score r)) s
      then expert_badge now r d s :: assign_expert now r rest
      else assign_expert now r rest
  end.

(** The order in which the general badges are tried. *)
Definition general_candidates : list BadgeType :=
  [PLATINUM; GOLD; SILVER; BRONZE].

(** [TrustFramework._assign_badges] *)
Definition _assign_badges {M : Type} (now : datetime) (ts : TrustScore)
    (metrics : gmap string M) (num_test_cases : Z) (domains : list string)
    : list TrustBadge :=
  assign_general now general_candidates ts metrics num_test_cases domains
  ++ match _initialize_badge_requirements DOMAIN_EXPERT with
     | Expert r => assign_expert now r (domain_scores ts)
     | General _ => []
     end.

(** The general badges of a badge list. *)
Definition general_badges (bs : list TrustBadge) : list TrustBadge :=
  List.filter (fun b => negb (bool_decide (badge_type b = DOMAIN_EXPERT))) bs.

(** What the requirement table asks of a general badge, as a proposition. *)
Definition qualifies {M : Type} (ts : TrustScore) (metrics : gmap string M)
    (num_test_cases : Z) (domains : list string) (bt : BadgeType) : Prop :=
  match _initialize_badge_requirements bt with
  | General r =>
      (inject_Z (min_score r) <= overall_score ts)%Q
      /\ min_domains r <= Z.of_nat (length domains)
      /\ min_test_cases r <= num_test_cases
      /\ (forall m, In m (required_metrics r) -> is_Some (metrics !! m))
  | Expert _ => False
  end.

(** *** Properties of the badge assignment *)

Section BadgeAssignment.
Context {M : Type}.
Variables (now : datetime) (ts : TrustScore) (metrics : gmap string M).
Variables (num_test_cases : Z) (domains : list string).

Lemma all_metrics_present_spec (required : list string) :
  all_metrics_present metrics required = true
  <-> (forall m, In m required -> is_Some (metrics !! m)).
Proof.
  unfold all_metrics_present. rewrite forallb_forall.
  split; intros H m Hm; specialize (H m Hm).
  - by apply bool_decide_eq_true in H.
  - by apply bool_decide_eq_true.
Qed.

(** One step of the loop: a candidate that qualifies ends it. *)
Lemma assign_general_hit bt r rest :
  _initialize_badge_requirements bt = General r ->
  qualifies ts metrics num_test_cases domains bt ->
  assign_general now (bt :: rest) ts metrics num_test_cases domains
  = [general_badge now bt r ts num_test_cases domains].
Proof.
  intros Hr Hq. unfold qualifies in Hq. rewrite Hr in Hq.
  destruct Hq as (Hs & Hd & Hn & Hm).
  cbn [assign_general]. rewrite Hr.
  destruct (Qlt_le_dec _ _) as [Hlt|_]; [lra|].
  destruct (Z.ltb_spec (Z.of_nat (length domains)) (min_domains r)); [lia|].
  destruct (Z.ltb_spec num_test_cases (min_test_cases r)); [lia|].
  apply all_metrics_present_spec in Hm. by rewrite Hm.
Qed.

(** One step of the loop: a candidate that does not qualify is skipped. *)
Lemma assign_general_miss bt rest :
  ~ qualifies ts metrics num_test_cases domains bt ->
  assign_general now (bt :: rest) ts metrics num_test_cases domains
  = assign_general now rest ts metrics num_test_cases domains.
Proof.
  intros Hq. unfold qualifies in Hq. cbn [assign_general].
  destruct (_initialize_badge_requirements bt) as [r|r]; [|done].
  destruct (Qlt_le_dec _ _) as [Hlt|Hle]; [done|].
  destruct (Z.ltb_spec (Z.of_nat (length domains)) (min_domains r)); [done|].
  destruct (Z.ltb_spec num_test_cases (min_test_cases r)); [done|].
  destruct (all_metrics_present metrics (required_metrics r)) eqn:Hm; [|done].
  exfalso. apply Hq. repeat split; try done.
  by apply all_metrics_present_spec.
Qed.

Lemma qualifies_dec bt :
  {qualifies ts metrics num_test_cases domains bt}
  + {~ qualifies ts metrics num_test_cases domains bt}.
Proof.
  unfold qualifies. destruct (_initialize_badge_requirements bt) as [r|r];
    [|right; tauto].
  destruct (Qlt_le_dec (overall_score ts) (inject_Z (min_score r)));
    [right; intros (? & _); lra|].
  destruct (Z_lt_le_dec (Z.of_nat (length domains)) (min_domains r));
    [right; intros (_ & ? & _); lia|].
  destruct (Z_lt_le_dec num_test_cases (min_test_cases r));
    [right; intros (_ & _ & ? & _); lia|].
  destruct (all_metrics_present metrics (required_metrics r)) eqn:Hm.
  - left. repeat split; try done. by apply all_metrics_present_spec.
  - right. intros (_ & _ & _ & H). apply all_metrics_present_spec in H.
    congruence.
Qed.

(** The loop grants the first candidate that qualifies, and nothing when
    none does. *)
Lemma assign_general_first (candidates : list BadgeType) :
  (Forall (fun b => ~ qualifies ts metrics num_test_cases domains b) candidates
   /\ assign_general now candidates ts metrics num_test_cases domains = [])
  \/ (exists pre bt post r,
        candidates = pre ++ bt :: post
        /\ Forall (fun b => ~ qualifies ts metrics num_test_cases domains b) pre
        /\ qualifies ts metrics num_test_cases domains bt
        /\ _initialize_badge_requirements bt = General r
        /\ assign_general now candidates ts metrics num_test_cases domains
           = [general_badge now bt r ts num_test_cases domains]).
Proof.
  induction candidates as [|bt rest IH].
  - left. split; [constructor | reflexivity].
  - destruct (qualifies_dec bt) as [Hq|Hq].
    + right. assert (Hq' := Hq). unfold qualifies in Hq'.
      destruct (_initialize_badge_requirements bt) as [r|r] eqn:Hr; [|done].
      exists [], bt, rest, r. repeat split; try done.
      by apply assign_general_hit.
    + rewrite (assign_general_miss bt rest Hq).
      destruct IH as [[Hall Hnil] | (pre & b & post & r & -> & Hpre & Hb & Hr & Heq)].
      * left. split; [by constructor | done].
      * right. exists (bt :: pre), b, post, r. repeat split; try done.
        by constructor.
Qed.

Lemma general_badges_expert r scores :
  general_badges (assign_expert now r scores) = [].
Proof.
  induction scores as [|[d s] rest IH]; [done|].
  cbn [assign_expert]. destruct (Qle_bool _ _); [|done].
  unfold general_badges in *. cbn. done.
Qed.

Lemma general_badges_app l1 l2 :
  general_badges (l1 ++ l2) = general_badges l1 ++ general_badges l2.
Proof. unfold general_badges. apply List.filter_app. Qed.

Lemma general_badges_assign :
  general_badges (_assign_badges now ts metrics num_test_cases domains)
  = general_badges
      (assign_general now general_candidates ts metrics num_test_cases domains).
Proof.
  unfold _assign_badges. rewrite general_badges_app.
  cbn [_initialize_badge_requirements]. rewrite general_badges_expert.
  by rewrite app_nil_r.
Qed.

End BadgeAssignment.

(** C1.  Whatever the trust score, the metric map, the number of test
    cases and the domain list, [_assign_badges] grants at most one of the
    general badges; a general badge is granted exactly when it is the first
    of Platinum, Gold, Silver, Bronze (in this order) whose score, domain
    count, test-case count and required-metric thresholds are all met; and
    a score of 72 with two domains, 60 test cases and the metrics accuracy,
    consistency and reliability present gives Silver as the one general
    badge. *)
Theorem assign_badges_first_qualifying {M : Type} (now : datetime)
    (ts : TrustScore) (metrics : gmap string M) (num_test_cases : Z)
    (domains : list string) :
  let granted :=
    general_badges (_assign_badges now ts metrics num_test_cases domains) in
  (length granted <= 1)%nat
  /\ (forall bt,
        In bt (List.map badge_type granted)
        <-> exists pre post,
              general_candidates = pre ++ bt :: post
              /\ Forall (fun b =>
                   ~ qualifies ts metrics num_test_cases domains b) pre
              /\ qualifies ts metrics num_test_cases domains bt)
  /\ ((overall_score ts == 72)%Q ->
      length domains = 2%nat ->
      num_test_cases = 60 ->
      (forall m, In m ["accuracy"; "consistency"; "reliability"] ->
                 is_Some (metrics !! m)) ->
      List.map badge_type granted = [SILVER]).
Proof.
  intros granted. subst granted. rewrite general_badges_assign.
  destruct (assign_general_first now ts metrics num_test_cases domains
              general_candidates)
    as [[Hall Hnil] | (pre & b & post & r & Hsplit & Hpre & Hb & Hr & Heq)].
  - rewrite Hnil. cbn. split; [lia|]. split.
    + intros bt. split; [done|]. intros (pre & post & Hsplit & _ & Hq).
      rewrite List.Forall_forall in Hall. apply (Hall bt); [|done].
      rewrite Hsplit. apply in_or_app. right. by left.
    + intros Hs Hd Hn Hm. exfalso.
      rewrite List.Forall_forall in Hall. apply (Hall SILVER).
      * unfold general_candidates. cbn. tauto.
      * unfold qualifies.
        cbn [_initialize_badge_requirements min_score min_domains
             min_test_cases required_metrics].
        rewrite Hd, Hn. repeat split; [rewrite Hs; done | lia | lia | done].
  - rewrite Heq.
    assert (Hne : b <> DOMAIN_EXPERT) by (intros ->; cbn in Hr; done).
    assert (Hg : general_badges
                   [general_badge now b r ts num_test_cases domains]
                 = [general_badge now b r ts num_test_cases domains]).
    { unfold general_badges. cbn. by rewrite bool_decide_eq_false_2. }
    rewrite Hg. cbn. split; [lia|]. split.
    + intros bt. split.
      * intros [<- | []]. by exists pre, post.
      * intros (pre' & post' & Hsplit' & Hpre' & Hq'). left.
        rewrite Hsplit in Hsplit'.
        clear - Hsplit' Hpre Hb Hpre' Hq'.
        revert pre' Hsplit' Hpre'.
        induction Hpre as [|x pre Hx Hpre IH]; intros pre' Hs Hpre'.
        -- destruct pre' as [|y pre']; cbn in Hs; [congruence|].
           inversion Hs; subst. by inversion Hpre'.
        -- destruct pre' as [|y pre']; cbn in Hs.
           ++ inversion Hs; subst. done.
           ++ inversion Hs; subst. inversion Hpre'; subst. by eapply IH.
    + intros Hs Hd Hn Hm. f_equal.
      unfold general_candidates in Hsplit.
      assert (Hno : forall bt, bt = PLATINUM \/ bt = GOLD ->
                ~ qualifies ts metrics num_test_cases domains bt).
      { intros bt [-> | ->]; unfold qualifies;
          cbn [_initialize_badge_requirements min_score];
          intros (H1 & _); rewrite Hs in H1; done. }
      assert (Hsil : qualifies ts metrics num_test_cases domains SILVER).
      { unfold qualifies.
        cbn [_initialize_badge_requirements min_score min_domains
             min_test_cases required_metrics].
        rewrite Hd, Hn. repeat split; [rewrite Hs; done | lia | lia | done]. }
      destruct pre as [|p1 [|p2 [|p3 [|p4 pre]]]]; cbn in Hsplit;
        inversion Hsplit; subst; try done.
      * exfalso. by apply (Hno PLATINUM); [left|].
      * exfalso. by apply (Hno GOLD); [right|].
      * exfalso. inversion Hpre as [|? ? _ Hpre2]; subst.
        inversion Hpre2 as [|? ? _ Hpre3]; subst.
        inversion Hpre3 as [|? ? Hx _]; subst. done.
      * destruct pre; discriminate.
Qed.

(** The Silver scenario on a concrete session: score 72, the domains
    finance and legal, 60 test cases and exactly the three metrics. *)
Lemma assign_badges_silver_example :
  List.map badge_type
    (general_badges
       (_assign_badges 0
          {| overall_score := 72; domain_scores := [("finance", 80%Q); ("legal", 64%Q)];
             metric_scores := []; confidence := 2 # 5 |}
          (<["accuracy" := tt]> (<["consistency" := tt]>
             (<["reliability" := tt]> (∅ : gmap string unit))))
          60 ["finance"; "legal"]))
  = [SILVER].
Proof.
  apply assign_badges_first_qualifying; try reflexivity.
  intros m Hm. cbn in Hm.
  destruct Hm as [<- | [<- | [<- | []]]]; by vm_compute; eexists.
Defined.

End TrustFramework.

(* ===================================================================== *)
(** ** VOS primitives ([src/gatf_vos/vos_primitives.py]) *)
(* ===================================================================== *)

Module VOSPrimitives.

(** [class PrimitiveType(Enum)] *)
Inductive PrimitiveType :=
| DETECTION | CORRECTION | UNCERTAINTY | COORDINATION | TRUST
| MEMORY | HANDOFF | WORKFLOW | COMPLIANCE | BENCHMARK.

(** [class PrimitiveStatus(Enum)] *)
Inductive PrimitiveStatus := PENDING | RUNNING | COMPLETED | FAILED | CANCELLED.

#[global] Instance PrimitiveStatus_eq_dec : EqDecision PrimitiveStatus.
Proof. solve_decision. Defined.

(** The dynamically typed values that travel through a primitive: the
    keyword arguments, what the narrowed operation returns and the entries
    of a metrics dictionary. *)
Inductive Value :=
| VNone
| VNum (q : Q)
| VStr (s : string)
| VList (l : list Value)
| VDict (d : list (string * Value)).

(** What can be raised.  [Exception text] is an instance of the class
    [Exception] whose [str(e)] is [text]; [BaseExceptionOnly text] is an
    instance of a class outside it ([KeyboardInterrupt], [SystemExit],
    [asyncio.CancelledError]), which [except Exception] lets through. *)
Inductive Exn :=
| Exception (text : string)
| BaseExceptionOnly (text : string).

(** A computation that returns or raises. *)
Inductive Res (A : Type) :=
| Ret (a : A)
| Raise (e : Exn).
Arguments Ret {A} a.
Arguments Raise {A} e.

(** A computation that also leaves a log of the primitives whose [execute]
    it entered, in the order in which they were entered. *)
Definition M (A : Type) : Type := Res A * list string.

Definition ret {A} (a : A) : M A := (Ret a, []).
Definition raise {A} (e : Exn) : M A := (Raise e, []).
Definition enter (name : string) : M unit := (Ret tt, [name]).
Definition lift {A} (r : Res A) : M A := (r, []).

Definition bind {A B} (m : M A) (k : A -> M B) : M B :=
  match m with
  | (Ret a, log) => let '(r, log') := k a in (r, log ++ log')
  | (Raise e, log) => (Raise e, log)
  end.

(** [try: body  except Exception as e: handler(str(e))] *)
Definition try_except_Exception {A} (body : M A) (handler : string -> M A)
    : M A :=
  match body with
  | (Ret a, log) => (Ret a, log)
  | (Raise (Exception text), log) =>
      let '(r, log') := handler text in (r, log ++ log')
  | (Raise (BaseExceptionOnly text), log) =>
      (Raise (BaseExceptionOnly text), log)
  end.

#[global] Instance M_ret : MRet M := @ret.
#[global] Instance M_bind : MBind M := fun A B k m => bind m k.

(** [@dataclass PrimitiveContext] *)
Record PrimitiveContext := {
  ctx_id : string;
  agent_id : option string;
  ctx_domain : option string;
  session_id : option string;
  ctx_metadata : list (string * Value)
}.

(** The [data] of a result: a value, or for a composed primitive the
    list of its members' results. *)
Inductive Payload (R : Type) :=
| PValue (v : Value)
| PResults (rs : list R).
Arguments PValue {R} v.
Arguments PResults {R} rs.

(** [@dataclass PrimitiveResult]; the [timestamp] field is left out. *)
Inductive PrimitiveResult : Type :=
  mkPrimitiveResult {
    status : PrimitiveStatus;
    data : Payload PrimitiveResult;
    errors : list string;
    warnings : list string;
    metrics : gmap string Value;
    duration_ms : option Q
  }.

(** [len(v)], which raises [TypeError] on a value without a length. *)
Definition py_len (v : Value) : Res nat :=
  match v with
  | VStr s => Ret (String.length s)
  | VList l => Ret (length l)
  | VDict d => Ret (length d)
  | VNone => Raise (Exception "object of type 'NoneType' has no len()")
  | VNum _ => Raise (Exception "object of type 'float' has no len()")
  end.

(** [kwargs.get(key)] and [kwargs.get(key, default)] *)
Definition kwargs_get (kwargs : gmap string Value) (key : string)
    (default : Value) : Value :=
  match kwargs !! key with Some v => v | None => default end.

(** A registered callback returns or raises. *)
Definition Callback := Value -> Res unit.

(** [VOSPrimitive._trigger_callbacks] *)
Fixpoint run_callbacks (cbs : list Callback) (data : Value) : Res unit :=
  match cbs with
  | [] => Ret tt
  | cb :: rest =>
      match cb data with
      | Ret _ => run_callbacks rest data
      | Raise e => Raise e
      end
  end.

Definition _trigger_callbacks (callbacks : gmap string (list Callback))
    (event : string) (data : Value) : M unit :=
  match callbacks !! event with
  | Some cbs => lift (run_callbacks cbs data)
  | None => ret tt
  end.

(** The narrowed operation of a specialization ([detect], [correct],
    [quantify], ...): from its positional arguments and the context to a
    returned value together with the time in milliseconds that passed
    while it ran, or to a raised exception. *)
Definition Operation := list Value -> PrimitiveContext -> Res (Value * Q).

(** A primitive: an instance of one of the ten specializations, of a
    subclass with an [execute] of its own, or a composition. *)
Inductive VOSPrimitive :=
| Specialized (name : string) (primitive_type : PrimitiveType)
    (operation : Operation) (callbacks : gmap string (list Callback))
| Custom (name : string) (primitive_type : PrimitiveType)
    (run : PrimitiveContext -> gmap string Value -> Res PrimitiveResult)
| ComposedPrimitive (primitives : list VOSPrimitive).

(** [', '.join(names)] *)
Fixpoint join_names (l : list string) : string :=
  match l with
  | [] => ""
  | [x] => x
  | x :: rest => x +:+ ", " +:+ join_names rest
  end.

(** [primitive.name]; for a composition it is built in [__init__]. *)
Fixpoint prim_name (p : VOSPrimitive) : string :=
  match p with
  | Specialized name _ _ _ => name
  | Custom name _ _ => name
  | ComposedPrimitive ps =>
      "Composed(" +:+ join_names (List.map prim_name ps) +:+ ")"
  end.

(** The result every specialization returns from its [except] branch. *)
Definition failed_result (text : string) : PrimitiveResult :=
  {| status := FAILED; data := PValue VNone; errors := [text];
     warnings := []; metrics := ∅; duration_ms := None |}.

Definition completed_result (d : Value) (m : gmap string Value)
    (dur : option Q) : PrimitiveResult :=
  {| status := COMPLETED; data := PValue d; errors := [];
     warnings := []; metrics := m; duration_ms := dur |}.

(** The body of the [try] block of each specialization's [execute]. *)
Definition execute_body (t : PrimitiveType) (operation : Operation)
    (callbacks : gmap string (list Callback)) (context : PrimitiveContext)
    (kwargs : gmap string Value) : M PrimitiveResult :=
  let get k := kwargs_get kwargs k VNone in
  match t with
  | DETECTION =>
      r ← lift (operation [get "input_data"] context);
      _trigger_callbacks callbacks "detection_complete" (fst r) ;;
      ret (completed_result (fst r)
             {["detection_latency_ms" := VNum (snd r)]} (Some (snd r)))
  | CORRECTION =>
      r ← lift (operation [get "detection_result"] context);
      _trigger_callbacks callbacks "correction_complete" (fst r) ;;
      ret (completed_result (fst r)
             {["correction_latency_ms" := VNum (snd r)]} (Some (snd r)))
  | UNCERTAINTY =>
      r ← lift (operation [get "input_data"] context);
      _trigger_callbacks callbacks "uncertainty_quantified" (fst r) ;;
      n ← lift (py_len (fst r));
      ret (completed_result (fst r)
             {["uncertainty_dimensions" := VNum (inject_Z (Z.of_nat n))]} None)
  | COORDINATION =>
      r ← lift (operation
                   [kwargs_get kwargs "agents" (VList []);
                    kwargs_get kwargs "task" (VDict [])] context);
      _trigger_callbacks callbacks "coordination_complete" (fst r) ;;
      n ← lift (py_len (kwargs_get kwargs "agents" (VList [])));
      ret (completed_result (fst r)
             {["coordinated_agents" := VNum (inject_Z (Z.of_nat n))]} None)
  | TRUST =>
      r ← lift (operation
                   [get "agent_id";
                    kwargs_get kwargs "validation_results" (VDict [])]
                   context);
      _trigger_callbacks callbacks "trust_calculated"
        (VDict [("agent_id", get "agent_id"); ("trust_score", fst r)]) ;;
      ret (completed_result (VDict [("trust_score", fst r)])
             {["trust_score" := fst r]} None)
  | MEMORY =>
      r ← lift (operation
                   [kwargs_get kwargs "operation" (VStr "read"); get "data"]
                   context);
      _trigger_callbacks callbacks "memory_operation_complete" (fst r) ;;
      ret (completed_result (fst r) ∅ None)
  | HANDOFF =>
      r ← lift (operation
                   [get "from_agent"; get "to_agent";
                    kwargs_get kwargs "context_data" (VDict [])] context);
      _trigger_callbacks callbacks "handoff_validated" (fst r) ;;
      ret (completed_result (fst r) ∅ None)
  | WORKFLOW =>
      r ← lift (operation
                   [kwargs_get kwargs "workflow_definition" (VDict [])]
                   context);
      _trigger_callbacks callbacks "workflow_validated" (fst r) ;;
      ret (completed_result (fst r) ∅ None)
  | COMPLIANCE =>
      r ← lift (operation
                   [get "data"; kwargs_get kwargs "regulations" (VList [])]
                   context);
      _trigger_callbacks callbacks "compliance_validated" (fst r) ;;
      ret (completed_result (fst r) ∅ None)
  | BENCHMARK =>
      r ← lift (operation [get "test_suite"; get "target"] context);
      _trigger_callbacks callbacks "benchmark_complete" (fst r) ;;
      ret (completed_result (fst r) ∅ None)
  end.

(** The positional arguments the narrowed operation of a specialization
    receives. *)
Definition operation_args (t : PrimitiveType) (kwargs : gmap string Value)
    : list Value :=
  let get k := kwargs_get kwargs k VNone in
  match t with
  | DETECTION | UNCERTAINTY => [get "input_data"]
  | CORRECTION => [get "detection_result"]
  | COORDINATION =>
      [kwargs_get kwargs "agents" (VList []);
       kwargs_get kwargs "task" (VDict [])]
  | TRUST =>
      [get "agent_id"; kwargs_get kwargs "validation_results" (VDict [])]
  | MEMORY => [kwargs_get kwargs "operation" (VStr "read"); get "data"]
  | HANDOFF =>
      [get "from_agent"; get "to_agent";
       kwargs_get kwargs "context_data" (VDict [])]
  | WORKFLOW => [kwargs_get kwargs "workflow_definition" (VDict [])]
  | COMPLIANCE => [get "data"; kwargs_get kwargs "regulations" (VList [])]
  | BENCHMARK => [get "test_suite"; get "target"]
  end.

(** [DetectionPrimitive.execute], [CorrectionPrimitive.execute], ...:
    the [try] body under [except Exception as e]. *)
Definition execute_specialized (t : PrimitiveType) (operation : Operation)
    (callbacks : gmap string (list Callback)) (context : PrimitiveContext)
    (kwargs : gmap string Value) : M PrimitiveResult :=
  try_except_Exception
    (execute_body t operation callbacks context kwargs)
    (fun text => ret (failed_result text)).

(** [combined_metrics.update(result.metrics)] *)
Definition dict_update (acc new : gmap string Value) : gmap string Value :=
  new ∪ acc.

(** The accumulators of [ComposedPrimitive.execute]. *)
Record Accumulated := {
  results : list PrimitiveResult;
  combined_metrics : gmap string Value;
  all_errors : list string;
  all_warnings : list string
}.

Definition accumulate (acc : Accumulated) (r : PrimitiveResult)
    : Accumulated :=
  {| results := results acc ++ [r];
     combined_metrics := dict_update (combined_metrics acc) (metrics r);
     all_errors := all_errors acc ++ errors r;
     all_warnings := all_warnings acc ++ warnings r |}.

Definition composed_result (st : PrimitiveStatus) (acc : Accumulated)
    : PrimitiveResult :=
  {| status := st; data := PResults (results acc);
     errors := all_errors acc; warnings := all_warnings acc;
     metrics := combined_metrics acc; duration_ms := None |}.

Definition empty_accumulated : Accumulated :=
  {| results := []; combined_metrics := ∅; all_errors := [];
     all_warnings := [] |}.

(** [execute] of any primitive.  For a composition this is
    [ComposedPrimitive.execute]: the loop over [self.primitives] returns
    from inside at the first member whose result is failed. *)
Fixpoint execute (p : VOSPrimitive) (context : PrimitiveContext)
    (kwargs : gmap string Value) {struct p} : M PrimitiveResult :=
  match p with
  | Specialized name t operation callbacks =>
      enter name ;;
      execute_specialized t operation callbacks context kwargs
  | Custom name t run =>
      enter name ;; lift (run context kwargs)
  | ComposedPrimitive ps =>
      enter (prim_name p) ;;
      (fix loop (members : list VOSPrimitive) (acc : Accumulated)
         : M PrimitiveResult :=
         match members with
         | [] => ret (composed_result COMPLETED acc)
         | primitive :: rest =>
             result ← execute primitive context kwargs;
             let acc' := accumulate acc result in
             if bool_decide (status result = FAILED)
             then ret (composed_result FAILED acc')
             else loop rest acc'
         end) ps empty_accumulated
  end.

(** The loop of [ComposedPrimitive.execute] on its own. *)
Fixpoint composed_loop (context : PrimitiveContext)
    (kwargs : gmap string Value) (members : list VOSPrimitive)
    (acc : Accumulated) : M PrimitiveResult :=
  match members with
  | [] => ret (composed_result COMPLETED acc)
  | primitive :: rest =>
      result ← execute primitive context kwargs;
      let acc' := accumulate acc result in
      if bool_decide (status result = FAILED)
      then ret (composed_result FAILED acc')
      else composed_loop context kwargs rest acc'
  end.

(** The result a composition reports for the member results [rs]. *)
Definition summary (st : PrimitiveStatus) (rs : list PrimitiveResult)
    : PrimitiveResult :=
  {| status := st;
     data := PResults rs;
     errors := concat (List.map errors rs);
     warnings := concat (List.map warnings rs);
     metrics := fold_left dict_update (List.map metrics rs) ∅;
     duration_ms := None |}.

(** *** Properties of [execute] *)

Lemma execute_composed_unfold ps context kwargs :
  execute (ComposedPrimitive ps) context kwargs
  = (enter (prim_name (ComposedPrimitive ps)) ;;
     composed_loop context kwargs ps empty_accumulated).
Proof.
  cbn [execute].
  match goal with
  | |- context [ ?loop ps empty_accumulated ] =>
      assert (H : forall acc, loop ps acc = composed_loop context kwargs ps acc)
  end.
  { induction ps as [|p ps IH]; intros acc; [reflexivity|].
    cbn [composed_loop]. unfold mbind, M_bind, bind.
    destruct (execute p context kwargs) as [[r|e] log]; [|reflexivity].
    destruct (bool_decide (status r = FAILED)); [reflexivity|].
    by rewrite IH. }
  unfold mbind, M_bind, bind, enter. by rewrite H.
Qed.

Lemma fold_accumulate_results rs acc :
  results (fold_left accumulate rs acc) = results acc ++ rs.
Proof.
  revert acc. induction rs as [|r rs IH]; intros acc; cbn.
  - by rewrite app_nil_r.
  - rewrite IH. cbn. by rewrite <- app_assoc.
Qed.

Lemma fold_accumulate_errors rs acc :
  all_errors (fold_left accumulate rs acc)
  = all_errors acc ++ concat (List.map errors rs).
Proof.
  revert acc. induction rs as [|r rs IH]; intros acc; cbn.
  - by rewrite app_nil_r.
  - rewrite IH. cbn. by rewrite <- app_assoc.
Qed.

Lemma fold_accumulate_warnings rs acc :
  all_warnings (fold_left accumulate rs acc)
  = all_warnings acc ++ concat (List.map warnings rs).
Proof.
  revert acc. induction rs as [|r rs IH]; intros acc; cbn.
  - by rewrite app_nil_r.
  - rewrite IH. cbn. by rewrite <- app_assoc.
Qed.

Lemma fold_accumulate_metrics rs acc :
  combined_metrics (fold_left accumulate rs acc)
  = fold_left dict_update (List.map metrics rs) (combined_metrics acc).
Proof.
  revert acc. induction rs as [|r rs IH]; intros acc; cbn; [done|].
  by rewrite IH.
Qed.

Lemma composed_result_summary st rs :
  composed_result st (fold_left accumulate rs empty_accumulated)
  = summary st rs.
Proof.
  unfold composed_result, summary.
  rewrite fold_accumulate_results, fold_accumulate_errors,
    fold_accumulate_warnings, fold_accumulate_metrics.
  reflexivity.
Qed.

Section ComposedLoop.
Variables (context : PrimitiveContext) (kwargs : gmap string Value).

(** A member that returned the result [r], which is not failed. *)
Definition passes (p : VOSPrimitive) (r : PrimitiveResult) : Prop :=
  fst (execute p context kwargs) = Ret r /\ status r <> FAILED.

Definition log_of (p : VOSPrimitive) : list string :=
  snd (execute p context kwargs).

Lemma composed_loop_all_pass ps rs acc :
  Forall2 passes ps rs ->
  composed_loop context kwargs ps acc
  = (Ret (composed_result COMPLETED (fold_left accumulate rs acc)),
     concat (List.map log_of ps)).
Proof.
  intros H. revert acc.
  induction H as [|p r ps rs [Hret Hst] _ IH]; intros acc; [reflexivity|].
  cbn [composed_loop fold_left List.map concat].
  unfold mbind, M_bind, bind, log_of in *.
  destruct (execute p context kwargs) as [res log]. cbn in Hret. subst res.
  rewrite bool_decide_eq_false_2 by done.
  by rewrite IH.
Qed.

Lemma composed_loop_first_failure pre m post rs r acc :
  Forall2 passes pre rs ->
  fst (execute m context kwargs) = Ret r ->
  status r = FAILED ->
  composed_loop context kwargs (pre ++ m :: post) acc
  = (Ret (composed_result FAILED (fold_left accumulate (rs ++ [r]) acc)),
     concat (List.map log_of (pre ++ [m]))).
Proof.
  intros H Hm Hfail. revert acc.
  induction H as [|p r' ps rs' [Hret Hst] _ IH]; intros acc.
  - cbn [app composed_loop fold_left List.map concat].
    unfold mbind, M_bind, bind, log_of.
    destruct (execute m context kwargs) as [res log]. cbn in Hm. subst res.
    rewrite bool_decide_eq_true_2 by done.
    cbn. by rewrite !app_nil_r.
  - cbn [app composed_loop fold_left List.map concat].
    unfold mbind, M_bind, bind, log_of in *.
    destruct (execute p context kwargs) as [res log]. cbn in Hret. subst res.
    rewrite bool_decide_eq_false_2 by done.
    by rewrite IH.
Qed.

End ComposedLoop.

(** C6.  Executing a composition of the members [ps] enters the members
    in list order.  If the members before [m] return results that are not
    failed and [m] returns a failed result, the composition returns a
    failed result carrying the results, metrics, errors and warnings of the
    members up to and including [m], and no member after [m] is entered.
    If every member returns a result that is not failed, the composition
    returns a completed result carrying all of them in order. *)
Theorem composed_execute_in_order (ps : list VOSPrimitive)
    (context : PrimitiveContext) (kwargs : gmap string Value) :
  (forall pre m post rs r,
      ps = pre ++ m :: post ->
      Forall2 (passes context kwargs) pre rs ->
      fst (execute m context kwargs) = Ret r ->
      status r = FAILED ->
      execute (ComposedPrimitive ps) context kwargs
      = (Ret (summary FAILED (rs ++ [r])),
         prim_name (ComposedPrimitive ps)
         :: concat (List.map (log_of context kwargs) (pre ++ [m]))))
  /\ (forall rs,
        Forall2 (passes context kwargs) ps rs ->
        execute (ComposedPrimitive ps) context kwargs
        = (Ret (summary COMPLETED rs),
           prim_name (ComposedPrimitive ps)
           :: concat (List.map (log_of context kwargs) ps))).
Proof.
  split.
  - intros pre m post rs r -> Hpre Hm Hfail.
    rewrite execute_composed_unfold.
    rewrite (composed_loop_first_failure context kwargs pre m post rs r
               empty_accumulated Hpre Hm Hfail).
    by rewrite composed_result_summary.
  - intros rs Hall.
    rewrite execute_composed_unfold.
    rewrite (composed_loop_all_pass context kwargs ps rs empty_accumulated Hall).
    by rewrite composed_result_summary.
Qed.

(** C7.  In each of the ten specializations, when the narrowed operation
    raises an [Exception] whose text is [text], [execute] returns (it does
    not raise) the result with status failed, no data and the error list
    [[text]]. *)
Theorem specialized_execute_catches (name : string) (t : PrimitiveType)
    (operation : Operation) (callbacks : gmap string (list Callback))
    (context : PrimitiveContext) (kwargs : gmap string Value)
    (text : string) :
  operation (operation_args t kwargs) context = Raise (Exception text) ->
  exists r,
    execute (Specialized name t operation callbacks) context kwargs
    = (Ret r, [name])
    /\ status r = FAILED
    /\ data r = PValue VNone
    /\ errors r = [text].
Proof.
  intros Hop. exists (failed_result text). split; [|done].
  cbn [execute]. unfold execute_specialized, execute_body.
  destruct t; cbn [operation_args] in Hop;
    unfold mbind, M_bind, bind, lift, enter, try_except_Exception, ret;
    rewrite Hop; reflexivity.
Qed.

(** A detection primitive whose [detect] raises, executed on an empty
    context without keyword arguments. *)
Definition empty_context : PrimitiveContext :=
  {| ctx_id := "ctx"; agent_id := None; ctx_domain := None;
     session_id := None; ctx_metadata := [] |}.

Definition unavailable : Operation :=
  fun _ _ => Raise (Exception "model unavailable").

Lemma specialized_execute_catches_detection :
  exists r,
    execute (Specialized "hallucination_detection" DETECTION unavailable ∅)
      empty_context ∅
    = (Ret r, ["hallucination_detection"])
    /\ status r = FAILED
    /\ data r = PValue VNone
    /\ errors r = ["model unavailable"].
Proof.
  apply (specialized_execute_catches "hallucination_detection" DETECTION
           unavailable ∅ empty_context ∅ "model unavailable").
  reflexivity.
Defined.

(** A composition of three members of which the second fails: the third
    is not entered. *)
Definition steady (name : string) (st : PrimitiveStatus) (err : list string)
    : VOSPrimitive :=
  Custom name WORKFLOW
    (fun _ _ => Ret {| status := st; data := PValue (VStr name);
                       errors := err; warnings := [];
                       metrics := {[name := VNum 1]};
                       duration_ms := None |}).

Example composed_stops_at_failure :
  let r := execute (ComposedPrimitive
                      [steady "a" COMPLETED []; steady "b" FAILED ["b broke"];
                       steady "c" COMPLETED []]) empty_context ∅ in
  snd r = ["Composed(a, b, c)"; "a"; "b"]
  /\ exists res, fst r = Ret res
       /\ status res = FAILED
       /\ errors res = ["b broke"]
       /\ (exists ra rb, data res = PResults [ra; rb])
       /\ metrics res !! "a" = Some (VNum 1)
       /\ metrics res !! "c" = None.
Proof.
  cbn zeta. split; [reflexivity|].
  eexists. split; [reflexivity|].
  split; [reflexivity|]. split; [reflexivity|].
  split; [by eexists _, _|]. split; by vm_compute.
Qed.

Definition steady_result (name : string) (st : PrimitiveStatus)
    (err : list string) : PrimitiveResult :=
  {| status := st; data := PValue (VStr name); errors := err;
     warnings := []; metrics := {[name := VNum 1]}; duration_ms := None |}.

Lemma composed_execute_in_order_example :
  execute (ComposedPrimitive
             [steady "a" COMPLETED []; steady "b" FAILED ["b broke"];
              steady "c" COMPLETED []]) empty_context ∅
  = (Ret (summary FAILED
            [steady_result "a" COMPLETED [];
             steady_result "b" FAILED ["b broke"]]),
     ["Composed(a, b, c)"; "a"; "b"]).
Proof.
  destruct (composed_execute_in_order
              [steady "a" COMPLETED []; steady "b" FAILED ["b broke"];
               steady "c" COMPLETED []] empty_context ∅) as [Hfail _].
  apply (Hfail [steady "a" COMPLETED []] (steady "b" FAILED ["b broke"])
           [steady "c" COMPLETED []] [steady_result "a" COMPLETED []]
           (steady_result "b" FAILED ["b broke"])).
  - reflexivity.
  - constructor; [|constructor]. split; [reflexivity | discriminate].
  - reflexivity.
  - reflexivity.
Defined.

End VOSPrimitives.

(* ===================================================================== *)
(** ** Validation orchestrator: task scheduling and retries
       ([src/gatf/validation/orchestrators/validation_orchestrator.py]) *)
(* ===================================================================== *)

Module ValidationOrchestrator.

(** [class ValidationStage(Enum)] *)
Inductive ValidationStage :=
| INITIALIZATION | PRE_VALIDATION | DOMAIN_VALIDATION | QUALITY_VALIDATION
| METRIC_CALCULATION | POST_VALIDATION | AGGREGATION | FINALIZATION.

#[global] Instance ValidationStage_eq_dec : EqDecision ValidationStage.
Proof. solve_decision. Defined.

(** [class ValidationStatus(Enum)] *)
Inductive ValidationStatus :=
| PENDING | RUNNING | COMPLETED | FAILED | CANCELLED | SKIPPED.

#[global] Instance ValidationStatus_eq_dec : EqDecision ValidationStatus.
Proof. solve_decision. Defined.

(** The exceptions of the scheduler: what a task's callable raised, the
    timeout of [_execute_task] (task name and stage timeout), and the
    error of [_execute_tasks]. *)
Inductive Exn :=
| CallableError (text : string)
| SchedulingError (task_name : string) (timeout : Q)
| DependencyError (text : string).

(** One call of [task.validator_func()]: it returns a result after
    [elapsed] seconds, or raises. *)
Inductive CallOutcome :=
| Returned (result : string) (elapsed : Q)
| Raised (e : Exn).

(** [@dataclass ValidationTask].  The callable is a function of the number
    of calls made to it before; [calls] counts them (it is not a field of
    the source; it indexes the callable and records how often it ran).
    [start_time] and [end_time] are left out. *)
Record ValidationTask := {
  task_id : string;
  name : string;
  stage : ValidationStage;
  status : ValidationStatus;
  dependencies : gset string;
  validator_func : option (nat -> CallOutcome);
  output_data : option string;
  error : option Exn;
  retry_count : Z;
  max_retries : Z;
  calls : nat
}.

Definition set_status (s : ValidationStatus) (t : ValidationTask)
    : ValidationTask :=
  {| task_id := task_id t; name := name t; stage := stage t; status := s;
     dependencies := dependencies t; validator_func := validator_func t;
     output_data := output_data t; error := error t;
     retry_count := retry_count t; max_retries := max_retries t;
     calls := calls t |}.

Definition set_output (o : string) (t : ValidationTask) : ValidationTask :=
  {| task_id := task_id t; name := name t; stage := stage t;
     status := status t; dependencies := dependencies t;
     validator_func := validator_func t; output_data := Some o;
     error := error t; retry_count := retry_count t;
     max_retries := max_retries t; calls := calls t |}.

Definition set_error (e : Exn) (t : ValidationTask) : ValidationTask :=
  {| task_id := task_id t; name := name t; stage := stage t;
     status := status t; dependencies := dependencies t;
     validator_func := validator_func t; output_data := output_data t;
     error := Some e; retry_count := retry_count t;
     max_retries := max_retries t; calls := calls t |}.

Definition set_retry_count (n : Z) (t : ValidationTask) : ValidationTask :=
  {| task_id := task_id t; name := name t; stage := stage t;
     status := status t; dependencies := dependencies t;
     validator_func := validator_func t; output_data := output_data t;
     error := error t; retry_count := n; max_retries := max_retries t;
     calls := calls t |}.

Definition called (t : ValidationTask) : ValidationTask :=
  {| task_id := task_id t; name := name t; stage := stage t;
     status := status t; dependencies := dependencies t;
     validator_func := validator_func t; output_data := output_data t;
     error := error t; retry_count := retry_count t;
     max_retries := max_retries t; calls := S (calls t) |}.

(** The fields of [@dataclass ValidationPipeline] the scheduler reads. *)
Record ValidationPipeline := {
  parallel_stages : list ValidationStage;
  stage_timeout : ValidationStage -> option Q
}.

(** The timeouts [ValidationPipeline.__post_init__] fills in. *)
Definition default_timeouts (s : ValidationStage) : option Q :=
  Some match s with
       | INITIALIZATION => 5 | PRE_VALIDATION => 10
       | DOMAIN_VALIDATION => 30 | QUALITY_VALIDATION => 30
       | METRIC_CALCULATION => 10 | POST_VALIDATION => 10
       | AGGREGATION => 5 | FINALIZATION => 5
       end%Q.

(** [ValidationOrchestrator._create_default_pipeline] *)
Definition _create_default_pipeline : ValidationPipeline :=
  {| parallel_stages := [DOMAIN_VALIDATION; QUALITY_VALIDATION];
     stage_timeout := default_timeouts |}.

(** The [except Exception as e] branch of [_execute_task]: the task is
    marked failed, and reset to pending with one more retry counted while
    [retry_count < max_retries]. *)
Definition on_exception (e : Exn) (t : ValidationTask) : ValidationTask :=
  let t1 := set_status FAILED (set_error e t) in
  if retry_count t1 <? max_retries t1
  then set_status PENDING (set_retry_count (retry_count t1 + 1) t1)
  else t1.

(** [ValidationOrchestrator._execute_task].  No exception leaves it. *)
Definition _execute_task (task : ValidationTask)
    (pipeline : ValidationPipeline) : ValidationTask :=
  let timeout :=
    match stage_timeout pipeline (stage task) with
    | Some t => t
    | None => 30%Q
    end in
  match validator_func task with
  | Some f =>
      match f (calls task) with
      | Returned result elapsed =>
          if Qlt_le_dec timeout elapsed
          then on_exception (SchedulingError (name task) timeout) (called task)
          else set_status COMPLETED (set_output result (called task))
      | Raised e => on_exception e (called task)
      end
  | None => set_status SKIPPED task
  end.

(** The test of the scan for ready tasks in [_execute_tasks]. *)
Definition is_ready (completed_tasks : gset string) (task : ValidationTask)
    : bool :=
  bool_decide (task_id task ∉ completed_tasks)
  && bool_decide (status task = PENDING)
  && bool_decide (dependencies task ⊆ completed_tasks).

Definition ready_tasks (completed_tasks : gset string)
    (tasks : list ValidationTask) : list ValidationTask :=
  List.filter (is_ready completed_tasks) tasks.

(** What one wave does to a ready task.  A task of a parallel stage, or
    the only ready task, is submitted to the worker pool and the calling
    thread then writes [RUNNING] into its status; [late_running task] says
    that this write lands after the worker has finished the task.
    Otherwise the task is executed inline. *)
Definition run_ready (pipeline : ValidationPipeline)
    (late_running : ValidationTask -> bool) (n_ready : nat)
    (task : ValidationTask) : ValidationTask :=
  if bool_decide (stage task ∈ parallel_stages pipeline) || (n_ready =? 1)%nat
  then
    let finished := _execute_task task pipeline in
    if late_running task then set_status RUNNING finished else finished
  else _execute_task task pipeline.

(** One iteration of the [while] loop of [_execute_tasks] when some task
    is ready: every ready task is run and its id joins [completed_tasks],
    whatever status the run left it in. *)
Definition wave (pipeline : ValidationPipeline)
    (late_running : ValidationTask -> bool) (completed_tasks : gset string)
    (tasks : list ValidationTask) : list ValidationTask * gset string :=
  let ready := ready_tasks completed_tasks tasks in
  (List.map (fun t => if is_ready completed_tasks t
                      then run_ready pipeline late_running (length ready) t
                      else t) tasks,
   completed_tasks ∪ list_to_set (List.map task_id ready)).

(** How [_execute_tasks] ends. *)
Inductive Outcome :=
| Finished (tasks : list ValidationTask)
| Raises (e : Exn)
| OutOfFuel.

Definition circular : Exn :=
  DependencyError "Circular dependency detected in validation pipeline".

(** The [while] loop of [ValidationOrchestrator._execute_tasks], at most
    [fuel] iterations of it, from the current [completed_tasks]. *)
Fixpoint execute_tasks_loop (fuel : nat) (pipeline : ValidationPipeline)
    (late_running : ValidationTask -> bool) (tasks : list ValidationTask)
    (completed_tasks : gset string) : Outcome :=
  match fuel with
  | O => OutOfFuel
  | S fuel' =>
      if (size completed_tasks <? length tasks)%nat then
        match ready_tasks completed_tasks tasks with
        | [] => Raises circular
        | _ :: _ =>
            let '(tasks', completed') :=
              wave pipeline late_running completed_tasks tasks in
            execute_tasks_loop fuel' pipeline late_running tasks' completed'
        end
      else Finished tasks
  end.

(** [ValidationOrchestrator._execute_tasks] on the tasks of a context, in
    the order of [context.tasks]. *)
Definition _execute_tasks (fuel : nat) (pipeline : ValidationPipeline)
    (late_running : ValidationTask -> bool) (tasks : list ValidationTask)
    : Outcome :=
  execute_tasks_loop fuel pipeline late_running tasks ∅.

(** A set of task ids is a knot of the task graph when some task has its
    id in the set and every task with its id in the set depends on an id
    of the set.  The ids of the tasks on a dependency cycle form a knot. *)
Definition cyclic (tasks : list ValidationTask) (cyc : gset string) : Prop :=
  (exists t, In t tasks /\ task_id t ∈ cyc)
  /\ (forall t, In t tasks -> task_id t ∈ cyc ->
        exists d, d ∈ dependencies t /\ d ∈ cyc).

(** *** Properties of the scheduler *)

Lemma size_list_to_set_le (l : list string) :
  (size (list_to_set l : gset string) <= length l)%nat.
Proof.
  induction l as [|x l IH]; [by rewrite list_to_set_nil, size_empty|].
  rewrite list_to_set_cons. cbn [length].
  destruct (decide (x ∈ (list_to_set l : gset string))) as [Hin|Hout].
  - replace ({[x]} ∪ list_to_set l) with (list_to_set l : gset string)
      by set_solver.
    lia.
  - rewrite size_union by set_solver. rewrite size_singleton. lia.
Qed.

Lemma Forall2_map_In {A B} (R R' : A -> B -> Prop) (f : B -> B) l0 l :
  Forall2 R l0 l ->
  (forall a b, In b l -> R a b -> R' a (f b)) ->
  Forall2 R' l0 (List.map f l).
Proof.
  induction 1 as [|a b l0 l Hab _ IH]; intros Hf; cbn; constructor.
  - apply Hf; [by left | done].
  - apply IH. intros a' b' Hin. apply Hf. by right.
Qed.

Section Scheduler.
Variables (pipeline : ValidationPipeline).
Variables (late_running : ValidationTask -> bool).

(** What a run of a task leaves untouched, and how far it moves the
    call counter. *)
Definition same_node (t t' : ValidationTask) : Prop :=
  task_id t' = task_id t /\ dependencies t' = dependencies t.

Lemma on_exception_id e t : task_id (on_exception e t) = task_id t.
Proof. unfold on_exception. by destruct (_ <? _). Qed.

Lemma on_exception_deps e t :
  dependencies (on_exception e t) = dependencies t.
Proof. unfold on_exception. by destruct (_ <? _). Qed.

Lemma on_exception_calls e t : calls (on_exception e t) = calls t.
Proof. unfold on_exception. by destruct (_ <? _). Qed.

Lemma execute_task_frame t :
  same_node t (_execute_task t pipeline)
  /\ (calls (_execute_task t pipeline) <= S (calls t))%nat.
Proof.
  unfold _execute_task, same_node.
  destruct (validator_func t) as [f|]; [|cbn; repeat split; lia].
  destruct (f (calls t)) as [result elapsed|e];
    [destruct (Qlt_le_dec _ _)|];
    rewrite ?on_exception_id, ?on_exception_deps, ?on_exception_calls;
    cbn; repeat split; lia.
Qed.

Lemma run_ready_frame n t :
  same_node t (run_ready pipeline late_running n t)
  /\ (calls (run_ready pipeline late_running n t) <= S (calls t))%nat.
Proof.
  unfold run_ready. destruct (execute_task_frame t) as [[Hid Hdep] Hc].
  destruct (_ || _); [|by repeat split].
  destruct (late_running t); unfold same_node; cbn; by repeat split.
Qed.

Lemma ready_task_spec completed t :
  is_ready completed t = true
  <-> (task_id t ∉ completed) /\ status t = PENDING
      /\ (dependencies t ⊆ completed).
Proof.
  unfold is_ready. rewrite !andb_true_iff, !bool_decide_eq_true. tauto.
Qed.

Lemma wave_ids completed tasks :
  List.map task_id (fst (wave pipeline late_running completed tasks))
  = List.map task_id tasks.
Proof.
  unfold wave. cbn [fst]. rewrite List.map_map. apply List.map_ext.
  intros t. destruct (is_ready completed t); [|done].
  by destruct (run_ready_frame (length (ready_tasks completed tasks)) t)
    as [[-> _] _].
Qed.

Lemma wave_cyclic completed tasks cyc :
  cyclic tasks cyc ->
  cyclic (fst (wave pipeline late_running completed tasks)) cyc.
Proof.
  intros [(t0 & Hin0 & Hc0) Hdeps]. unfold wave. cbn [fst].
  set (step := fun t => if is_ready completed t
                        then run_ready pipeline late_running
                               (length (ready_tasks completed tasks)) t
                        else t).
  assert (Hstep : forall t, same_node t (step t)).
  { intros t. unfold step. destruct (is_ready completed t); [|done].
    apply run_ready_frame. }
  split.
  - exists (step t0). split; [by apply List.in_map|].
    destruct (Hstep t0) as [-> _]. done.
  - intros t' Hin' Hc'. apply List.in_map_iff in Hin' as (t & <- & Hin).
    destruct (Hstep t) as [Hid Hdep]. rewrite Hid in Hc'. rewrite Hdep.
    by apply Hdeps.
Qed.

(** A knot is never completed: with a knot in the task graph the loop
    raises the dependency error, and it does so before its fuel runs out
    when the fuel exceeds the number of tasks still to complete. *)
Lemma loop_raises_on_knot cyc fuel :
  forall tasks completed,
    cyclic tasks cyc ->
    completed ## cyc ->
    completed ⊆ list_to_set (List.map task_id tasks) ->
    (length tasks - size completed < fuel)%nat ->
    execute_tasks_loop fuel pipeline late_running tasks completed
    = Raises circular.
Proof.
  induction fuel as [|fuel IH]; intros tasks completed Hcyc Hdisj Hsub Hfuel;
    [lia|].
  assert (Hlt : (size completed < length tasks)%nat).
  { destruct Hcyc as [(t0 & Hin0 & Hc0) _].
    assert (Hstrict : completed ⊂ list_to_set (List.map task_id tasks)).
    { split; [done|]. intros Hrev.
      assert (task_id t0 ∈ completed); [|set_solver].
      apply Hrev, elem_of_list_to_set, list_elem_of_In, List.in_map, Hin0. }
    apply subset_size in Hstrict.
    pose proof (size_list_to_set_le (List.map task_id tasks)) as Hle.
    rewrite List.length_map in Hle. lia. }
  cbn [execute_tasks_loop].
  apply Nat.ltb_lt in Hlt as Hltb. rewrite Hltb.
  destruct (ready_tasks completed tasks) as [|r rs] eqn:Hready; [done|].
  pose proof (wave_ids completed tasks) as Hids.
  pose proof (wave_cyclic completed tasks cyc Hcyc) as Hcyc'.
  unfold wave in *. cbn [fst] in Hids, Hcyc'. rewrite Hready in *.
  assert (Hrin : forall x, In x (r :: rs) ->
            In x tasks /\ is_ready completed x = true).
  { intros x Hx. rewrite <- Hready in Hx. unfold ready_tasks in Hx.
    by apply List.filter_In in Hx. }
  apply IH.
  - done.
  - intros x Hx Hxc. apply elem_of_union in Hx as [Hx|Hx]; [set_solver|].
    apply elem_of_list_to_set, list_elem_of_In, List.in_map_iff in Hx
      as (t & <- & Hin).
    destruct (Hrin t Hin) as [Hint Hr]. apply ready_task_spec in Hr
      as (_ & _ & Hdone).
    destruct Hcyc as [_ Hdeps]. destruct (Hdeps t Hint Hxc) as (d & Hd & Hdc).
    set_solver.
  - rewrite Hids. apply union_subseteq. split; [done|].
    intros x Hx.
    apply elem_of_list_to_set, list_elem_of_In, List.in_map_iff in Hx
      as (t & <- & Hin).
    apply elem_of_list_to_set, list_elem_of_In, List.in_map.
    by apply Hrin.
  - rewrite List.length_map.
    assert (Hgrow : completed ⊂ completed ∪ list_to_set (List.map task_id (r :: rs))).
    { split; [set_solver|]. intros Hrev.
      destruct (Hrin r (or_introl eq_refl)) as [_ Hr].
      apply ready_task_spec in Hr as (Hnot & _). apply Hnot, Hrev.
      apply elem_of_union. right. cbn. set_solver. }
    apply subset_size in Hgrow. lia.
Qed.

(** No run of the loop calls the callable of a task more than once. *)
Definition once_at_most (completed : gset string) (t0 t : ValidationTask)
    : Prop :=
  (task_id t ∉ completed -> t = t0) /\ (calls t <= S (calls t0))%nat.

Lemma loop_calls_once fuel :
  forall tasks0 tasks completed final,
    Forall2 (once_at_most completed) tasks0 tasks ->
    execute_tasks_loop fuel pipeline late_running tasks completed
    = Finished final ->
    Forall2 (fun t0 t => (calls t <= S (calls t0))%nat) tasks0 final.
Proof.
  induction fuel as [|fuel IH]; intros tasks0 tasks completed final Hinv Hrun;
    [done|].
  cbn [execute_tasks_loop] in Hrun.
  destruct (size completed <? length tasks)%nat.
  - destruct (ready_tasks completed tasks) as [|r rs] eqn:Hready; [done|].
    unfold wave in Hrun. rewrite Hready in Hrun.
    eapply IH; [|exact Hrun].
    eapply Forall2_map_In; [exact Hinv|].
    intros t0 t Hin [Hsame Hcalls].
    destruct (is_ready completed t) eqn:Hr.
    + apply ready_task_spec in Hr as Hr'. destruct Hr' as (Hnot & _).
      specialize (Hsame Hnot). subst t0. split.
      * intros Hout. exfalso. apply Hout.
        destruct (run_ready_frame (length (r :: rs)) t) as [[-> _] _].
        apply elem_of_union. right.
        apply elem_of_list_to_set, list_elem_of_In, List.in_map.
        rewrite <- Hready. unfold ready_tasks. by apply List.filter_In.
      * apply run_ready_frame.
    + split; [|done]. intros Hout. apply Hsame. set_solver.
  - inversion Hrun; subst. eapply Forall2_impl; [exact Hinv|].
    by intros t0 t [_ ?].
Qed.

End Scheduler.

(** A single run of a task: when the callable raises while the retry
    counter is below the cap, [_execute_task] leaves the task pending with
    the error recorded and one more retry counted; at the cap it leaves the
    task failed. *)
Lemma execute_task_resets_to_pending (pipeline : ValidationPipeline)
    (t : ValidationTask) (f : nat -> CallOutcome) (e : Exn) :
  validator_func t = Some f ->
  f (calls t) = Raised e ->
  let t' := _execute_task t pipeline in
  error t' = Some e
  /\ (retry_count t < max_retries t ->
      status t' = PENDING /\ retry_count t' = retry_count t + 1)
  /\ (max_retries t <= retry_count t ->
      status t' = FAILED /\ retry_count t' = retry_count t).
Proof.
  intros Hf He. cbn zeta. unfold _execute_task. rewrite Hf, He.
  unfold on_exception. cbn.
  destruct (Z.ltb_spec (retry_count t) (max_retries t)); cbn;
    repeat split; intros; try done; lia.
Qed.

(** A pipeline of one task whose callable raises on its first call and
    returns on every later one, with the default cap of three retries. *)
Definition flaky : nat -> CallOutcome :=
  fun n => match n with
           | O => Raised (CallableError "transient failure")
           | S _ => Returned "ok" 0
           end.

Definition flaky_task : ValidationTask :=
  {| task_id := "t1"; name := "quality_validation";
     stage := QUALITY_VALIDATION; status := PENDING; dependencies := ∅;
     validator_func := Some flaky; output_data := None; error := None;
     retry_count := 0; max_retries := 3; calls := 0 |}.

(** C2 at that pipeline: the run of [_execute_tasks] ends normally after
    one wave; the callable has run once, the task has one retry counted
    and is left pending (or running, when the scheduler's status write
    lands last), and it is never executed again, so it does not end
    completed. *)
Theorem retried_task_is_not_run_again
    (late_running : ValidationTask -> bool) (fuel : nat) :
  exists t',
    _execute_tasks (S (S fuel)) _create_default_pipeline late_running
      [flaky_task]
    = Finished [t']
    /\ calls t' = 1%nat
    /\ retry_count t' = 1
    /\ status t' = (if late_running flaky_task then RUNNING else PENDING)
    /\ status t' <> COMPLETED.
Proof.
  unfold _execute_tasks. cbn [execute_tasks_loop].
  assert (Hsz : (size (∅ : gset string) <? length [flaky_task])%nat = true)
    by (by rewrite size_empty).
  rewrite Hsz.
  assert (Hready : ready_tasks ∅ [flaky_task] = [flaky_task]).
  { unfold ready_tasks. cbn [List.filter].
    assert (Hr : is_ready ∅ flaky_task = true)
      by (apply ready_task_spec; cbn; set_solver).
    by rewrite Hr. }
  rewrite Hready. unfold wave. rewrite Hready. cbn [List.map length].
  assert (Hr : is_ready ∅ flaky_task = true)
    by (apply ready_task_spec; cbn; set_solver).
  rewrite Hr.
  assert (Hsz' : (size (∅ ∪ list_to_set [task_id flaky_task] : gset string)
                  <? 1)%nat = false).
  { apply Nat.ltb_ge. cbn [list_to_set task_id flaky_task].
    rewrite union_empty_r_L, union_empty_l_L, size_singleton. lia. }
  cbn [length]. rewrite Hsz'.
  eexists. split; [reflexivity|].
  unfold run_ready. cbn [stage flaky_task parallel_stages
                         _create_default_pipeline].
  rewrite orb_true_r.
  destruct (late_running flaky_task); cbn; done.
Qed.

End ValidationOrchestrator.

(* ===================================================================== *)
(** ** VOS orchestrator: adaptive execution
       ([src/gatf_vos/core/vos_orchestrator.py]) *)
(* ===================================================================== *)

Module VOSOrchestrator.

Import VOSPrimitives.

(** What [_execute_adaptive] can raise: its own validation error, the
    [KeyError] of [pending.remove], the [AttributeError] of calling
    [execute] on the [None] that [get_primitive] returned, and whatever a
    member's [execute] raised. *)
Inductive Error :=
| ValidationError (text : string)
| KeyError (key : string)
| AttributeError (text : string)
| MemberError (e : Exn).

(** A primitive as the orchestrator sees it: its name and its [execute].
    The argument of [execute] is the number of [execute] calls started
    before it in the run of the plan, so that a primitive may answer
    differently when it is retried. *)
Record Primitive := {
  name : string;
  execute : nat -> Res PrimitiveResult
}.

(** [plan.retry_policy], read through [.get('enabled', False)] and
    [.get('max_retries', 3)]. *)
Record RetryPolicy := {
  enabled : option bool;
  policy_max_retries : option nat
}.

(** The fields of [@dataclass OrchestrationPlan] that [_execute_adaptive]
    reads. *)
Record OrchestrationPlan := {
  primitives : list Primitive;
  dependencies : gmap string (list string);
  retry_policy : RetryPolicy
}.

(** The local variables of [_execute_adaptive], [result.primitive_results]
    and the count of [execute] calls started so far. *)
Record RunState := {
  executed : gset string;
  pending : gset string;
  primitive_results : gmap string PrimitiveResult;
  clock : nat
}.

Inductive Step (A : Type) :=
| Ok (a : A)
| Raises (e : Error).
Arguments Ok {A} a.
Arguments Raises {A} e.

(** [plan.dependencies.get(prim.name, [])] *)
Definition deps_of (plan : OrchestrationPlan) (n : string) : list string :=
  match dependencies plan !! n with Some ds => ds | None => [] end.

(** The test of the scan for ready primitives. *)
Definition is_ready (plan : OrchestrationPlan) (st : RunState)
    (prim : Primitive) : bool :=
  bool_decide (name prim ∈ pending st)
  && forallb (fun d => bool_decide (d ∈ executed st)) (deps_of plan (name prim)).

(** [[(p.name, asyncio.create_task(p.execute(context))) for p in ready]]:
    every ready primitive is started, one call after the other. *)
Fixpoint start_all (ready : list Primitive) (c : nat)
    : list (string * Res PrimitiveResult) :=
  match ready with
  | [] => []
  | p :: rest => (name p, execute p c) :: start_all rest (S c)
  end.

(** The retry loop [for i in range(retry_count)]: the primitive registered
    under the name is executed again until a result is completed, which
    then replaces the recorded one. *)
Fixpoint retry (registry : gmap string Primitive) (prim_name : string)
    (attempts : nat) (st : RunState) : Step RunState :=
  match attempts with
  | O => Ok st
  | S attempts' =>
      match registry !! prim_name with
      | None => Raises (AttributeError
                          "'NoneType' object has no attribute 'execute'")
      | Some p =>
          match execute p (clock st) with
          | Raise e => Raises (MemberError e)
          | Ret retry_result =>
              if bool_decide (status retry_result = COMPLETED)
              then Ok {| executed := executed st; pending := pending st;
                         primitive_results :=
                           <[prim_name := retry_result]> (primitive_results st);
                         clock := S (clock st) |}
              else retry registry prim_name attempts'
                     {| executed := executed st; pending := pending st;
                        primitive_results := primitive_results st;
                        clock := S (clock st) |}
          end
      end
  end.

(** The loop [for prim_name, task in tasks] of one wave. *)
Fixpoint process (registry : gmap string Primitive) (policy : RetryPolicy)
    (tasks : list (string * Res PrimitiveResult)) (st : RunState)
    : Step RunState :=
  match tasks with
  | [] => Ok st
  | (prim_name, task) :: rest =>
      match task with
      | Raise e => Raises (MemberError e)
      | Ret prim_result =>
          if bool_decide (prim_name ∈ pending st) then
            let st' :=
              {| executed := executed st ∪ {[prim_name]};
                 pending := pending st ∖ {[prim_name]};
                 primitive_results :=
                   <[prim_name := prim_result]> (primitive_results st);
                 clock := clock st |} in
            let retried :=
              if bool_decide (status prim_result = FAILED)
                 && match enabled policy with Some b => b | None => false end
              then retry registry prim_name
                     match policy_max_retries policy with
                     | Some n => n | None => 3%nat end st'
              else Ok st' in
            match retried with
            | Ok st'' => process registry policy rest st''
            | Raises e => Raises e
            end
          else Raises (KeyError prim_name)
      end
  end.

(** How [_execute_adaptive] ends. *)
Inductive Outcome :=
| Finished (st : RunState)
| Raised (e : Error)
| OutOfFuel.

Definition circular : Error :=
  ValidationError "Circular dependency detected in orchestration plan".

(** The [while pending] loop, at most [fuel] iterations of it. *)
Fixpoint adaptive_loop (fuel : nat) (registry : gmap string Primitive)
    (plan : OrchestrationPlan) (st : RunState) : Outcome :=
  match fuel with
  | O => OutOfFuel
  | S fuel' =>
      if bool_decide (pending st = ∅) then Finished st
      else
        match List.filter (is_ready plan st) (primitives plan) with
        | [] => Raised circular
        | ready =>
            match process registry (retry_policy plan)
                    (start_all ready (clock st))
                    {| executed := executed st; pending := pending st;
                       primitive_results := primitive_results st;
                       clock := (clock st + length ready)%nat |} with
            | Ok st' => adaptive_loop fuel' registry plan st'
            | Raises e => Raised e
            end
        end
  end.

(** [VOSOrchestrator._execute_adaptive]; [registry] is
    [self._primitives]. *)
Definition _execute_adaptive (fuel : nat) (registry : gmap string Primitive)
    (plan : OrchestrationPlan) : Outcome :=
  adaptive_loop fuel registry plan
    {| executed := ∅;
       pending := list_to_set (List.map name (primitives plan));
       primitive_results := ∅;
       clock := 0 |}.

(** A set of primitive names is a knot of the plan when some primitive of
    the plan has its name in the set and every such primitive depends on a
    name of the set.  The names on a dependency cycle form a knot. *)
Definition cyclic (plan : OrchestrationPlan) (cyc : gset string) : Prop :=
  (exists p, In p (primitives plan) /\ name p ∈ cyc)
  /\ (forall p, In p (primitives plan) -> name p ∈ cyc ->
        exists d, In d (deps_of plan (name p)) /\ d ∈ cyc).

(** A plan whose primitives have distinct names, are registered under
    these names, and whose [execute] always returns a result. *)
Definition well_formed (registry : gmap string Primitive)
    (plan : OrchestrationPlan) : Prop :=
  List.NoDup (List.map name (primitives plan))
  /\ (forall p k, In p (primitives plan) -> exists r, execute p k = Ret r)
  /\ (forall p, In p (primitives plan) ->
        exists q, registry !! name p = Some q
                  /\ forall k, exists r, execute q k = Ret r).

(** *** Properties of the adaptive mode *)

Lemma NoDup_map_filter {A B} (f : A -> B) (P : A -> bool) (l : list A) :
  List.NoDup (List.map f l) -> List.NoDup (List.map f (List.filter P l)).
Proof.
  induction l as [|x l IH]; cbn; [done|].
  intros Hnd. apply List.NoDup_cons_iff in Hnd as [Hx Hl].
  destruct (P x); cbn; [|by apply IH].
  apply List.NoDup_cons; [|by apply IH].
  intros Hin. apply Hx. apply List.in_map_iff in Hin as (y & Hy & Hin).
  apply List.in_map_iff. exists y. split; [done|].
  by apply List.filter_In in Hin as [? _].
Qed.

Lemma start_all_names ready c :
  List.map fst (start_all ready c) = List.map name ready.
Proof.
  revert c. induction ready as [|p ready IH]; intros c; cbn; [done|].
  by rewrite IH.
Qed.

Lemma start_all_outcomes ready c n t :
  In (n, t) (start_all ready c) ->
  exists p k, In p ready /\ n = name p /\ t = execute p k.
Proof.
  revert c. induction ready as [|p ready IH]; intros c; cbn; [done|].
  intros [Heq|Hin].
  - inversion Heq; subst. exists p, c. by repeat split; [left|..].
  - destruct (IH _ Hin) as (q & k & Hq & -> & ->).
    exists q, k. by repeat split; [right|..].
Qed.

Section Adaptive.
Variables (registry : gmap string Primitive) (plan : OrchestrationPlan).

(** A primitive that is registered and whose [execute] returns. *)
Definition answers (n : string) : Prop :=
  exists q, registry !! n = Some q /\ forall k, exists r, execute q k = Ret r.

Lemma retry_frame n attempts st st' :
  retry registry n attempts st = Ok st' ->
  executed st' = executed st /\ pending st' = pending st.
Proof.
  revert st. induction attempts as [|a IH]; intros st; cbn.
  - by intros [= <-].
  - destruct (registry !! n) as [q|]; [|done].
    destruct (execute q (clock st)) as [r|e]; [|done].
    destruct (bool_decide _).
    + by intros [= <-].
    + intros H. by apply IH in H.
Qed.

Lemma retry_ok n attempts st :
  answers n -> exists st', retry registry n attempts st = Ok st'.
Proof.
  intros (q & Hq & Hret). revert st.
  induction attempts as [|a IH]; intros st; cbn; [by eexists|].
  rewrite Hq. destruct (Hret (clock st)) as [r ->].
  destruct (bool_decide _); [by eexists|]. apply IH.
Qed.

(** A wave that does not raise moves the names it ran from [pending] to
    [executed]; the first of them was pending. *)
Lemma process_frame policy tasks :
  forall st st',
    process registry policy tasks st = Ok st' ->
    executed st' = executed st ∪ list_to_set (List.map fst tasks)
    /\ pending st' = pending st ∖ list_to_set (List.map fst tasks)
    /\ (forall n t rest, tasks = (n, t) :: rest -> n ∈ pending st).
Proof.
  induction tasks as [|[n t] rest IH]; intros st st'; cbn [process].
  - intros [= <-]. cbn. repeat split; [set_solver | set_solver | done].
  - destruct t as [r|e]; [|done].
    destruct (bool_decide (n ∈ pending st)) eqn:Hp; [|done].
    apply bool_decide_eq_true in Hp.
    destruct (if _ && _ then _ else _) as [st1|e] eqn:Hretry; [|done].
    assert (Hst1 : executed st1 = executed st ∪ {[n]}
                   /\ pending st1 = pending st ∖ {[n]}).
    { destruct (_ && _).
      - by apply retry_frame in Hretry.
      - by inversion Hretry. }
    destruct Hst1 as [He Hpd].
    intros Hrun. apply IH in Hrun as (He' & Hp' & _).
    rewrite He', Hp', He, Hpd. cbn [List.map fst].
    rewrite list_to_set_cons.
    repeat split; [set_solver | set_solver |].
    by intros ? ? ? [= <- _ _].
Qed.

Lemma process_ok policy tasks :
  forall st,
    List.NoDup (List.map fst tasks) ->
    (forall n t, In (n, t) tasks ->
       n ∈ pending st /\ answers n /\ exists r, t = Ret r) ->
    exists st', process registry policy tasks st = Ok st'.
Proof.
  induction tasks as [|[n t] rest IH]; intros st Hnd Hall; cbn [process];
    [by eexists|].
  destruct (Hall n t (or_introl eq_refl)) as (Hp & Hans & r & ->).
  rewrite bool_decide_eq_true_2 by done.
  cbn [List.map fst] in Hnd. apply List.NoDup_cons_iff in Hnd as [Hfresh Hnd].
  set (st1 := {| executed := executed st ∪ {[n]};
                 pending := pending st ∖ {[n]};
                 primitive_results := <[n:=r]> (primitive_results st);
                 clock := clock st |}).
  assert (Hretry : exists st2,
            (if bool_decide (status r = FAILED)
                && match enabled policy with Some b => b | None => false end
             then retry registry n
                    match policy_max_retries policy with
                    | Some k => k | None => 3%nat end st1
             else Ok st1) = Ok st2 /\ pending st2 = pending st1).
  { destruct (_ && _).
    - destruct (retry_ok n match policy_max_retries policy with
                           | Some k => k | None => 3%nat end st1 Hans)
        as [st2 H2].
      exists st2. split; [done|]. by apply retry_frame in H2 as [_ ?].
    - by exists st1. }
  destruct Hretry as (st2 & -> & Hp2).
  apply IH; [done|].
  intros n' t' Hin. destruct (Hall n' t' (or_intror Hin)) as (Hp' & ? & ?).
  repeat split; try done.
  rewrite Hp2. cbn. apply elem_of_difference. split; [done|].
  intros ->%elem_of_singleton. apply Hfresh.
  apply List.in_map_iff. by exists (n, t').
Qed.

Lemma ready_primitive_spec st p :
  is_ready plan st p = true
  <-> (name p ∈ pending st)
      /\ (forall d, In d (deps_of plan (name p)) -> d ∈ executed st).
Proof.
  unfold is_ready. rewrite andb_true_iff, bool_decide_eq_true, forallb_forall.
  split; intros [H1 H2]; (split; [done|]); intros d Hd; specialize (H2 d Hd).
  - by apply bool_decide_eq_true in H2.
  - by apply bool_decide_eq_true.
Qed.

(** With a knot in the plan the loop ends by raising, before its fuel runs
    out when the fuel exceeds the number of pending names; for a
    well-formed plan the error is the circular-dependency error. *)
Lemma adaptive_raises_on_knot cyc fuel :
  forall st,
    cyclic plan cyc ->
    executed st ## cyc ->
    (forall p, In p (primitives plan) -> name p ∈ cyc -> name p ∈ pending st) ->
    (size (pending st) < fuel)%nat ->
    exists e,
      adaptive_loop fuel registry plan st = Raised e
      /\ (well_formed registry plan -> e = circular).
Proof.
  induction fuel as [|fuel IH]; intros st Hcyc Hdisj Hpend Hfuel; [lia|].
  cbn [adaptive_loop].
  destruct Hcyc as [(p0 & Hin0 & Hc0) Hdeps].
  assert (Hne : pending st <> ∅).
  { intros Hempty. specialize (Hpend p0 Hin0 Hc0). set_solver. }
  rewrite bool_decide_eq_false_2 by done.
  destruct (List.filter (is_ready plan st) (primitives plan)) as [|r rs]
    eqn:Hready; [by exists circular|].
  assert (Hrin : forall x, In x (r :: rs) ->
            In x (primitives plan) /\ is_ready plan st x = true).
  { intros x Hx. rewrite <- Hready in Hx. by apply List.filter_In in Hx. }
  assert (Hout : forall x, In x (r :: rs) -> name x ∉ cyc).
  { intros x Hx Hxc. destruct (Hrin x Hx) as [Hxin Hr].
    apply ready_primitive_spec in Hr as [_ Hdone].
    destruct (Hdeps x Hxin Hxc) as (d & Hd & Hdc).
    specialize (Hdone d Hd). set_solver. }
  set (st0 := {| executed := executed st; pending := pending st;
                 primitive_results := primitive_results st;
                 clock := (clock st + length (r :: rs))%nat |}).
  destruct (process registry (retry_policy plan)
              (start_all (r :: rs) (clock st)) st0) as [st'|e] eqn:Hproc.
  - apply process_frame in Hproc as (He & Hp & Hhead).
    rewrite start_all_names in He, Hp.
    apply IH.
    + by split; [exists p0|].
    + rewrite He. cbn [executed st0]. intros x Hx Hxc.
      apply elem_of_union in Hx as [Hx|Hx]; [set_solver|].
      apply elem_of_list_to_set, list_elem_of_In, List.in_map_iff in Hx
        as (y & <- & Hy).
      by apply (Hout y).
    + intros p Hp' Hpc. rewrite Hp. cbn [pending st0].
      apply elem_of_difference. split; [by apply Hpend|].
      intros Hx.
      apply elem_of_list_to_set, list_elem_of_In, List.in_map_iff in Hx
        as (y & Hy & Hyin).
      apply (Hout y Hyin). by rewrite Hy.
    + assert (Hsub : pending st' ⊂ pending st).
      { rewrite Hp. cbn [pending st0]. split; [set_solver|].
        intros Hrev.
        specialize (Hhead (name r) (execute r (clock st))
                      (start_all rs (S (clock st))) eq_refl).
        cbn [pending st0] in Hhead.
        specialize (Hrev _ Hhead). apply elem_of_difference in Hrev as [_ Hn].
        apply Hn. cbn [List.map]. rewrite list_to_set_cons. set_solver. }
      apply subset_size in Hsub. lia.
  - exists e. split; [done|]. intros (Hnd & Hret & Hreg). exfalso.
    destruct (process_ok (retry_policy plan) (start_all (r :: rs) (clock st))
                st0) as [st' Hok].
    + rewrite start_all_names, <- Hready. by apply NoDup_map_filter.
    + intros n t Hin.
      apply start_all_outcomes in Hin as (q & k & Hq & -> & ->).
      destruct (Hrin q Hq) as [Hqin Hr].
      apply ready_primitive_spec in Hr as [Hqp _].
      repeat split; [done | by apply Hreg | by apply Hret].
    + congruence.
Qed.

End Adaptive.

(** The plan of two primitives that depend on each other. *)
Definition steady (n : string) : Primitive :=
  {| name := n;
     execute := fun _ =>
       Ret {| status := COMPLETED; data := PValue (VStr n); errors := [];
              warnings := []; metrics := ∅; duration_ms := None |} |}.

Definition two_cycle_plan : OrchestrationPlan :=
  {| primitives := [steady "A"; steady "B"];
     dependencies := {["A" := ["B"]; "B" := ["A"]]};
     retry_policy := {| enabled := None; policy_max_retries := None |} |}.

Definition two_cycle_registry : gmap string Primitive :=
  {["A" := steady "A"; "B" := steady "B"]}.

End VOSOrchestrator.

(* ===================================================================== *)
(** ** Dependency cycles in the two schedulers *)
(* ===================================================================== *)

Module DependencyCycles.

(** Two validation tasks that depend on each other. *)
Definition waiting_task (id : string) (deps : gset string)
    : ValidationOrchestrator.ValidationTask :=
  {| ValidationOrchestrator.task_id := id;
     ValidationOrchestrator.name := id;
     ValidationOrchestrator.stage := ValidationOrchestrator.QUALITY_VALIDATION;
     ValidationOrchestrator.status := ValidationOrchestrator.PENDING;
     ValidationOrchestrator.dependencies := deps;
     ValidationOrchestrator.validator_func :=
       Some (fun _ => ValidationOrchestrator.Returned "ok" 0);
     ValidationOrchestrator.output_data := None;
     ValidationOrchestrator.error := None;
     ValidationOrchestrator.retry_count := 0;
     ValidationOrchestrator.max_retries := 3;
     ValidationOrchestrator.calls := 0 |}.

Definition two_cycle_tasks : list ValidationOrchestrator.ValidationTask :=
  [waiting_task "A" {["B"]}; waiting_task "B" {["A"]}].

Lemma two_cycle_tasks_cyclic :
  ValidationOrchestrator.cyclic two_cycle_tasks {["A"; "B"]}.
Proof.
  split.
  - exists (waiting_task "A" {["B"]}). split; [by left | set_solver].
  - intros t [<- | [<- | []]] _; cbn.
    + exists "B". set_solver.
    + exists "A". set_solver.
Qed.

Lemma two_cycle_plan_cyclic :
  VOSOrchestrator.cyclic VOSOrchestrator.two_cycle_plan {["A"; "B"]}.
Proof.
  split.
  - exists (VOSOrchestrator.steady "A"). split; [by left | set_solver].
  - intros p [<- | [<- | []]] _.
    + exists "B". split; [by left | set_solver].
    + exists "A". split; [by left | set_solver].
Qed.

Lemma two_cycle_plan_well_formed :
  VOSOrchestrator.well_formed VOSOrchestrator.two_cycle_registry
    VOSOrchestrator.two_cycle_plan.
Proof.
  split; [|split].
  - cbn. repeat constructor; cbn; intuition discriminate.
  - intros p k [<- | [<- | []]]; by eexists.
  - intros p [<- | [<- | []]]; eexists; (split; [reflexivity|]);
      intros k; by eexists.
Qed.

(** C5.  When the task graph of the validation orchestrator has a knot of
    dependencies (as the tasks on a dependency cycle form one),
    [_execute_tasks] ends by raising the dependency error, within as many
    iterations of its loop as there are tasks.  When the plan of the VOS
    orchestrator has such a knot, [_execute_adaptive] ends by raising,
    within as many iterations of its loop as the plan has primitives, and
    for a plan whose primitives have distinct names, are registered and
    return from [execute], what it raises is the circular-dependency
    validation error.  Neither loop runs on. *)
Theorem cyclic_dependencies_raise :
  (forall pipeline late_running tasks cyc fuel,
      ValidationOrchestrator.cyclic tasks cyc ->
      (length tasks < fuel)%nat ->
      ValidationOrchestrator._execute_tasks fuel pipeline late_running tasks
      = ValidationOrchestrator.Raises ValidationOrchestrator.circular)
  /\ (forall registry plan cyc fuel,
        VOSOrchestrator.cyclic plan cyc ->
        (length (VOSOrchestrator.primitives plan) < fuel)%nat ->
        exists e,
          VOSOrchestrator._execute_adaptive fuel registry plan
          = VOSOrchestrator.Raised e
          /\ (VOSOrchestrator.well_formed registry plan ->
              e = VOSOrchestrator.circular)).
Proof.
  split.
  - intros pipeline late_running tasks cyc fuel Hcyc Hfuel.
    unfold ValidationOrchestrator._execute_tasks.
    apply (ValidationOrchestrator.loop_raises_on_knot pipeline late_running
             cyc fuel); [done | set_solver | set_solver |].
    rewrite size_empty. lia.
  - intros registry plan cyc fuel Hcyc Hfuel.
    unfold VOSOrchestrator._execute_adaptive.
    apply (VOSOrchestrator.adaptive_raises_on_knot registry plan cyc fuel);
      cbn; [done | set_solver | |].
    + intros p Hp _.
      by apply elem_of_list_to_set, list_elem_of_In, List.in_map.
    + pose proof (ValidationOrchestrator.size_list_to_set_le
                    (List.map VOSOrchestrator.name
                       (VOSOrchestrator.primitives plan))) as Hle.
      rewrite List.length_map in Hle. lia.
Qed.

(** The cycle "A depends on B, B depends on A" in both schedulers. *)
Lemma two_cycle_raises :
  ValidationOrchestrator._execute_tasks 3
    ValidationOrchestrator._create_default_pipeline (fun _ => false)
    two_cycle_tasks
  = ValidationOrchestrator.Raises ValidationOrchestrator.circular
  /\ exists e,
       VOSOrchestrator._execute_adaptive 3 VOSOrchestrator.two_cycle_registry
         VOSOrchestrator.two_cycle_plan
       = VOSOrchestrator.Raised e
       /\ e = VOSOrchestrator.circular.
Proof.
  destruct cyclic_dependencies_raise as [Htasks Hplan]. split.
  - apply (Htasks _ _ _ _ _ two_cycle_tasks_cyclic). cbn. lia.
  - destruct (Hplan VOSOrchestrator.two_cycle_registry
                VOSOrchestrator.two_cycle_plan _ 3%nat two_cycle_plan_cyclic)
      as (e & Hrun & Hwf); [cbn; lia|].
    exists e. split; [done|]. apply Hwf, two_cycle_plan_well_formed.
Defined.

End DependencyCycles.

(* ===================================================================== *)
(** ** Configuration validation ([src/gatf/core/config.py]) *)
(* ===================================================================== *)

Module Config.

Local Open Scope Q_scope.

(** [@dataclass PlatformConfig] *)
Record PlatformConfig := {
  enabled : bool;
  base_url : option string;
  api_key : option string;
  timeout : Z;
  retry_attempts : Z;
  retry_delay : Z;
  custom_headers : list (string * string)
}.

(** [@dataclass TrustScoringConfig] *)
Record TrustScoringConfig := {
  scoring_algorithm : string;
  confidence_level : Q;
  weights : list (string * Q);
  badge_thresholds : list (string * Q);
  score_validity_days : Z;
  continuous_monitoring : bool;
  drift_detection_threshold : Q
}.

(** The two errors of [PlatformConfig.validate]. *)
Inductive PlatformError := ApiKeyRequired | BaseUrlRequired.

(** The [ConfigurationError]s of [_validate_config], by their message:
    "Invalid <platform> configuration: <cause>", "Trust scoring weights
    must sum to 1.0, got <total>" and "Badge threshold <name> must be
    between 0 and 1". *)
Inductive ConfigurationError :=
| InvalidPlatform (platform_name : string) (cause : PlatformError)
| WeightsMustSumToOne (total_weight : Q)
| BadgeThresholdOutOfRange (threshold_name : string).

Inductive Result (E : Type) :=
| Ok
| Raise (e : E).
Arguments Ok {E}.
Arguments Raise {E} e.

(** [not s] for an optional string: [None] and the empty string. *)
Definition falsy (s : option string) : bool :=
  match s with
  | None => true
  | Some s' => bool_decide (s' = "")
  end.

(** [PlatformConfig.validate] *)
Definition validate (p : PlatformConfig) : Result PlatformError :=
  if enabled p && falsy (api_key p) then Raise ApiKeyRequired
  else if enabled p && falsy (base_url p) then Raise BaseUrlRequired
  else Ok.

(** The loop over [self.platforms.items()]. *)
Fixpoint validate_platforms (platforms : list (string * PlatformConfig))
    : Result ConfigurationError :=
  match platforms with
  | [] => Ok
  | (platform_name, platform_config) :: rest =>
      match validate platform_config with
      | Raise e => Raise (InvalidPlatform platform_name e)
      | Ok => validate_platforms rest
      end
  end.

(** [sum(d.values())] *)
Definition sum_values (d : list (string * Q)) : Q :=
  fold_left (fun acc kv => acc + snd kv) d 0.

(** The loop over [badge_thresholds.items()]. *)
Fixpoint validate_thresholds (thresholds : list (string * Q))
    : Result ConfigurationError :=
  match thresholds with
  | [] => Ok
  | (threshold_name, threshold_value) :: rest =>
      if Qle_bool 0 threshold_value && Qle_bool threshold_value 1
      then validate_thresholds rest
      else Raise (BadgeThresholdOutOfRange threshold_name)
  end.

(** [GATFConfig._validate_config] *)
Definition _validate_config (platforms : list (string * PlatformConfig))
    (trust_scoring : TrustScoringConfig) : Result ConfigurationError :=
  match validate_platforms platforms with
  | Raise e => Raise e
  | Ok =>
      let total_weight := sum_values (weights trust_scoring) in
      if Qlt_le_dec (1 # 1000) (Qabs (total_weight - 1))
      then Raise (WeightsMustSumToOne total_weight)
      else validate_thresholds (badge_thresholds trust_scoring)
  end.


Definition default_platform (on : bool) : PlatformConfig :=
  {| enabled := on; base_url := None; api_key := None; timeout := 30;
     retry_attempts := 3; retry_delay := 1; custom_headers := [] |}.

Definition default_platforms : list (string * PlatformConfig) :=
  [("inferloop", default_platform true); ("gretel", default_platform false);
   ("mostly_ai", default_platform false); ("sdv", default_platform false);
   ("hazy", default_platform false)].





(** *** Properties of the validation *)










(** The platform table of [GATFConfig.__init__] enables [inferloop]
    without credentials: validated as it stands, before a file or an
    environment variable supplies them, it raises. *)
Remark default_platforms_need_credentials (ts : TrustScoringConfig) :
  _validate_config default_platforms ts
  = Raise (InvalidPlatform "inferloop" ApiKeyRequired).
Proof. reflexivity. Qed.

End Config.

(* ===================================================================== *)
(** ** Domain router: domain detection ([src/gatf/core/domain_router.py]) *)
(* ===================================================================== *)

Module DomainRouter.

Local Open Scope Q_scope.

(** [class Domain(Enum)] *)
Inductive Domain :=
| FINANCE | HEALTHCARE | LEGAL | MANUFACTURING | RETAIL
| CYBERSECURITY | HR | RESEARCH | DEVOPS | CUSTOM.

(** A key of [self._signatures]: a member of [Domain], or the name under
    which [register_custom_domain] stored a signature. *)
Inductive DomainKey :=
| EnumDomain (d : Domain)
| NamedDomain (name : string).

(** [@dataclass DomainSignature] *)
Record DomainSignature := {
  keywords : gset string;
  data_patterns : list string;
  required_fields : gset string;
  model_types : gset string;
  confidence_threshold : Q
}.

(** The [matched_features] dictionary. *)
Record MatchedFeatures := {
  matched_keywords : list string;
  matched_patterns : list string;
  matched_fields : list string;
  matched_model_types : list string
}.

(** [@dataclass DomainMatch] *)
Record DomainMatch := {
  domain : DomainKey;
  confidence : Q;
  matched_features : MatchedFeatures
}.

(** [DomainMatch.is_confident] *)
Definition is_confident (m : DomainMatch) : bool :=
  Qle_bool (7 # 10) (confidence m).

(** What [detect_domain] reads of the agent configuration:
    [str(agent_config).lower()] and
    [agent_config.get("model_type", "").lower()]. *)
Record AgentConfig := {
  config_text : string;
  model_type : string
}.

(** The optional sample data: absent, a record with its keys, or another
    value with its truth value; each with its [str(...)]. *)
Inductive SampleData :=
| NoSample
| SampleRecord (keys : list string) (text : string)
| SampleValue (truthy : bool) (text : string).

(** [if sample_data:] *)
Definition sample_truthy (s : SampleData) : bool :=
  match s with
  | NoSample => false
  | SampleRecord keys _ => match keys with [] => false | _ => true end
  | SampleValue b _ => b
  end.

(** [str(sample_data)] *)
Definition sample_text (s : SampleData) : string :=
  match s with
  | NoSample => "None"
  | SampleRecord _ t => t
  | SampleValue _ t => t
  end.

(** [kw in text] on strings. *)
Fixpoint contains (kw text : string) : bool :=
  String.prefix kw text
  || match text with
     | EmptyString => false
     | String _ rest => contains kw rest
     end.

(** [len(a) / len(b)] *)
Definition ratio (a b : nat) : Q :=
  inject_Z (Z.of_nat a) / inject_Z (Z.of_nat b).

Section Detection.

(** [re.search(pattern, text, re.IGNORECASE)] finds a match. *)
Variable re_search : string -> string -> bool.

(** The body of the loop of [detect_domain] for one signature: the
    confidence it accumulates and the features it records. *)
Definition score_signature (signature : DomainSignature)
    (agent_config : AgentConfig) (sample_data : SampleData)
    : Q * MatchedFeatures :=
  let confidence := 0 in
  (* keywords in the agent configuration *)
  let kws :=
    List.filter (fun kw => contains kw (config_text agent_config))
      (elements (keywords signature)) in
  let confidence :=
    match kws with
    | [] => confidence
    | _ => confidence + ratio (length kws) (size (keywords signature)) * (4 # 10)
    end in
  (* model type *)
  let in_types :=
    bool_decide (model_type agent_config ∈ model_types signature) in
  let confidence := if in_types then confidence + (3 # 10) else confidence in
  (* data patterns, when sample data is provided *)
  let pats :=
    if sample_truthy sample_data
    then List.filter (fun pattern => re_search pattern (sample_text sample_data))
           (data_patterns signature)
    else [] in
  let confidence :=
    match pats with
    | [] => confidence
    | _ => confidence
           + ratio (length pats) (length (data_patterns signature)) * (2 # 10)
    end in
  (* required fields, when the sample data is a record *)
  let fields :=
    match sample_data with
    | SampleRecord keys _ =>
        elements (required_fields signature ∩ list_to_set keys)
    | _ => []
    end in
  let confidence :=
    match fields with
    | [] => confidence
    | _ => confidence
           + ratio (length fields) (size (required_fields signature)) * (1 # 10)
    end in
  (confidence,
   {| matched_keywords := kws;
      matched_patterns := pats;
      matched_fields := fields;
      matched_model_types :=
        if in_types then [model_type agent_config] else [] |}).

(** The loop over [self._signatures.items()]: a match is appended when
    the confidence is positive. *)
Fixpoint collect_matches (signatures : list (DomainKey * DomainSignature))
    (agent_config : AgentConfig) (sample_data : SampleData)
    : list DomainMatch :=
  match signatures with
  | [] => []
  | (d, signature) :: rest =>
      let '(c, features) :=
        score_signature signature agent_config sample_data in
      if Qlt_le_dec 0 c
      then {| domain := d; confidence := c; matched_features := features |}
           :: collect_matches rest agent_config sample_data
      else collect_matches rest agent_config sample_data
  end.

(** [matches.sort(key=lambda x: x.confidence, reverse=True)]: a stable
    sort by decreasing confidence. *)
Fixpoint insert_desc (m : DomainMatch) (sorted : list DomainMatch)
    : list DomainMatch :=
  match sorted with
  | [] => [m]
  | x :: rest =>
      if Qle_bool (confidence x) (confidence m)
      then m :: x :: rest
      else x :: insert_desc m rest
  end.

Fixpoint sort_desc (l : list DomainMatch) : list DomainMatch :=
  match l with
  | [] => []
  | m :: rest => insert_desc m (sort_desc rest)
  end.

(** [DomainRouter.detect_domain]; [signatures] is [self._signatures]. *)
Definition detect_domain (signatures : list (DomainKey * DomainSignature))
    (agent_config : AgentConfig) (sample_data : SampleData)
    : list DomainMatch :=
  sort_desc (collect_matches signatures agent_config sample_data).

(** The four signals of the specification, counted for one signature. *)
Definition keyword_hits (signature : DomainSignature)
    (agent_config : AgentConfig) : nat :=
  length (List.filter (fun kw => contains kw (config_text agent_config))
            (elements (keywords signature))).

Definition pattern_hits (signature : DomainSignature)
    (sample_data : SampleData) : nat :=
  if sample_truthy sample_data
  then length (List.filter
                 (fun pattern => re_search pattern (sample_text sample_data))
                 (data_patterns signature))
  else O.

Definition field_hits (signature : DomainSignature)
    (sample_data : SampleData) : nat :=
  match sample_data with
  | SampleRecord keys _ => size (required_fields signature ∩ list_to_set keys)
  | _ => O
  end.

(** The confidence as the specification words it. *)
Definition weighted_confidence (signature : DomainSignature)
    (agent_config : AgentConfig) (sample_data : SampleData) : Q :=
  ratio (keyword_hits signature agent_config) (size (keywords signature))
    * (4 # 10)
  + (if bool_decide (model_type agent_config ∈ model_types signature)
     then 3 # 10 else 0)
  + ratio (pattern_hits signature sample_data)
      (length (data_patterns signature)) * (2 # 10)
  + ratio (field_hits signature sample_data)
      (size (required_fields signature)) * (1 # 10).

End Detection.

(** *** Properties of the detection *)

Lemma ratio_zero b : ratio 0 b == 0.
Proof. unfold ratio, Qdiv. apply Qmult_0_l. Qed.

Lemma ratio_bounds a b : (a <= b)%nat -> 0 <= ratio a b /\ ratio a b <= 1.
Proof.
  intros Hab.
  destruct b as [|b]; [|unfold ratio].
  - assert (a = O) as -> by lia. rewrite ratio_zero. split; lra.
  - assert (Hb : 0 < inject_Z (Z.of_nat (S b))).
    { replace 0 with (inject_Z 0) by reflexivity. rewrite <- Zlt_Qlt. lia. }
    assert (Ha0 : 0 <= inject_Z (Z.of_nat a)).
    { replace 0 with (inject_Z 0) by reflexivity. rewrite <- Zle_Qle. lia. }
    assert (Hle : inject_Z (Z.of_nat a) <= inject_Z (Z.of_nat (S b))).
    { rewrite <- Zle_Qle. lia. }
    split.
    + apply Qle_shift_div_l; [done|]. lra.
    + apply Qle_shift_div_r; [done|]. lra.
Qed.

Lemma ratio_mono a a' b : (a <= a')%nat -> ratio a b <= ratio a' b.
Proof.
  intros Haa. unfold ratio, Qdiv.
  assert (Hle : inject_Z (Z.of_nat a) <= inject_Z (Z.of_nat a')).
  { rewrite <- Zle_Qle. lia. }
  destruct b as [|b].
  - cbn [Z.of_nat]. change (/ inject_Z 0) with 0. rewrite !Qmult_0_r.
    apply Qle_refl.
  - apply Qmult_le_compat_r; [done|].
    apply Qinv_le_0_compat.
    replace 0 with (inject_Z 0) by reflexivity. rewrite <- Zle_Qle. lia.
Qed.

Lemma add_if_any {A} (l : list A) (c : Q) (b : nat) (w : Q) :
  match l with
  | [] => c
  | _ :: _ => c + ratio (length l) b * w
  end == c + ratio (length l) b * w.
Proof.
  destruct l; [|reflexivity]. cbn [length]. rewrite ratio_zero. lra.
Qed.

Lemma filter_length_le {A} (f : A -> bool) (l : list A) :
  (length (List.filter f l) <= length l)%nat.
Proof. induction l as [|x l IH]; cbn; [lia|]. destruct (f x); cbn; lia. Qed.

Lemma filter_length_mono {A} (f g : A -> bool) (l : list A) :
  (forall x, In x l -> f x = true -> g x = true) ->
  (length (List.filter f l) <= length (List.filter g l))%nat.
Proof.
  induction l as [|x l IH]; intros H; cbn; [lia|].
  assert (IH' := IH (fun y Hy => H y (or_intror Hy))).
  destruct (f x) eqn:Hf.
  - rewrite (H x (or_introl eq_refl) Hf). cbn. lia.
  - destruct (g x); cbn; lia.
Qed.

Section DetectionFacts.
Variable re_search : string -> string -> bool.

Lemma score_signature_weighted signature agent_config sample_data :
  fst (score_signature re_search signature agent_config sample_data)
  == weighted_confidence re_search signature agent_config sample_data.
Proof.
  unfold score_signature, weighted_confidence, keyword_hits, pattern_hits,
    field_hits. cbn [fst].
  assert (Hp : length (if sample_truthy sample_data
                       then List.filter
                              (fun pattern =>
                                 re_search pattern (sample_text sample_data))
                              (data_patterns signature)
                       else [])
               = if sample_truthy sample_data
                 then length (List.filter
                                (fun pattern =>
                                   re_search pattern (sample_text sample_data))
                                (data_patterns signature))
                 else O) by (by destruct (sample_truthy sample_data)).
  assert (Hf : length match sample_data with
                      | SampleRecord keys _ =>
                          elements (required_fields signature ∩ list_to_set keys)
                      | _ => []
                      end
               = match sample_data with
                 | SampleRecord keys _ =>
                     size (required_fields signature ∩ list_to_set keys)
                 | _ => O
                 end) by (by destruct sample_data).
  destruct (bool_decide (model_type agent_config ∈ model_types signature));
    rewrite !add_if_any, Hp, Hf; lra.
Qed.

Lemma weighted_confidence_bounds signature agent_config sample_data :
  0 <= weighted_confidence re_search signature agent_config sample_data
  /\ weighted_confidence re_search signature agent_config sample_data <= 1.
Proof.
  unfold weighted_confidence.
  destruct (ratio_bounds (keyword_hits signature agent_config)
              (size (keywords signature))) as [Hk0 Hk1].
  { unfold keyword_hits. apply filter_length_le. }
  destruct (ratio_bounds (pattern_hits re_search signature sample_data)
              (length (data_patterns signature))) as [Hp0 Hp1].
  { unfold pattern_hits. destruct (sample_truthy sample_data); [|lia].
    apply filter_length_le. }
  destruct (ratio_bounds (field_hits signature sample_data)
              (size (required_fields signature))) as [Hf0 Hf1].
  { unfold field_hits. destruct sample_data; try lia.
    apply subseteq_size. set_solver. }
  destruct (bool_decide _); split; lra.
Qed.

Lemma weighted_confidence_mono signature agent_config agent_config'
    sample_data :
  model_type agent_config' = model_type agent_config ->
  (forall kw, kw ∈ keywords signature ->
     contains kw (config_text agent_config) = true ->
     contains kw (config_text agent_config') = true) ->
  weighted_confidence re_search signature agent_config sample_data
  <= weighted_confidence re_search signature agent_config' sample_data.
Proof.
  intros Hmt Hkw. unfold weighted_confidence. rewrite Hmt.
  assert (Hhits : (keyword_hits signature agent_config
                   <= keyword_hits signature agent_config')%nat).
  { unfold keyword_hits. apply filter_length_mono.
    intros kw Hin. apply Hkw. by apply elem_of_elements, list_elem_of_In. }
  pose proof (ratio_mono _ _ (size (keywords signature)) Hhits).
  destruct (bool_decide _); lra.
Qed.

Lemma collect_matches_In signatures agent_config sample_data m :
  In m (collect_matches re_search signatures agent_config sample_data) ->
  exists signature,
    In (domain m, signature) signatures
    /\ confidence m
       = fst (score_signature re_search signature agent_config sample_data)
    /\ 0 < confidence m.
Proof.
  induction signatures as [|[d sig] rest IH]; cbn [collect_matches]; [done|].
  destruct (score_signature re_search sig agent_config sample_data)
    as [c features] eqn:Hs.
  destruct (Qlt_le_dec 0 c) as [Hpos|_].
  - intros [<- | Hin].
    + exists sig. rewrite Hs. cbn [domain confidence fst]. by repeat split; [left|..].
    + destruct (IH Hin) as (sig' & ? & ? & ?). exists sig'.
      by repeat split; [right|..].
  - intros Hin. destruct (IH Hin) as (sig' & ? & ? & ?). exists sig'.
    by repeat split; [right|..].
Qed.

Lemma insert_desc_In m x l : In x (insert_desc m l) <-> x = m \/ In x l.
Proof.
  induction l as [|y l IH]; cbn; [intuition|].
  destruct (Qle_bool _ _); cbn; [intuition|]. rewrite IH. intuition.
Qed.

Lemma sort_desc_In x l : In x (sort_desc l) <-> In x l.
Proof.
  induction l as [|y l IH]; cbn; [done|].
  rewrite insert_desc_In, IH. intuition.
Qed.

(** [a] may stand before [b] in a list sorted by decreasing confidence. *)
Definition descending (a b : DomainMatch) : Prop :=
  confidence b <= confidence a.

Lemma insert_desc_sorted m l :
  Sorted descending l -> Sorted descending (insert_desc m l).
Proof.
  induction 1 as [|y l Hl IH Hhd]; cbn; [by repeat constructor|].
  destruct (Qle_bool (confidence y) (confidence m)) eqn:Hle.
  - apply Qle_bool_iff in Hle. by repeat constructor.
  - assert (Hlt : confidence m < confidence y).
    { apply Qnot_le_lt. intros H. apply Qle_bool_iff in H. congruence. }
    constructor; [done|].
    destruct l as [|z l]; cbn.
    + constructor. unfold descending. lra.
    + destruct (Qle_bool (confidence z) (confidence m)).
      * constructor. unfold descending. lra.
      * constructor. by inversion Hhd.
Qed.

Lemma sort_desc_sorted l : Sorted descending (sort_desc l).
Proof.
  induction l as [|m l IH]; cbn; [constructor|]. by apply insert_desc_sorted.
Qed.

End DetectionFacts.

(** C4.  For every signature table, agent configuration and sample data,
    each match that [detect_domain] returns has a confidence between 0 and
    1, equal to (matched keywords / keywords) x 0.4 plus 0.3 for a model
    type of the signature plus (matched patterns / patterns) x 0.2 plus
    (matched fields / required fields) x 0.1, and is flagged confident
    exactly when that confidence is at least 0.7; the matches come sorted
    by decreasing confidence; and a configuration that matches every
    keyword the given one matches (and possibly more), with the same model
    type and sample data, gets a confidence for a signature that is not
    lower. *)
Theorem detect_domain_confidence (re_search : string -> string -> bool)
    (signatures : list (DomainKey * DomainSignature))
    (agent_config : AgentConfig) (sample_data : SampleData) :
  (forall m,
      In m (detect_domain re_search signatures agent_config sample_data) ->
      (0 <= confidence m /\ confidence m <= 1)
      /\ (exists signature,
            In (domain m, signature) signatures
            /\ confidence m
               == weighted_confidence re_search signature agent_config
                    sample_data)
      /\ (is_confident m = true <-> 7 # 10 <= confidence m))
  /\ Sorted descending
       (detect_domain re_search signatures agent_config sample_data)
  /\ (forall signature agent_config',
        model_type agent_config' = model_type agent_config ->
        (forall kw, kw ∈ keywords signature ->
           contains kw (config_text agent_config) = true ->
           contains kw (config_text agent_config') = true) ->
        fst (score_signature re_search signature agent_config sample_data)
        <= fst (score_signature re_search signature agent_config'
                  sample_data)).
Proof.
  split; [|split].
  - intros m Hin. unfold detect_domain in Hin.
    apply (proj1 (sort_desc_In _ _)) in Hin.
    apply collect_matches_In in Hin as (sig & Hsig & Hc & Hpos).
    pose proof (score_signature_weighted re_search sig agent_config
                  sample_data) as Hw.
    rewrite <- Hc in Hw.
    pose proof (weighted_confidence_bounds re_search sig agent_config
                  sample_data) as [H0 H1].
    split; [split; lra|]. split; [by exists sig|].
    unfold is_confident. apply Qle_bool_iff.
  - apply sort_desc_sorted.
  - intros sig cfg' Hmt Hkw.
    rewrite !score_signature_weighted.
    by apply weighted_confidence_mono.
Qed.

(** The finance signature of [_initialize_signatures], and a fraud
    detection agent seen with a payment record.  The matcher of the
    example finds a pattern when the text contains it literally. *)
Definition finance_signature : DomainSignature :=
  {| keywords :=
       list_to_set
         ["trading"; "portfolio"; "risk"; "fraud"; "transaction";
          "investment"; "banking"; "credit"; "loan"; "payment";
          "stock"; "bond"; "derivative"; "compliance"; "aml";
          "kyc"; "financial"; "accounting"; "audit"; "tax"];
     data_patterns := ["card"; "USD"; "IBAN"; "SWIFT"];
     required_fields :=
       list_to_set ["amount"; "currency"; "transaction_id"; "account"];
     model_types :=
       list_to_set
         ["fraud_detection"; "risk_assessment"; "trading_strategy";
          "credit_scoring"; "portfolio_optimization"];
     confidence_threshold := 7 # 10 |}.

Definition fraud_agent : AgentConfig :=
  {| config_text :=
       "{'model_type': 'fraud_detection', 'task': 'payment fraud risk'}";
     model_type := "fraud_detection" |}.

Definition payment_record : SampleData :=
  SampleRecord ["amount"; "currency"; "memo"]
    "{'amount': 12, 'currency': 'USD 12.00', 'memo': 'IBAN DE00'}".

Example detect_domain_finance :
  List.map (fun m => (domain m, confidence m, is_confident m))
    (detect_domain contains [(EnumDomain FINANCE, finance_signature)]
       fraud_agent payment_record)
  = [(EnumDomain FINANCE,
      0 + ratio 3 20 * (4 # 10) + (3 # 10) + ratio 2 4 * (2 # 10)
      + ratio 2 4 * (1 # 10), false)].
Proof. vm_compute. reflexivity. Qed.

Lemma detect_domain_confidence_finance :
  Sorted descending
    (detect_domain contains [(EnumDomain FINANCE, finance_signature)]
       fraud_agent payment_record)
  /\ forall m,
       In m (detect_domain contains [(EnumDomain FINANCE, finance_signature)]
               fraud_agent payment_record) ->
       0 <= confidence m /\ confidence m <= 1.
Proof.
  destruct (detect_domain_confidence contains
              [(EnumDomain FINANCE, finance_signature)] fraud_agent
              payment_record) as (Hall & Hsorted & _).
  split; [done|]. intros m Hm. by destruct (Hall m Hm) as [? _].
Defined.

End DomainRouter.

(* ===================================================================== *)
(** ** Rate limiting ([src/gatf/utils/rate_limiting.py]) *)
(* ===================================================================== *)

Module RateLimiting.

Local Open Scope Q_scope.

(** [class RateLimitAlgorithm(Enum)] *)
Inductive RateLimitAlgorithm :=
| TOKEN_BUCKET | SLIDING_WINDOW | FIXED_WINDOW | LEAKY_BUCKET.

(** [@dataclass RateLimitConfig] *)
Record RateLimitConfig := {
  max_requests : Z;
  time_window : Z;
  algorithm : RateLimitAlgorithm;
  config_burst_size : option Z;
  strict : bool
}.

(** [class TokenBucket]: its fields after [__init__] and between calls. *)
Record TokenBucket := {
  capacity : Z;
  refill_rate : Q;
  burst_size : Z;
  tokens : Q;
  last_refill : Q
}.

(** [TokenBucket.__init__], at the time [now]. *)
Definition TokenBucket_init (capacity : Z) (refill_rate : Q)
    (burst_size : option Z) (now : Q) : TokenBucket :=
  {| capacity := capacity;
     refill_rate := refill_rate;
     burst_size :=
       match burst_size with
       | Some b => if (b =? 0)%Z then capacity else b
       | None => capacity
       end;
     tokens := inject_Z capacity;
     last_refill := now |}.

(** [TokenBucket._refill], at the time [now]. *)
Definition _refill (now : Q) (b : TokenBucket) : TokenBucket :=
  let elapsed := now - last_refill b in
  let tokens_to_add := elapsed * refill_rate b in
  {| capacity := capacity b;
     refill_rate := refill_rate b;
     burst_size := burst_size b;
     tokens := Qmin (inject_Z (capacity b)) (tokens b + tokens_to_add);
     last_refill := now |}.

(** [TokenBucket.consume]: the pair [(success, retry_after)] and the
    bucket afterwards. *)
Definition consume (n : Z) (now : Q) (b : TokenBucket)
    : (bool * option Q) * TokenBucket :=
  let b := _refill now b in
  if Qle_bool (inject_Z n) (tokens b) then
    ((true, None),
     {| capacity := capacity b; refill_rate := refill_rate b;
        burst_size := burst_size b; tokens := tokens b - inject_Z n;
        last_refill := last_refill b |})
  else
    let tokens_needed := inject_Z n - tokens b in
    let retry_after := tokens_needed / refill_rate b in
    ((false, Some retry_after), b).

(** What [RateLimiter._create_limiter] returns: a token bucket, or a
    limiter of one of the three other classes, which are not modelled
    further. *)
Inductive Limiter :=
| OfTokenBucket (b : TokenBucket)
| OfOther (a : RateLimitAlgorithm).

(** [RateLimiter._create_limiter], at the time [now]; [None] stands for
    the [ZeroDivisionError] of [max_requests / time_window]. *)
Definition _create_limiter (config : RateLimitConfig) (now : Q)
    : option Limiter :=
  match algorithm config with
  | TOKEN_BUCKET =>
      if (time_window config =? 0)%Z then None
      else
        let refill_rate :=
          inject_Z (max_requests config) / inject_Z (time_window config) in
        Some (OfTokenBucket
                (TokenBucket_init (max_requests config) refill_rate
                   (config_burst_size config) now))
  | LEAKY_BUCKET =>
      if (time_window config =? 0)%Z then None
      else Some (OfOther LEAKY_BUCKET)
  | a => Some (OfOther a)
  end.

(** [RateLimitExceeded], with its [retry_after]. *)
Inductive CheckResult :=
| Allowed (allowed : bool)
| RateLimitExceeded (retry_after : option Q).

(** [RateLimiter.check_and_consume] on a token bucket. *)
Definition check_and_consume (config : RateLimitConfig) (n : Z) (now : Q)
    (b : TokenBucket) : CheckResult * TokenBucket :=
  let '((allowed, retry_after), b') := consume n now b in
  if negb allowed && strict config
  then (RateLimitExceeded retry_after, b')
  else (Allowed allowed, b').

(** Unit consumes at the given times, one after the other. *)
Fixpoint consume_at (times : list Q) (b : TokenBucket)
    : list (bool * option Q) * TokenBucket :=
  match times with
  | [] => ([], b)
  | t :: rest =>
      let '(r, b') := consume 1 t b in
      let '(rs, b'') := consume_at rest b' in
      (r :: rs, b'')
  end.

(** The tokens available to a consume at [now]: what the refill leaves. *)
Definition available (now : Q) (b : TokenBucket) : Q :=
  Qmin (inject_Z (capacity b))
       (tokens b + (now - last_refill b) * refill_rate b).

(** *** Properties of the token bucket *)

Lemma refill_tokens now b : tokens (_refill now b) = available now b.
Proof. reflexivity. Qed.

(** A consume of [n] tokens at [now] succeeds exactly when [n] tokens are
    available after the refill. *)
Lemma consume_spec (n : Z) (now : Q) (b : TokenBucket) :
  (inject_Z n <= available now b ->
   consume n now b
   = ((true, None),
      {| capacity := capacity b; refill_rate := refill_rate b;
         burst_size := burst_size b;
         tokens := available now b - inject_Z n;
         last_refill := now |}))
  /\ (available now b < inject_Z n ->
      consume n now b
      = ((false, Some ((inject_Z n - available now b) / refill_rate b)),
         {| capacity := capacity b; refill_rate := refill_rate b;
            burst_size := burst_size b;
            tokens := available now b;
            last_refill := now |})).
Proof.
  unfold consume. rewrite refill_tokens. split; intros H.
  - apply Qle_bool_iff in H as Hb. by rewrite Hb.
  - destruct (Qle_bool (inject_Z n) (available now b)) eqn:Hb; [|done].
    apply Qle_bool_iff in Hb. exfalso. eapply Qlt_not_le; eauto.
Qed.







(** Six immediate unit consumes on the limiter for 5 requests per second,
    and a seventh one a fifth of a second later. *)
Definition five_per_second_config : RateLimitConfig :=
  {| max_requests := 5; time_window := 1; algorithm := TOKEN_BUCKET;
     config_burst_size := None; strict := true |}.


Example sixth_consume_in_strict_mode :
  match _create_limiter five_per_second_config 0 with
  | Some (OfTokenBucket b0) =>
      let '(_, b5) := consume_at [0; 0; 0; 0; 0] b0 in
      fst (check_and_consume five_per_second_config 1 0 b5)
  | _ => Allowed true
  end = RateLimitExceeded (Some ((1 - (0 + 0 * (5 / 1))) / (5 / 1))).
Proof. vm_compute. reflexivity. Qed.

End RateLimiting.

(* ===================================================================== *)
(** ** Quality validation engine: accuracy of numbers
       ([src/gatf/validation/engines/quality_validator.py]) *)
(* ===================================================================== *)

Module QualityValidator.

Local Open Scope Q_scope.

(** [QualityValidator._calculate_accuracy] on two numbers ([int] or
    [float]).  For them the exact-match test comes first, the test for two
    strings fails, and the numeric branch returns; the branches for
    strings, sequences and dictionaries are not reached. *)
Definition _calculate_accuracy (output expected : Q) : Q :=
  if Qeq_bool output expected then 1
  else if Qeq_bool expected 0 then
    (if Qeq_bool output 0 then 1 else 0)
  else 1 - Qmin 1 (Qabs (output - expected) / Qabs expected).


(** *** Properties of the accuracy *)





Example accuracy_of_numbers :
  _calculate_accuracy 90 100 == 9 # 10
  /\ _calculate_accuracy 250 100 == 0
  /\ _calculate_accuracy 0 0 == 1
  /\ _calculate_accuracy 3 0 == 0
  /\ _calculate_accuracy (-7) (-7) == 1.
Proof. repeat split; by vm_compute. Qed.


End QualityValidator.

(* ===================================================================== *)
(** ** In-process memory cache ([src/gatf/utils/caching.py]) *)
(* ===================================================================== *)

Module Caching.

(** [@dataclass CacheEntry] *)
Record CacheEntry (V : Type) := {
  key : string;
  value : V;
  created_at : Q;
  ttl : option Z;
  access_count : Z;
  last_accessed : option Q
}.
Arguments key {V} _.
Arguments value {V} _.
Arguments created_at {V} _.
Arguments ttl {V} _.
Arguments access_count {V} _.
Arguments last_accessed {V} _.

(** The counters of [self._stats]. *)
Record Stats := {
  hits : Z;
  misses : Z;
  evictions : Z;
  sets : Z
}.

(** [class MemoryCache]: [self._cache] is an [OrderedDict], kept as the
    list of its items in their order. *)
Record MemoryCache (V : Type) := {
  max_size : Z;
  eviction_policy : string;
  _cache : list (string * CacheEntry V);
  _stats : Stats
}.
Arguments max_size {V} _.
Arguments eviction_policy {V} _.
Arguments _cache {V} _.
Arguments _stats {V} _.

Section MemoryCacheOps.
Context {V : Type}.

(** [CacheEntry.is_expired], at the time [now]. *)
Definition is_expired (now : Q) (e : CacheEntry V) : bool :=
  match ttl e with
  | None => false
  | Some t =>
      if Qlt_le_dec (inject_Z t) (now - created_at e) then true else false
  end.

(** [CacheEntry.touch], at the time [now]. *)
Definition touch (now : Q) (e : CacheEntry V) : CacheEntry V :=
  {| key := key e; value := value e; created_at := created_at e;
     ttl := ttl e; access_count := access_count e + 1;
     last_accessed := Some now |}.

(** The operations of [OrderedDict] that the cache uses. *)
Definition keys (d : list (string * CacheEntry V)) : list string :=
  List.map fst d.

Fixpoint od_get (k : string) (d : list (string * CacheEntry V))
    : option (CacheEntry V) :=
  match d with
  | [] => None
  | (k', e) :: rest => if String.eqb k' k then Some e else od_get k rest
  end.

(** [d.pop(k)] *)
Fixpoint od_pop (k : string) (d : list (string * CacheEntry V))
    : list (string * CacheEntry V) :=
  match d with
  | [] => []
  | (k', e) :: rest =>
      if String.eqb k' k then rest else (k', e) :: od_pop k rest
  end.

(** [d[k] = e]: in place for a key of the dictionary, at the end for a
    new key. *)
Fixpoint od_set (k : string) (e : CacheEntry V)
    (d : list (string * CacheEntry V)) : list (string * CacheEntry V) :=
  match d with
  | [] => [(k, e)]
  | (k', e') :: rest =>
      if String.eqb k' k then (k, e) :: rest
      else (k', e') :: od_set k e rest
  end.

(** [d.move_to_end(k)] *)
Definition od_move_to_end (k : string) (d : list (string * CacheEntry V))
    : list (string * CacheEntry V) :=
  match od_get k d with
  | Some e => od_pop k d ++ [(k, e)]
  | None => d
  end.

(** [min(entries, key=lambda e: e.access_count)] over a first entry and
    the following ones: the first entry of least access count. *)
Definition min_entry (first : CacheEntry V) (others : list (CacheEntry V))
    : CacheEntry V :=
  fold_left (fun best e =>
               if (access_count e <? access_count best)%Z then e else best)
    others first.

Definition with_cache (d : list (string * CacheEntry V)) (st : Stats)
    (c : MemoryCache V) : MemoryCache V :=
  {| max_size := max_size c; eviction_policy := eviction_policy c;
     _cache := d; _stats := st |}.

(** [MemoryCache.__init__] *)
Definition MemoryCache_init (max_size : Z) (eviction_policy : string)
    : MemoryCache V :=
  {| max_size := max_size; eviction_policy := eviction_policy;
     _cache := [];
     _stats := {| hits := 0; misses := 0; evictions := 0; sets := 0 |} |}.

(** [MemoryCache._evict] *)
Definition _evict (c : MemoryCache V) : MemoryCache V :=
  match _cache c with
  | [] => c
  | (k0, e0) :: rest =>
      let d :=
        if String.eqb (eviction_policy c) "lru" then rest
        else if String.eqb (eviction_policy c) "lfu" then
          od_pop (key (min_entry e0 (List.map snd rest))) (_cache c)
        else if String.eqb (eviction_policy c) "fifo" then rest
        else _cache c in
      with_cache d
        {| hits := hits (_stats c); misses := misses (_stats c);
           evictions := evictions (_stats c) + 1;
           sets := sets (_stats c) |} c
  end.

(** [MemoryCache.get], at the time [now]. *)
Definition get (k : string) (now : Q) (c : MemoryCache V)
    : option V * MemoryCache V :=
  let miss := {| hits := hits (_stats c); misses := misses (_stats c) + 1;
                 evictions := evictions (_stats c);
                 sets := sets (_stats c) |} in
  match od_get k (_cache c) with
  | None => (None, with_cache (_cache c) miss c)
  | Some entry =>
      if is_expired now entry
      then (None, with_cache (od_pop k (_cache c)) miss c)
      else
        let touched := od_set k (touch now entry) (_cache c) in
        let d := if String.eqb (eviction_policy c) "lru"
                 then od_move_to_end k touched else touched in
        (Some (value entry),
         with_cache d
           {| hits := hits (_stats c) + 1; misses := misses (_stats c);
              evictions := evictions (_stats c);
              sets := sets (_stats c) |} c)
  end.

(** [key in self._cache] *)
Definition mem (k : string) (c : MemoryCache V) : bool :=
  match od_get k (_cache c) with Some _ => true | None => false end.

(** [MemoryCache.set], at the time [now]. *)
Definition set (k : string) (v : V) (t : option Z) (now : Q)
    (c : MemoryCache V) : MemoryCache V :=
  let c1 :=
    if (max_size c <=? Z.of_nat (length (_cache c)))%Z && negb (mem k c)
    then _evict c else c in
  let entry := {| key := k; value := v; created_at := now; ttl := t;
                  access_count := 0; last_accessed := None |} in
  with_cache (od_set k entry (_cache c1))
    {| hits := hits (_stats c1); misses := misses (_stats c1);
       evictions := evictions (_stats c1);
       sets := sets (_stats c1) + 1 |} c1.

(** [MemoryCache.delete] *)
Definition delete (k : string) (c : MemoryCache V) : bool * MemoryCache V :=
  if mem k c
  then (true, with_cache (od_pop k (_cache c)) (_stats c) c)
  else (false, c).

(** A call of [get], [set] or [delete], with the clock reading of the
    call. *)
Inductive Op :=
| Get (k : string) (now : Q)
| Set_ (k : string) (v : V) (t : option Z) (now : Q)
| Delete (k : string).

Definition step (c : MemoryCache V) (op : Op) : MemoryCache V :=
  match op with
  | Get k now => snd (get k now c)
  | Set_ k v t now => set k v t now c
  | Delete k => snd (delete k c)
  end.

(** The cache after a sequence of calls. *)
Definition run (ops : list Op) (c : MemoryCache V) : MemoryCache V :=
  fold_left step ops c.



End MemoryCacheOps.

(** *** Properties of the ordered dictionary *)

Section OrderedDictFacts.
Context {V : Type}.
Implicit Types (d : list (string * CacheEntry V)) (k : string).

Lemma od_get_Some k d e : od_get k d = Some e -> In (k, e) d.
Proof.
  induction d as [|[k' e'] d IH]; cbn; [done|].
  destruct (String.eqb_spec k' k) as [->|Hne].
  - intros [= ->]. by left.
  - intros H. right. by apply IH.
Qed.

Lemma od_get_None k d : od_get k d = None <-> ~ In k (keys d).
Proof.
  unfold keys. induction d as [|[k' e'] d IH]; cbn; [tauto|].
  destruct (String.eqb_spec k' k) as [->|Hne].
  - split; [done|]. intros H. exfalso. apply H. by left.
  - rewrite IH. tauto.
Qed.

Lemma od_get_In k d : In k (keys d) -> exists e, od_get k d = Some e.
Proof.
  intros Hin. destruct (od_get k d) as [e|] eqn:Hg; [by exists e|].
  by apply od_get_None in Hg.
Qed.






Lemma od_set_keys_present k e d :
  In k (keys d) -> keys (od_set k e d) = keys d.
Proof.
  unfold keys. induction d as [|[k0 e0] d IH]; cbn; [done|].
  destruct (String.eqb_spec k0 k) as [->|Hne]; [done|].
  intros [Heq|Hin]; [congruence|]. cbn. by rewrite IH.
Qed.

Lemma od_set_keys_fresh k e d :
  ~ In k (keys d) -> keys (od_set k e d) = keys d ++ [k].
Proof.
  unfold keys. induction d as [|[k0 e0] d IH]; cbn; [done|].
  destruct (String.eqb_spec k0 k) as [->|Hne].
  - intros H. exfalso. apply H. by left.
  - intros H. cbn. rewrite IH; [done|]. intros Hin. apply H. by right.
Qed.




End OrderedDictFacts.

(** *** The bound on the number of entries *)

Section CacheInvariant.
Context {V : Type}.
Implicit Types (c : MemoryCache V) (d : list (string * CacheEntry V)).

















End CacheInvariant.


(** The two caches of capacity 2 of the specification: [a] and [b] are
    set, [a] is read, and [c] is set. *)
Definition read_then_insert (policy : string) : MemoryCache string :=
  run [Set_ "a" "1" None 0; Set_ "b" "2" None 1; Get "a" 2;
       Set_ "c" "3" None 3]
    (MemoryCache_init 2 policy).

Example eviction_honors_policy :
  keys (_cache (read_then_insert "lru")) = ["a"; "c"]
  /\ keys (_cache (read_then_insert "fifo")) = ["b"; "c"]
  /\ keys (_cache (read_then_insert "lfu")) = ["a"; "c"].
Proof. repeat split; by vm_compute. Qed.


(** With a policy string other than the three, [_evict] removes nothing
    and the bound is lost. *)
Remark unknown_policy_overflows :
  length (_cache (run [Set_ "a" "1" None 0; Set_ "b" "2" None 1]
                    (MemoryCache_init 1 "random")))
  = 2%nat.
Proof. by vm_compute. Qed.

End Caching.

(* ===================================================================== *)
(** ** Trust framework: trust level, domain score, trust score
       ([src/gatf/core/trust_framework.py]) *)
(* ===================================================================== *)

Module TrustScoring.

Import TrustFramework.
Local Open Scope Q_scope.

(** [class TrustLevel(Enum)] *)
Inductive TrustLevel := NONE | LOW | MEDIUM | HIGH | VERIFIED.

(** [TrustScore.trust_level] *)
Definition trust_level (ts : TrustScore) : TrustLevel :=
  if Qle_bool 90 (overall_score ts) then VERIFIED
  else if Qle_bool 75 (overall_score ts) then HIGH
  else if Qle_bool 50 (overall_score ts) then MEDIUM
  else if Qle_bool 25 (overall_score ts) then LOW
  else NONE.

(** The position of a level in the order none, low, medium, high,
    verified. *)
Definition level_rank (l : TrustLevel) : nat :=
  match l with
  | NONE => 0 | LOW => 1 | MEDIUM => 2 | HIGH => 3 | VERIFIED => 4
  end.

(** [class ValidationSeverity(Enum)] of [gatf/domains/base_domain.py]. *)
Inductive ValidationSeverity := CRITICAL | SEV_HIGH | SEV_MEDIUM | SEV_LOW | INFO.

(** What the [severity] field of a result holds: a member of the
    enumeration, as the dataclass declares, or a plain string.  A member
    is not equal to any string. *)
Inductive SeverityValue :=
| Member (s : ValidationSeverity)
| Text (s : string).

(** [result.severity == text] *)
Definition severity_is (s : SeverityValue) (text : string) : bool :=
  match s with
  | Member _ => false
  | Text t => String.eqb t text
  end.

(** The fields of [ValidationResult] that the scoring reads. *)
Record ValidationResult := {
  check_name : string;
  passed : bool;
  result_score : Q;
  severity : SeverityValue;
  message : string
}.

(** The weight the loop of [_calculate_domain_score] gives a result. *)
Definition result_weight (r : ValidationResult) : Q :=
  if severity_is (severity r) "critical" then 3
  else if severity_is (severity r) "error" then 2
  else if severity_is (severity r) "warning" then 1
  else 1.

(** [TrustFramework._calculate_domain_score] *)
Definition _calculate_domain_score (results : list ValidationResult) : Q :=
  match results with
  | [] => 0
  | _ =>
      let '(weighted_sum, total_weight) :=
        fold_left (fun acc r =>
                     (fst acc + result_score r * result_weight r,
                      snd acc + result_weight r))
          results (0, 0) in
      if Qlt_le_dec 0 total_weight
      then weighted_sum / total_weight * 100
      else 0
  end.

(** The fields of [MetricResult] that the scoring reads; [value] is
    [Some q] when the value is an [int] or a [float]. *)
Record MetricResult := {
  metric_id : string;
  value : option Q;
  normalized_value : Q
}.

(** The [metric_weights] dictionary of [_calculate_trust_score], in its
    order. *)
Definition metric_weights : list (string * Q) :=
  [("accuracy", 25 # 100); ("reliability", 20 # 100);
   ("consistency", 20 # 100); ("robustness", 15 # 100);
   ("fairness", 10 # 100); ("performance", 10 # 100)].

(** The state of the loop over [metric_weights.items()]:
    [metric_scores], [weighted_sum] and [total_weight]. *)
Definition metric_step (metrics : gmap string MetricResult)
    (st : list (string * Q) * Q * Q) (mw : string * Q)
    : list (string * Q) * Q * Q :=
  let '(metric_scores, weighted_sum, total_weight) := st in
  match metrics !! fst mw with
  | Some r =>
      match value r with
      | Some score =>
          (metric_scores ++ [(fst mw, score * 100)],
           weighted_sum + score * 100 * snd mw,
           total_weight + snd mw)
      | None => st
      end
  | None => st
  end.

(** [sum(d.values())] *)
Definition sum_scores (d : list (string * Q)) : Q :=
  fold_left (fun acc kv => acc + snd kv) d 0.

(** [TrustFramework._calculate_trust_score] *)
Definition _calculate_trust_score (metrics : gmap string MetricResult)
    (domain_scores : list (string * Q)) : TrustScore :=
  let '(metric_scores, weighted_sum, total_weight) :=
    fold_left (metric_step metrics) metric_weights ([], 0, 0) in
  let metric_component :=
    if Qlt_le_dec 0 total_weight then weighted_sum / total_weight else 0 in
  let domain_component :=
    match domain_scores with
    | [] => 0
    | _ => sum_scores domain_scores
           / inject_Z (Z.of_nat (length domain_scores))
    end in
  {| overall_score := (6 # 10) * metric_component + (4 # 10) * domain_component;
     domain_scores := domain_scores;
     metric_scores := metric_scores;
     confidence :=
       Qmin 1 (inject_Z (Z.of_nat (length domain_scores)) / 5) |}.

(** The domain-expert badges of a badge list. *)
Definition expert_badges (bs : list TrustBadge) : list TrustBadge :=
  List.filter (fun b => bool_decide (badge_type b = DOMAIN_EXPERT)) bs.

(** The requirements of the domain-expert badge. *)
Definition expert_requirements : ExpertRequirements :=
  {| min_domain_score := 90;
     min_test_cases_per_domain := 100;
     required_domain_metrics := ["domain_expertise"; "compliance"] |}.

(** *** Properties of the trust level and of the badges *)

Lemma trust_level_at_least (ts : TrustScore) :
  (90 <= overall_score ts -> trust_level ts = VERIFIED)
  /\ (75 <= overall_score ts -> (3 <= level_rank (trust_level ts))%nat)
  /\ (50 <= overall_score ts -> (2 <= level_rank (trust_level ts))%nat)
  /\ (25 <= overall_score ts -> (1 <= level_rank (trust_level ts))%nat)
  /\ (overall_score ts < 25 -> trust_level ts = NONE).
Proof.
  unfold trust_level.
  destruct (Qle_bool 90 (overall_score ts)) eqn:H90;
    [apply Qle_bool_iff in H90; cbn; repeat split; intros; (lia || lra || done)|].
  destruct (Qle_bool 75 (overall_score ts)) eqn:H75;
    [apply Qle_bool_iff in H75|];
    [assert (~ 90 <= overall_score ts)
       by (intros H; apply Qle_bool_iff in H; congruence);
     cbn; repeat split; intros; (lia || lra || done)|].
  destruct (Qle_bool 50 (overall_score ts)) eqn:H50;
    [apply Qle_bool_iff in H50|];
    [assert (~ 75 <= overall_score ts)
       by (intros H; apply Qle_bool_iff in H; congruence);
     cbn; repeat split; intros; (lia || lra || done)|].
  destruct (Qle_bool 25 (overall_score ts)) eqn:H25;
    [apply Qle_bool_iff in H25|];
    [assert (~ 50 <= overall_score ts)
       by (intros H; apply Qle_bool_iff in H; congruence);
     cbn; repeat split; intros; (lia || lra || done)|].
  assert (~ 25 <= overall_score ts)
    by (intros H; apply Qle_bool_iff in H; congruence).
  cbn; repeat split; intros; (lia || lra || done).
Qed.

(** The trust level does not go down when the overall score goes
    up. *)
Theorem trust_level_monotone (a b : TrustScore) :
  overall_score a <= overall_score b ->
  (level_rank (trust_level a) <= level_rank (trust_level b))%nat.
Proof.
  intros Hab.
  destruct (trust_level_at_least b) as (Hb90 & Hb75 & Hb50 & Hb25 & _).
  unfold trust_level at 1.
  destruct (Qle_bool 90 (overall_score a)) eqn:H90.
  { apply Qle_bool_iff in H90. rewrite Hb90 by lra. done. }
  destruct (Qle_bool 75 (overall_score a)) eqn:H75.
  { apply Qle_bool_iff in H75. cbn. apply Hb75. lra. }
  destruct (Qle_bool 50 (overall_score a)) eqn:H50.
  { apply Qle_bool_iff in H50. cbn. apply Hb50. lra. }
  destruct (Qle_bool 25 (overall_score a)) eqn:H25.
  { apply Qle_bool_iff in H25. cbn. apply Hb25. lra. }
  cbn. lia.
Qed.

Lemma trust_level_monotone_example :
  (level_rank (trust_level {| overall_score := 72; domain_scores := [];
                             metric_scores := []; confidence := 0 |})
   <= level_rank (trust_level {| overall_score := 91; domain_scores := [];
                                metric_scores := []; confidence := 0 |}))%nat.
Proof. apply trust_level_monotone. by vm_compute. Defined.

(** X1.  A general badge that [_assign_badges] grants goes with a trust
    level of at least medium; a Gold badge with at least high; a Platinum
    badge with verified. *)
Theorem general_badge_implies_trust_level {M : Type} (now : datetime)
    (ts : TrustScore) (metrics : gmap string M) (num_test_cases : Z)
    (domains : list string) (b : TrustBadge) :
  In b (general_badges (_assign_badges now ts metrics num_test_cases domains)) ->
  (2 <= level_rank (trust_level ts))%nat
  /\ (badge_type b = GOLD -> (3 <= level_rank (trust_level ts))%nat)
  /\ (badge_type b = PLATINUM -> trust_level ts = VERIFIED).
Proof.
  rewrite general_badges_assign.
  destruct (assign_general_first now ts metrics num_test_cases domains
              general_candidates)
    as [[_ Hnil] | (pre & bt & post & r & Hsplit & _ & Hq & Hr & Heq)].
  - rewrite Hnil. by intros [].
  - rewrite Heq. unfold general_badges. cbn [List.filter general_badge badge_type].
    destruct (bool_decide (bt = DOMAIN_EXPERT)); cbn [negb]; [by intros []|].
    intros [<- | []]. cbn [badge_type].
    destruct (trust_level_at_least ts) as (H90 & H75 & H50 & _).
    unfold qualifies in Hq. rewrite Hr in Hq. destruct Hq as (Hscore & _).
    destruct bt; cbn in Hr; inversion Hr; subst r; cbn in Hscore;
      unfold inject_Z in Hscore; cbn [badge_type general_badge];
      (split; [apply H50; lra|]); (split; [intros Hg|intros Hp]);
      try discriminate; first [apply H75; lra | apply H90; lra].
Qed.

Lemma general_badge_implies_trust_level_example :
  (2 <= level_rank
          (trust_level {| overall_score := 72;
                          domain_scores := [("finance", 80%Q); ("legal", 64%Q)];
                          metric_scores := []; confidence := 2 # 5 |}))%nat.
Proof.
  pose (ts := {| overall_score := 72;
                 domain_scores := [("finance", 80%Q); ("legal", 64%Q)];
                 metric_scores := []; confidence := 2 # 5 |}).
  pose (metrics := <["accuracy" := tt]> (<["consistency" := tt]>
                     (<["reliability" := tt]> (∅ : gmap string unit)))).
  refine (proj1 (general_badge_implies_trust_level 0%Z ts metrics 60%Z
                   ["finance"; "legal"]
                   (general_badge 0%Z SILVER
                      {| min_score := 70%Z; min_domains := 2%Z;
                         required_metrics :=
                           ["accuracy"; "consistency"; "reliability"];
                         min_test_cases := 50%Z |} ts 60%Z ["finance"; "legal"])
                   _)).
  vm_compute. by left.
Defined.

Lemma general_badges_of_experts now r scores :
  expert_badges (assign_expert now r scores) = assign_expert now r scores.
Proof.
  induction scores as [|[d s] rest IH]; [done|].
  cbn [assign_expert]. destruct (Qle_bool _ _); [|done].
  unfold expert_badges in *. cbn [List.filter expert_badge badge_type].
  rewrite bool_decide_eq_true_2 by done. by rewrite IH.
Qed.

Lemma expert_badges_of_general {M : Type} now candidates ts
    (metrics : gmap string M) n domains :
  expert_badges (assign_general now candidates ts metrics n domains) = [].
Proof.
  destruct (assign_general_first now ts metrics n domains candidates)
    as [[_ ->] | (pre & bt & post & r & _ & _ & _ & Hr & ->)]; [done|].
  unfold expert_badges. cbn [List.filter general_badge badge_type].
  rewrite bool_decide_eq_false_2; [done|]. by intros ->.
Qed.

Lemma assign_expert_domains now r scores :
  List.map domain (assign_expert now r scores)
  = List.map (fun ds => Some (fst ds))
      (List.filter (fun ds => Qle_bool (inject_Z (min_domain_score r)) (snd ds))
         scores)
  /\ Forall (fun b => expiry_date b = Some (now + timedelta_days 180)%Z)
       (assign_expert now r scores).
Proof.
  induction scores as [|[d s] rest [IHd IHe]]; [by split|].
  cbn [assign_expert List.filter snd].
  destruct (Qle_bool _ _); [|by split].
  split; [cbn; by rewrite IHd | by constructor].
Qed.

(** X2.  The domain-expert badges that [_assign_badges] grants depend on
    the per-domain scores alone: one badge, valid for 180 days, for each
    domain whose score is at least 90, in the order of the scores, whatever
    the overall score, the metrics, the number of test cases and the domain
    list are. *)
Theorem expert_badges_from_domain_scores {M M' : Type} (now : datetime)
    (ts ts' : TrustScore) (metrics : gmap string M)
    (metrics' : gmap string M') (n n' : Z) (domains domains' : list string) :
  domain_scores ts = domain_scores ts' ->
  expert_badges (_assign_badges now ts metrics n domains)
  = expert_badges (_assign_badges now ts' metrics' n' domains')
  /\ List.map domain (expert_badges (_assign_badges now ts metrics n domains))
     = List.map (fun ds => Some (fst ds))
         (List.filter (fun ds => Qle_bool 90 (snd ds)) (domain_scores ts))
  /\ Forall (fun b => expiry_date b = Some (now + timedelta_days 180)%Z)
       (expert_badges (_assign_badges now ts metrics n domains)).
Proof.
  intros Hds.
  assert (Hx : forall (K : Type) t (m : gmap string K) k dl,
            expert_badges (_assign_badges now t m k dl)
            = assign_expert now expert_requirements (domain_scores t)).
  { intros K t m k dl. unfold _assign_badges, expert_badges.
    rewrite List.filter_app.
    fold (expert_badges (assign_general now general_candidates t m k dl)).
    rewrite expert_badges_of_general. cbn [app _initialize_badge_requirements].
    apply general_badges_of_experts. }
  rewrite !Hx, Hds.
  split; [done|]. apply assign_expert_domains.
Qed.

Lemma expert_badges_from_domain_scores_example :
  List.map domain
    (expert_badges
       (_assign_badges 0%Z
          {| overall_score := 10;
             domain_scores := [("finance", 93%Q); ("legal", 64%Q);
                               ("retail", 90%Q)];
             metric_scores := []; confidence := 3 # 5 |}
          (∅ : gmap string unit) 0%Z []))
  = [Some "finance"; Some "retail"].
Proof.
  pose (ts := {| overall_score := 10;
                 domain_scores := [("finance", 93%Q); ("legal", 64%Q);
                                   ("retail", 90%Q)];
                 metric_scores := []; confidence := 3 # 5 |}).
  destruct (expert_badges_from_domain_scores 0%Z ts ts (∅ : gmap string unit)
              (∅ : gmap string unit) 0%Z 0%Z [] [] eq_refl) as (_ & H & _).
  exact H.
Defined.

(** *** Properties of the scores *)

Definition domain_step (acc : Q * Q) (r : ValidationResult) : Q * Q :=
  (fst acc + result_score r * result_weight r, snd acc + result_weight r).


Lemma result_weight_member r m :
  severity r = Member m -> result_weight r = 1.
Proof. unfold result_weight. by intros ->. Qed.


Lemma domain_fold_mean results acc :
  Forall (fun r => exists m, severity r = Member m) results ->
  let acc' := fold_left domain_step results acc in
  fst acc' == fst acc + fold_right Qplus 0 (List.map result_score results)
  /\ snd acc' == snd acc + inject_Z (Z.of_nat (length results)).
Proof.
  intros Hall. revert acc.
  induction Hall as [|r rest [m Hm] _ IH]; intros [ws tw]; cbn [fst snd].
  - cbn [fold_left length fst snd Z.of_nat List.map fold_right].
    change (inject_Z (Z.of_nat 0)) with 0. split; lra.
  - cbn [fold_left length List.map fold_right].
    rewrite Nat2Z.inj_succ, <- Z.add_1_r, inject_Z_plus.
    change (inject_Z 1) with 1.
    destruct (IH (domain_step (ws, tw) r)) as [IH1 IH2].
    set (acc1 := fold_left domain_step rest _) in *.
    cbn [domain_step fst snd] in IH1, IH2.
    rewrite (result_weight_member r m Hm) in IH1, IH2.
    split; [rewrite IH1 | rewrite IH2]; lra.
Qed.

Lemma length_pos {A : Type} (l : list A) :
  l <> [] -> 0 < inject_Z (Z.of_nat (length l)).
Proof.
  destruct l; [done|]. intros _. cbn [length].
  rewrite Nat2Z.inj_succ, <- Z.add_1_r, inject_Z_plus.
  assert (0 <= inject_Z (Z.of_nat (length l))).
  { change 0 with (inject_Z 0). rewrite <- Zle_Qle. lia. }
  change (inject_Z 1) with 1. lra.
Qed.

Lemma calculate_domain_score_unfold results :
  results <> [] ->
  _calculate_domain_score results
  = let acc := fold_left domain_step results (0, 0) in
    if Qlt_le_dec 0 (snd acc) then fst acc / snd acc * 100 else 0.
Proof.
  destruct results as [|r rest]; [done|]. intros _.
  unfold _calculate_domain_score. fold domain_step.
  by destruct (fold_left domain_step (r :: rest) (0, 0)).
Qed.


Definition check (score : Q) (sev : SeverityValue) : ValidationResult :=
  {| check_name := "check"; passed := true; result_score := score;
     severity := sev; message := "" |}.


(** X4.  The severity weights of [_calculate_domain_score] compare the
    severity with strings; a severity that is a member of
    [ValidationSeverity], as the dataclass declares, equals none of them,
    so every result weighs 1 and the domain score is the plain mean of the
    scores times 100: a critical result counts no more than an
    informational one. *)
Theorem domain_score_ignores_enum_severity (results : list ValidationResult) :
  results <> [] ->
  Forall (fun r => exists m, severity r = Member m) results ->
  _calculate_domain_score results
  == fold_right Qplus 0 (List.map result_score results)
     / inject_Z (Z.of_nat (length results)) * 100.
Proof.
  intros Hne Hall.
  rewrite calculate_domain_score_unfold by done. cbn zeta.
  destruct (domain_fold_mean results (0, 0) Hall) as [Hws Htw].
  cbn [fst snd] in Hws, Htw. pose proof (length_pos results Hne) as Hpos.
  destruct (Qlt_le_dec 0 (snd (fold_left domain_step results (0, 0))))
    as [Hlt|Hle]; [|lra].
  rewrite Hws, Htw, !Qplus_0_l. reflexivity.
Qed.

Lemma domain_score_ignores_enum_severity_example :
  _calculate_domain_score
    [check 0 (Member CRITICAL); check 1 (Member INFO)] == 50.
Proof.
  rewrite (domain_score_ignores_enum_severity
             [check 0 (Member CRITICAL); check 1 (Member INFO)]).
  - by vm_compute.
  - done.
  - repeat constructor; by eexists.
Defined.

(** The loop invariant of the metric part of [_calculate_trust_score]. *)
Definition metric_inv (lo hi : Q) (st : list (string * Q) * Q * Q) : Prop :=
  0 <= snd st
  /\ lo * 100 * snd st <= snd (fst st) <= hi * 100 * snd st.

Lemma metric_fold_bounds (metrics : gmap string MetricResult) lo hi weights st :
  (forall name r v, metrics !! name = Some r -> value r = Some v ->
                    lo <= v <= hi) ->
  Forall (fun mw => 0 < snd mw) weights ->
  metric_inv lo hi st ->
  metric_inv lo hi (fold_left (metric_step metrics) weights st).
Proof.
  intros Hm Hall. revert st.
  induction Hall as [|[name w] rest Hw _ IH]; intros st Hst; [done|].
  cbn [fold_left]. apply IH. clear IH.
  destruct st as [[ms ws] tw]. unfold metric_step. cbn [fst snd] in *.
  destruct (metrics !! name) as [r|] eqn:Hr; [|done].
  destruct (value r) as [v|] eqn:Hv; [|done].
  destruct (Hm name r v Hr Hv) as [Hlo Hhi].
  destruct Hst as (Htw & Hl & Hh). unfold metric_inv. cbn [fst snd] in *.
  assert (lo * w <= v * w) by (apply Qmult_le_compat_r; lra).
  assert (v * w <= hi * w) by (apply Qmult_le_compat_r; lra).
  repeat split; lra.
Qed.

Lemma metric_weights_positive : Forall (fun mw => 0 < snd mw) metric_weights.
Proof. repeat constructor. Qed.

Lemma sum_scores_bounds lo hi (d : list (string * Q)) acc :
  Forall (fun kv => lo <= snd kv <= hi) d ->
  let total := fold_left (fun acc kv => acc + snd kv) d acc in
  acc + lo * inject_Z (Z.of_nat (length d)) <= total
  <= acc + hi * inject_Z (Z.of_nat (length d)).
Proof.
  intros Hall. revert acc.
  induction Hall as [|kv rest Hkv _ IH]; intros acc.
  - cbn [fold_left length fst snd Z.of_nat]. change (inject_Z (Z.of_nat 0)) with 0. lra.
  - cbn [fold_left length]. specialize (IH (acc + snd kv)). cbn zeta in IH.
    rewrite Nat2Z.inj_succ, <- Z.add_1_r, inject_Z_plus.
    change (inject_Z 1) with 1. cbn zeta. lra.
Qed.

Lemma confidence_of_domains (n : nat) :
  0 <= Qmin 1 (inject_Z (Z.of_nat n) / 5) <= 1
  /\ (Qmin 1 (inject_Z (Z.of_nat n) / 5) == 1 <-> (5 <= n)%nat)
  /\ ((n <= 5)%nat -> Qmin 1 (inject_Z (Z.of_nat n) / 5) == inject_Z (Z.of_nat n) / 5).
Proof.
  assert (H0 : 0 <= inject_Z (Z.of_nat n)).
  { change 0 with (inject_Z 0). rewrite <- Zle_Qle. lia. }
  assert (Hdiv : inject_Z (Z.of_nat n) / 5 == inject_Z (Z.of_nat n) * (1 # 5))
    by reflexivity.
  assert (H5 : (5 <= n)%nat <-> 5 <= inject_Z (Z.of_nat n)).
  { change 5 with (inject_Z 5). rewrite <- Zle_Qle. lia. }
  destruct (Q.min_spec 1 (inject_Z (Z.of_nat n) / 5)) as [[Hlt ->] | [Hle ->]].
  - repeat split; try lra; try done; intros; [apply H5; lra|].
    assert (inject_Z (Z.of_nat n) <= 5) by (change 5 with (inject_Z 5);
      rewrite <- Zle_Qle; lia). lra.
  - repeat split; try lra; intros; [apply H5; lra | apply H5 in H; lra].
Qed.

(** X5.  [_calculate_trust_score] keeps the overall score on the scale 0
    to 100 when the metric values lie in [0, 1] and the domain scores in
    [0, 100]; the confidence lies in [0, 1], is a fifth of the number of
    domains up to five domains, and is 1 exactly from five domains on. *)
Theorem trust_score_bounds (metrics : gmap string MetricResult)
    (dscores : list (string * Q)) :
  (forall name r v, metrics !! name = Some r -> value r = Some v ->
                    0 <= v <= 1) ->
  Forall (fun kv => 0 <= snd kv <= 100) dscores ->
  let ts := _calculate_trust_score metrics dscores in
  0 <= overall_score ts <= 100
  /\ 0 <= confidence ts <= 1
  /\ (confidence ts == 1 <-> (5 <= length dscores)%nat)
  /\ ((length dscores <= 5)%nat ->
      confidence ts == inject_Z (Z.of_nat (length dscores)) / 5).
Proof.
  intros Hm Hd. cbn zeta. unfold _calculate_trust_score.
  pose proof (metric_fold_bounds metrics 0 1 metric_weights ([], 0, 0) Hm
                metric_weights_positive) as Hinv.
  destruct (fold_left (metric_step metrics) metric_weights ([], 0, 0))
    as [[ms ws] tw].
  cbn [overall_score confidence].
  destruct (confidence_of_domains (length dscores)) as (Hc1 & Hc2 & Hc3).
  split; [|exact (conj Hc1 (conj Hc2 Hc3))].
  destruct Hinv as (Htw & Hl & Hh); [unfold metric_inv; cbn; lra|].
  cbn [fst snd] in *.
  assert (Hmc : 0 <= (if Qlt_le_dec 0 tw then ws / tw else 0) <= 100).
  { destruct (Qlt_le_dec 0 tw); [|lra].
    split; [apply Qle_shift_div_l | apply Qle_shift_div_r]; lra. }
  assert (Hdc : 0 <= match dscores with
                     | [] => 0
                     | _ => sum_scores dscores
                            / inject_Z (Z.of_nat (length dscores))
                     end <= 100).
  { destruct dscores as [|kv rest] eqn:Hds; [lra|]. rewrite <- Hds in *.
    assert (Hpos : 0 < inject_Z (Z.of_nat (length dscores)))
      by (apply length_pos; by rewrite Hds).
    pose proof (sum_scores_bounds 0 100 dscores 0 Hd) as Hsum.
    cbn zeta in Hsum. fold (sum_scores dscores) in Hsum.
    split; [apply Qle_shift_div_l | apply Qle_shift_div_r]; lra. }
  lra.
Qed.

Lemma trust_score_bounds_example :
  0 <= overall_score
         (_calculate_trust_score
            (<["accuracy" := {| metric_id := "accuracy"; value := Some (9 # 10);
                                normalized_value := 9 # 10 |}]> ∅)
            [("finance", 80)]) <= 100.
Proof.
  refine (proj1 (trust_score_bounds
                   (<["accuracy" := {| metric_id := "accuracy";
                                       value := Some (9 # 10);
                                       normalized_value := 9 # 10 |}]> ∅)
                   [("finance", 80)] _ _)).
  - intros name r v Hr Hv.
    apply lookup_insert_Some in Hr as [[_ <-] | [_ Hr]]; [|done].
    inversion Hv. lra.
  - repeat constructor; by vm_compute.
Defined.



End TrustScoring.

(* ===================================================================== *)
(** ** Validation orchestrator: the tasks of a pipeline and their runs

    [gatf/validation/orchestrators/validation_orchestrator.py]:
    [_create_stage_tasks], the task-creating loop of [_execute_pipeline],
    and what [_execute_tasks] and [_execute_task] do to the tasks they are
    given.  [context.tasks] is a dict keyed by task id; it is the list of
    its values in insertion order.  The identifiers that
    [str(uuid.uuid4())] returns are the values [uuid 0], [uuid 1], ... of a
    function, in the order the tasks are constructed. *)
(* ===================================================================== *)

Module OrchestratorPipeline.

Import ValidationOrchestrator.

(** [ValidationTask(name=..., stage=..., validator_func=...,
    dependencies=...)] with the defaults of the dataclass. *)
Definition new_task (uuid name : string) (st : ValidationStage)
    (f : nat -> CallOutcome) (deps : gset string) : ValidationTask :=
  {| task_id := uuid; name := name; stage := st; status := PENDING;
     dependencies := deps; validator_func := Some f; output_data := None;
     error := None; retry_count := 0; max_retries := 3; calls := 0 |}.

(** [{t.task_id for t in context.tasks.values() if t.stage in stages}] *)
Definition ids_of_stages (stages : list ValidationStage)
    (tasks : list ValidationTask) : gset string :=
  list_to_set
    (List.map task_id
       (List.filter (fun t => bool_decide (stage t ∈ stages)) tasks)).

(** [ValidationOrchestrator._create_stage_tasks].  The callables close
    over the context; [validators st] is the one of stage [st]. *)
Definition _create_stage_tasks (st : ValidationStage) (uuid : string)
    (domain_type : option string)
    (validators : ValidationStage -> nat -> CallOutcome)
    (tasks : list ValidationTask) : list ValidationTask :=
  match st with
  | INITIALIZATION =>
      [new_task uuid "initialize_validation" st (validators st) ∅]
  | PRE_VALIDATION =>
      [new_task uuid "pre_validation_checks" st (validators st) ∅]
  | DOMAIN_VALIDATION =>
      match domain_type with
      | Some d =>
          if String.eqb d "" then []
          else [new_task uuid ("domain_validation_" +:+ d) st
                  (validators st) ∅]
      | None => []
      end
  | QUALITY_VALIDATION =>
      [new_task uuid "quality_validation" st (validators st) ∅]
  | METRIC_CALCULATION =>
      [new_task uuid "calculate_metrics" st (validators st)
         (ids_of_stages [DOMAIN_VALIDATION; QUALITY_VALIDATION] tasks)]
  | POST_VALIDATION =>
      [new_task uuid "post_validation_processing" st (validators st)
         (ids_of_stages [METRIC_CALCULATION] tasks)]
  | AGGREGATION =>
      [new_task uuid "aggregate_results" st (validators st)
         (ids_of_stages [POST_VALIDATION] tasks)]
  | FINALIZATION =>
      [new_task uuid "finalize_validation" st (validators st)
         (ids_of_stages [AGGREGATION] tasks)]
  end.

(** [context.tasks[task.task_id] = task] *)
Fixpoint tasks_set (t : ValidationTask) (tasks : list ValidationTask)
    : list ValidationTask :=
  match tasks with
  | [] => [t]
  | t' :: rest =>
      if bool_decide (task_id t' = task_id t) then t :: rest
      else t' :: tasks_set t rest
  end.

(** The loop over [pipeline.stages] of [_execute_pipeline]:
    [skip_conditions st], when present, is asked with the context, of
    which it sees the tasks made so far; [drawn] counts the identifiers
    drawn. *)
Fixpoint create_tasks
    (skip_conditions : ValidationStage -> option (list ValidationTask -> bool))
    (uuid : nat -> string) (domain_type : option string)
    (validators : ValidationStage -> nat -> CallOutcome)
    (stages : list ValidationStage) (drawn : nat)
    (tasks : list ValidationTask) : list ValidationTask :=
  match stages with
  | [] => tasks
  | st :: rest =>
      let skipped :=
        match skip_conditions st with
        | Some condition => condition tasks
        | None => false
        end in
      if skipped
      then create_tasks skip_conditions uuid domain_type validators rest
             drawn tasks
      else
        let created :=
          _create_stage_tasks st (uuid drawn) domain_type validators tasks in
        create_tasks skip_conditions uuid domain_type validators rest
          (drawn + length created)
          (fold_left (fun acc t => tasks_set t acc) created tasks)
  end.

(** [ValidationOrchestrator._execute_pipeline] on the context that
    [validate] builds, which has no tasks yet; [_aggregate_results], which
    it calls last, does nothing. *)
Definition _execute_pipeline (fuel : nat) (pipeline : ValidationPipeline)
    (stages : list ValidationStage)
    (skip_conditions : ValidationStage -> option (list ValidationTask -> bool))
    (uuid : nat -> string) (domain_type : option string)
    (validators : ValidationStage -> nat -> CallOutcome)
    (late_running : ValidationTask -> bool) : Outcome :=
  _execute_tasks fuel pipeline late_running
    (create_tasks skip_conditions uuid domain_type validators stages 0 []).

(** [list(ValidationStage)], the default of [pipeline.stages]. *)
Definition all_stages : list ValidationStage :=
  [INITIALIZATION; PRE_VALIDATION; DOMAIN_VALIDATION; QUALITY_VALIDATION;
   METRIC_CALCULATION; POST_VALIDATION; AGGREGATION; FINALIZATION].

(** The tasks are in dependency order: every task depends only on ids
    that are in [seen] or belong to tasks before it. *)
Fixpoint ordered_after (seen : gset string) (tasks : list ValidationTask)
    : Prop :=
  match tasks with
  | [] => True
  | t :: rest =>
      dependencies t ⊆ seen /\ ordered_after (seen ∪ {[task_id t]}) rest
  end.

Definition ordered (tasks : list ValidationTask) : Prop :=
  ordered_after ∅ tasks.

(** The stage timeout [_execute_task] reads. *)
Definition timeout_of (pipeline : ValidationPipeline) (t : ValidationTask)
    : Q :=
  match stage_timeout pipeline (stage t) with
  | Some x => x
  | None => 30%Q
  end.

(** *** Termination of the scheduling loop *)

Lemma ready_iff completed t :
  is_ready completed t = true
  <-> (task_id t ∉ completed) /\ status t = PENDING
      /\ (dependencies t ⊆ completed).
Proof. exact (ready_task_spec (fun _ => false) completed t). Qed.

Section Runs.
Variables (pipeline : ValidationPipeline).
Variables (late_running : ValidationTask -> bool).

Lemma wave_progress completed tasks :
  ready_tasks completed tasks <> [] ->
  length (fst (wave pipeline late_running completed tasks)) = length tasks
  /\ (size completed
      < size (snd (wave pipeline late_running completed tasks)))%nat.
Proof.
  intros Hne. unfold wave. cbn [fst snd]. rewrite List.length_map.
  split; [done|].
  destruct (ready_tasks completed tasks) as [|r rs] eqn:Hready; [done|].
  apply subset_size. split; [set_solver|]. intros Hrev.
  assert (Hr : In r (ready_tasks completed tasks))
    by (rewrite Hready; by left).
  apply List.filter_In in Hr as [_ Hr].
  apply ready_iff in Hr as (Hnot & _). apply Hnot, Hrev.
  apply elem_of_union. right. cbn. set_solver.
Qed.

Lemma loop_fuel fuel :
  forall fuel' tasks completed,
    (length tasks - size completed < fuel)%nat ->
    (length tasks - size completed < fuel')%nat ->
    execute_tasks_loop fuel pipeline late_running tasks completed
    = execute_tasks_loop fuel' pipeline late_running tasks completed
    /\ execute_tasks_loop fuel pipeline late_running tasks completed
       <> OutOfFuel.
Proof.
  induction fuel as [|fuel IH]; intros [|fuel'] tasks completed H1 H2;
    try lia.
  cbn [execute_tasks_loop].
  destruct (Nat.ltb_spec (size completed) (length tasks)) as [Hlt|Hge];
    [|done].
  destruct (ready_tasks completed tasks) as [|r rs] eqn:Hready; [done|].
  destruct (wave_progress completed tasks) as [Hlen Hsize];
    [by rewrite Hready|].
  destruct (wave pipeline late_running completed tasks) as [tasks' completed'].
  cbn [fst snd] in Hlen, Hsize. apply IH; lia.
Qed.

Lemma loop_ids fuel :
  forall tasks completed final,
    execute_tasks_loop fuel pipeline late_running tasks completed
    = Finished final ->
    List.map task_id final = List.map task_id tasks.
Proof.
  induction fuel as [|fuel IH]; intros tasks completed final Hrun; [done|].
  cbn [execute_tasks_loop] in Hrun.
  destruct (size completed <? length tasks)%nat; [|by inversion Hrun].
  destruct (ready_tasks completed tasks) as [|r rs] eqn:Hready; [done|].
  pose proof (wave_ids pipeline late_running completed tasks) as Hids.
  destruct (wave pipeline late_running completed tasks) as [tasks' completed'].
  cbn [fst] in Hids. rewrite <- Hids. by eapply IH.
Qed.

(** *** Tasks in dependency order are all run *)

Definition ran_when_completed (completed : gset string)
    (t0 t : ValidationTask) : Prop :=
  (task_id t0 ∉ completed -> t = t0)
  /\ (task_id t0 ∈ completed ->
      exists n, t = run_ready pipeline late_running n t0).

Lemma ran_id completed t0 t :
  ran_when_completed completed t0 t -> task_id t = task_id t0.
Proof.
  intros [Hout Hin]. destruct (decide (task_id t0 ∈ completed)) as [H|H].
  - destruct (Hin H) as [n ->].
    by destruct (run_ready_frame pipeline late_running n t0) as [[-> _] _].
  - by rewrite (Hout H).
Qed.

Lemma ran_ids completed tasks0 tasks :
  Forall2 (ran_when_completed completed) tasks0 tasks ->
  List.map task_id tasks = List.map task_id tasks0.
Proof.
  induction 1 as [|t0 t l0 l Hr _ IH]; [done|].
  cbn. by rewrite IH, (ran_id _ _ _ Hr).
Qed.

End Runs.

Lemma first_missing (c : gset string) (l : list string) :
  ~ Forall (fun x => x ∈ c) l ->
  exists pre x post,
    l = pre ++ x :: post /\ (x ∉ c) /\ Forall (fun y => y ∈ c) pre.
Proof.
  induction l as [|x l IH]; intros Hnot; [by destruct Hnot|].
  destruct (decide (x ∈ c)) as [Hx|Hx].
  - destruct IH as (pre & y & post & -> & Hy & Hpre).
    { intros Hall. apply Hnot. by constructor. }
    exists (x :: pre), y, post. repeat split; [done|by constructor].
  - exists [], x, l. by repeat split.
Qed.

Lemma ordered_after_split seen tasks :
  ordered_after seen tasks
  <-> (forall pre t post, tasks = pre ++ t :: post ->
         dependencies t ⊆ seen ∪ list_to_set (List.map task_id pre)).
Proof.
  revert seen. induction tasks as [|t rest IH]; intros seen; cbn.
  - split; [|done]. intros _ [|? ?] ? ? ?; discriminate.
  - rewrite IH. split.
    + intros [Hhead Hrest] [|p pre] t' post Heq; inversion Heq; subst.
      * cbn. set_solver.
      * specialize (Hrest pre t' post eq_refl). cbn. set_solver.
    + intros H. split.
      * specialize (H [] t rest eq_refl). cbn in H. set_solver.
      * intros pre t' post ->. specialize (H (t :: pre) t' post eq_refl).
        cbn in H. set_solver.
Qed.

Lemma ordered_after_snoc seen tasks t :
  ordered_after seen tasks ->
  dependencies t ⊆ seen ∪ list_to_set (List.map task_id tasks) ->
  ordered_after seen (tasks ++ [t]).
Proof.
  revert seen. induction tasks as [|t' rest IH]; intros seen; cbn.
  - intros _ Hd. split; [set_solver|done].
  - intros [Hhead Hrest] Hd. split; [done|]. apply IH; [done|set_solver].
Qed.

Lemma NoDup_map_eq {A B} (f : A -> B) (l : list A) (a b : A) :
  List.NoDup (List.map f l) -> In a l -> In b l -> f a = f b -> a = b.
Proof.
  induction l as [|x l IH]; [done|]. cbn. intros Hnd Ha Hb Hf.
  apply List.NoDup_cons_iff in Hnd as [Hx Hnd].
  destruct Ha as [->|Ha], Hb as [->|Hb]; [done| | |by apply IH].
  - exfalso. apply Hx. rewrite Hf. by apply List.in_map.
  - exfalso. apply Hx. rewrite <- Hf. by apply List.in_map.
Qed.

Lemma size_ids (l : list string) :
  List.NoDup l -> size (list_to_set l : gset string) = length l.
Proof. intros H. apply size_list_to_set. by apply NoDup_ListNoDup. Qed.

Section OrderedRuns.
Variables (pipeline : ValidationPipeline).
Variables (late_running : ValidationTask -> bool).
Variable tasks0 : list ValidationTask.
Hypothesis distinct : List.NoDup (List.map task_id tasks0).
Hypothesis pending : Forall (fun t => status t = PENDING) tasks0.
Hypothesis in_order : ordered tasks0.

Lemma some_task_ready completed tasks :
  Forall2 (ran_when_completed pipeline late_running completed) tasks0 tasks ->
  completed ⊆ list_to_set (List.map task_id tasks0) ->
  (size completed < length tasks0)%nat ->
  ready_tasks completed tasks <> [].
Proof.
  intros Hran Hsub Hlt.
  destruct (first_missing completed (List.map task_id tasks0))
    as (pre & x & post & Hsplit & Hx & Hpre).
  { intros Hall.
    assert (Heq : completed = list_to_set (List.map task_id tasks0)).
    { apply set_eq. intros y. split; [apply Hsub|].
      intros Hy. apply elem_of_list_to_set, list_elem_of_In in Hy.
      by apply (proj1 (List.Forall_forall _ _) Hall). }
    rewrite Heq, size_ids, List.length_map in Hlt by done. lia. }
  apply List.map_eq_app in Hsplit as (pre0 & rest0 & Htasks0 & Hpre0 & Hrest0).
  apply List.map_eq_cons in Hrest0 as (t0 & post0 & -> & Hid0 & _).
  subst tasks0 pre x.
  apply Forall2_app_inv_l in Hran as (pre' & rest' & _ & Hrest & ->).
  apply Forall2_cons_inv_l in Hrest as (t & post' & [Hout _] & _ & ->).
  rewrite (Hout Hx).
  assert (Hready : is_ready completed t0 = true).
  { apply ready_iff. repeat split; [done| |].
    - apply (proj1 (List.Forall_forall _ _) pending).
      apply List.in_or_app. right. by left.
    - pose proof (proj1 (ordered_after_split ∅ _) in_order pre0 t0 post0
                    eq_refl) as Hdeps.
      intros d Hd. apply Hdeps in Hd. apply elem_of_union in Hd as [Hd|Hd];
        [set_solver|].
      apply elem_of_list_to_set, list_elem_of_In in Hd.
      by apply (proj1 (List.Forall_forall _ _) Hpre). }
  intros Hnil.
  assert (Hin : In t0 (ready_tasks completed (pre' ++ t0 :: post'))).
  { apply List.filter_In. split; [|done].
    apply List.in_or_app. right. by left. }
  by rewrite Hnil in Hin.
Qed.

Lemma wave_ran completed tasks :
  Forall2 (ran_when_completed pipeline late_running completed) tasks0 tasks ->
  Forall2 (ran_when_completed pipeline late_running
             (snd (wave pipeline late_running completed tasks)))
    tasks0 (fst (wave pipeline late_running completed tasks)).
Proof.
  intros Hran. pose proof (ran_ids _ _ _ _ _ Hran) as Hids.
  unfold wave. cbn [fst snd].
  eapply Forall2_map_In; [exact Hran|].
  intros t0 t Hin Hr. pose proof (ran_id _ _ _ _ _ Hr) as Hid.
  destruct Hr as [Hout Hdone].
  destruct (is_ready completed t) eqn:Hready.
  - apply ready_iff in Hready as Hr'. destruct Hr' as (Hnot & _).
    rewrite Hid in Hnot. rewrite (Hout Hnot) in *. split.
    + intros Hmiss. exfalso. apply Hmiss, elem_of_union. right.
      apply elem_of_list_to_set, list_elem_of_In, List.in_map.
      by apply List.filter_In.
    + intros _. by eexists.
  - split.
    + intros Hmiss. apply Hout. set_solver.
    + intros Hin'. apply elem_of_union in Hin' as [Hc|Hr]; [by apply Hdone|].
      exfalso.
      apply elem_of_list_to_set, list_elem_of_In, List.in_map_iff in Hr
        as (r & Hrid & Hr).
      apply List.filter_In in Hr as [Hrin Hrr].
      assert (r = t); [|congruence].
      apply (NoDup_map_eq task_id tasks); [by rewrite Hids|done|done|].
      congruence.
Qed.

Lemma loop_completes_ordered fuel :
  forall tasks completed,
    Forall2 (ran_when_completed pipeline late_running completed)
      tasks0 tasks ->
    completed ⊆ list_to_set (List.map task_id tasks0) ->
    (length tasks0 - size completed < fuel)%nat ->
    exists final,
      execute_tasks_loop fuel pipeline late_running tasks completed
      = Finished final
      /\ Forall2 (fun t0 t => exists n,
                    t = run_ready pipeline late_running n t0) tasks0 final.
Proof.
  induction fuel as [|fuel IH]; intros tasks completed Hran Hsub Hfuel;
    [lia|].
  pose proof (Forall2_length _ _ _ Hran) as Hlen.
  pose proof (ran_ids _ _ _ _ _ Hran) as Hids.
  cbn [execute_tasks_loop].
  destruct (Nat.ltb_spec (size completed) (length tasks)) as [Hlt|Hge].
  - pose proof (some_task_ready completed tasks Hran Hsub) as Hne.
    destruct (ready_tasks completed tasks) as [|r rs] eqn:Hready;
      [exfalso; apply Hne; [lia|done]|].
    destruct (wave_progress pipeline late_running completed tasks)
      as [Hlen' Hsize]; [by rewrite Hready|].
    pose proof (wave_ran completed tasks Hran) as Hran'.
    assert (Hsub' : snd (wave pipeline late_running completed tasks)
                    ⊆ list_to_set (List.map task_id tasks0)).
    { unfold wave. cbn [snd]. apply union_subseteq. split; [done|].
      intros x Hx.
      apply elem_of_list_to_set, list_elem_of_In, List.in_map_iff in Hx
        as (t & <- & Hin).
      apply List.filter_In in Hin as [Hin _].
      rewrite <- Hids.
      by apply elem_of_list_to_set, list_elem_of_In, List.in_map. }
    destruct (wave pipeline late_running completed tasks)
      as [tasks' completed'].
    cbn [fst snd] in *. apply IH; [done|done|lia].
  - exists tasks. split; [done|].
    assert (Heq : completed = list_to_set (List.map task_id tasks0)).
    { apply set_subseteq_size_eq; [done|].
      rewrite size_ids, List.length_map by done. lia. }
    rewrite <- (List.map_id tasks).
    eapply Forall2_map_In; [exact Hran|].
    intros t0 t Hin Hr. pose proof (ran_id _ _ _ _ _ Hr) as Hid.
    apply Hr. rewrite Heq, <- Hid, <- Hids.
    by apply elem_of_list_to_set, list_elem_of_In, List.in_map.
Qed.

End OrderedRuns.

Lemma run_ready_calls pipeline late_running n t f :
  validator_func t = Some f ->
  calls (run_ready pipeline late_running n t) = S (calls t).
Proof.
  intros Hf.
  assert (Hrun : calls (_execute_task t pipeline) = S (calls t)).
  { unfold _execute_task. rewrite Hf.
    destruct (f (calls t)) as [result elapsed|e];
      [destruct (Qlt_le_dec _ _)|];
      by rewrite ?on_exception_calls. }
  unfold run_ready. destruct (_ || _); [|done].
  by destruct (late_running t).
Qed.

(** *** The tasks [_execute_pipeline] creates *)

Definition fresh_task (t : ValidationTask) : Prop :=
  status t = PENDING /\ calls t = 0%nat /\ is_Some (validator_func t).

Lemma tasks_set_fresh t tasks :
  ~ In (task_id t) (List.map task_id tasks) ->
  tasks_set t tasks = tasks ++ [t].
Proof.
  induction tasks as [|t' rest IH]; [done|]. cbn. intros Hnot.
  rewrite bool_decide_eq_false_2 by tauto. rewrite IH by tauto. done.
Qed.

Lemma ids_of_stages_subset stages tasks :
  ids_of_stages stages tasks ⊆ list_to_set (List.map task_id tasks).
Proof.
  intros x Hx. unfold ids_of_stages in Hx.
  apply elem_of_list_to_set, list_elem_of_In, List.in_map_iff in Hx
    as (t & <- & Hin).
  apply List.filter_In in Hin as [Hin _].
  by apply elem_of_list_to_set, list_elem_of_In, List.in_map.
Qed.

Lemma create_stage_tasks_cases st uuid domain_type validators tasks :
  _create_stage_tasks st uuid domain_type validators tasks = []
  \/ exists name deps,
       _create_stage_tasks st uuid domain_type validators tasks
       = [new_task uuid name st (validators st) deps]
       /\ deps ⊆ list_to_set (List.map task_id tasks).
Proof.
  destruct st; cbn;
    try (right; eexists _, _; split; [reflexivity|];
         first [apply ids_of_stages_subset | set_solver]).
  destruct domain_type as [d|]; [|by left].
  destruct (String.eqb d ""); [by left|].
  right. eexists _, _. split; [reflexivity | set_solver].
Qed.

Section Creation.
Variable skip_conditions :
  ValidationStage -> option (list ValidationTask -> bool).
Variable uuid : nat -> string.
Variable domain_type : option string.
Variable validators : ValidationStage -> nat -> CallOutcome.
Hypothesis uuid_distinct : forall a b, uuid a = uuid b -> a = b.

Definition created_so_far (drawn : nat) (tasks : list ValidationTask)
    : Prop :=
  List.map task_id tasks = List.map uuid (seq 0 drawn)
  /\ Forall fresh_task tasks
  /\ ordered tasks.

Lemma create_tasks_inv stages :
  forall drawn tasks,
    created_so_far drawn tasks ->
    exists drawn',
      (drawn' <= drawn + length stages)%nat
      /\ created_so_far drawn'
           (create_tasks skip_conditions uuid domain_type validators stages
              drawn tasks).
Proof.
  induction stages as [|st rest IH]; intros drawn tasks Hinv.
  - exists drawn. split; [lia|done].
  - cbn [create_tasks length].
    destruct (match skip_conditions st with
              | Some condition => condition tasks
              | None => false
              end).
    { destruct (IH drawn tasks Hinv) as (d & Hd & Hinv').
      exists d. split; [lia|done]. }
    destruct (create_stage_tasks_cases st (uuid drawn) domain_type validators
                tasks) as [-> | (name & deps & -> & Hdeps)].
    { cbn [fold_left length]. rewrite Nat.add_0_r.
      destruct (IH drawn tasks Hinv) as (d & Hd & Hinv').
      exists d. split; [lia|done]. }
    cbn [fold_left length].
    destruct Hinv as (Hids & Hfresh & Hord).
    rewrite tasks_set_fresh.
    2:{ cbn [new_task task_id]. rewrite Hids. intros Hin.
        apply List.in_map_iff in Hin as (k & Hk & Hin).
        apply uuid_distinct in Hk. subst k. apply List.in_seq in Hin. lia. }
    destruct (IH (drawn + 1)%nat
                (tasks ++ [new_task (uuid drawn) name st (validators st) deps]))
      as (d & Hd & Hinv').
    { repeat split.
      - rewrite List.map_app, Hids, Nat.add_1_r, List.seq_S, List.map_app.
        done.
      - apply List.Forall_app. split; [done|].
        constructor; [|done]. by repeat split.
      - apply ordered_after_snoc; [done|]. cbn [dependencies new_task].
        set_solver. }
    exists d. split; [lia|done].
Qed.

End Creation.

(** *** Properties *)

(** X7.  The scheduling loop of [_execute_tasks] runs at most as many
    rounds as there are tasks: with more fuel than tasks the run ends, by
    returning or by the dependency error, and more fuel changes nothing. *)
Theorem execute_tasks_terminates (pipeline : ValidationPipeline)
    (late_running : ValidationTask -> bool) (tasks : list ValidationTask)
    (fuel : nat) :
  (length tasks < fuel)%nat ->
  _execute_tasks fuel pipeline late_running tasks
  = _execute_tasks (S (length tasks)) pipeline late_running tasks
  /\ ((exists final,
         _execute_tasks fuel pipeline late_running tasks = Finished final
         /\ List.map task_id final = List.map task_id tasks)
      \/ _execute_tasks fuel pipeline late_running tasks = Raises circular).
Proof.
  intros Hfuel. unfold _execute_tasks.
  destruct (loop_fuel pipeline late_running fuel (S (length tasks)) tasks ∅)
    as [Heq Hne]; [lia | lia |].
  split; [done|].
  assert (Hout : forall fuel tasks completed e,
            execute_tasks_loop fuel pipeline late_running tasks completed
            = Raises e -> e = circular).
  { clear. induction fuel as [|fuel IH]; intros tasks completed e; [done|].
    cbn [execute_tasks_loop].
    destruct (size completed <? length tasks)%nat; [|done].
    destruct (ready_tasks completed tasks); [by intros [= <-]|].
    destruct (wave pipeline late_running completed tasks). apply IH. }
  destruct (execute_tasks_loop fuel pipeline late_running tasks ∅)
    as [final|e|] eqn:Hrun; [left|right|done].
  - exists final. split; [done|]. by eapply loop_ids.
  - by rewrite (Hout _ _ _ _ Hrun).
Qed.

Lemma execute_tasks_terminates_example :
  _execute_tasks 5 _create_default_pipeline (fun _ => false) [flaky_task]
  = _execute_tasks 2 _create_default_pipeline (fun _ => false) [flaky_task].
Proof.
  apply (execute_tasks_terminates _create_default_pipeline (fun _ => false)
           [flaky_task] 5).
  cbn. lia.
Defined.

(** X8.  Whatever the tasks are, a run of [_execute_tasks] that returns
    has called the callable of no task more than once: a task that
    [_execute_task] reset to pending for a retry is not executed again. *)
Theorem execute_tasks_calls_at_most_once (pipeline : ValidationPipeline)
    (late_running : ValidationTask -> bool) (tasks final : list ValidationTask)
    (fuel : nat) :
  _execute_tasks fuel pipeline late_running tasks = Finished final ->
  List.map task_id final = List.map task_id tasks
  /\ Forall2 (fun t0 t => (calls t <= S (calls t0))%nat) tasks final.
Proof.
  intros Hrun. split; [by eapply loop_ids|].
  eapply loop_calls_once; [|exact Hrun].
  clear. induction tasks; constructor; [|done].
  split; [done|lia].
Qed.

Lemma execute_tasks_calls_at_most_once_example :
  match _execute_tasks 2 _create_default_pipeline (fun _ => false)
          [flaky_task] with
  | Finished final =>
      Forall2 (fun t0 t => (calls t <= S (calls t0))%nat) [flaky_task] final
  | _ => False
  end.
Proof.
  destruct (_execute_tasks 2 _create_default_pipeline (fun _ => false)
              [flaky_task]) as [final|e|] eqn:Hrun.
  - exact (proj2 (execute_tasks_calls_at_most_once _ _ _ _ _ Hrun)).
  - vm_compute in Hrun. discriminate.
  - vm_compute in Hrun. discriminate.
Defined.

(** X9.  Pending tasks with distinct ids that come in dependency order
    (each depends only on tasks before it) are all run: [_execute_tasks]
    returns, without the dependency error, and each task has been through
    one run. *)
Theorem ordered_tasks_all_run (pipeline : ValidationPipeline)
    (late_running : ValidationTask -> bool) (tasks : list ValidationTask)
    (fuel : nat) :
  List.NoDup (List.map task_id tasks) ->
  Forall (fun t => status t = PENDING) tasks ->
  ordered tasks ->
  (length tasks < fuel)%nat ->
  exists final,
    _execute_tasks fuel pipeline late_running tasks = Finished final
    /\ Forall2 (fun t0 t => exists n,
                  t = run_ready pipeline late_running n t0) tasks final.
Proof.
  intros Hnd Hpending Hord Hfuel. unfold _execute_tasks.
  apply loop_completes_ordered; try done.
  - clear. induction tasks; constructor; [|done].
    split; [done|]. set_solver.
  - rewrite size_empty. lia.
Qed.

Definition two_steps : list ValidationTask :=
  [new_task "a" "first" QUALITY_VALIDATION (fun _ => Returned "ok" 0) ∅;
   new_task "b" "second" METRIC_CALCULATION (fun _ => Returned "ok" 0)
     {["a"]}].

Lemma ordered_tasks_all_run_example :
  exists final,
    _execute_tasks 3 _create_default_pipeline (fun _ => false) two_steps
    = Finished final.
Proof.
  destruct (ordered_tasks_all_run _create_default_pipeline (fun _ => false)
              two_steps 3) as (final & Hrun & _).
  - repeat constructor; cbn; set_solver.
  - by repeat constructor.
  - cbn. split; [set_solver|]. split; [set_solver|done].
  - cbn. lia.
  - by exists final.
Defined.

(** X10.  The tasks that [_execute_pipeline] creates never produce the
    dependency error: whatever the stages, their order, the skip
    conditions and the domain type are, when the task identifiers drawn
    are distinct the run returns, with at most one task per stage and the
    callable of every task called exactly once. *)
Theorem pipeline_tasks_never_deadlock (pipeline : ValidationPipeline)
    (stages : list ValidationStage)
    (skip_conditions : ValidationStage -> option (list ValidationTask -> bool))
    (uuid : nat -> string) (domain_type : option string)
    (validators : ValidationStage -> nat -> CallOutcome)
    (late_running : ValidationTask -> bool) (fuel : nat) :
  (forall a b, uuid a = uuid b -> a = b) ->
  (length stages < fuel)%nat ->
  exists final,
    _execute_pipeline fuel pipeline stages skip_conditions uuid domain_type
      validators late_running = Finished final
    /\ (length final <= length stages)%nat
    /\ Forall (fun t => calls t = 1%nat) final.
Proof.
  intros Hinj Hfuel. unfold _execute_pipeline, _execute_tasks.
  destruct (create_tasks_inv skip_conditions uuid domain_type validators Hinj
              stages 0%nat []) as (drawn & Hdrawn & Hids & Hfresh & Hord).
  { by repeat split. }
  set (tasks := create_tasks skip_conditions uuid domain_type validators
                  stages 0 []) in *.
  assert (Hlen : length tasks = drawn).
  { rewrite <- (List.length_map task_id), Hids, List.length_map.
    apply List.length_seq. }
  assert (Hnd : List.NoDup (List.map task_id tasks)).
  { rewrite Hids. apply Finite.Injective_map_NoDup; [exact Hinj|].
    apply List.seq_NoDup. }
  destruct (loop_completes_ordered pipeline late_running tasks Hnd) with
    (fuel := fuel) (tasks := tasks) (completed := (∅ : gset string))
    as (final & Hrun & Hfinal).
  - eapply Forall_impl; [exact Hfresh|]. by intros t [? _].
  - done.
  - clear. induction tasks; constructor; [|done].
    split; [done|]. set_solver.
  - set_solver.
  - rewrite size_empty. lia.
  - exists final. split; [done|].
    pose proof (Forall2_length _ _ _ Hfinal) as Hlen'. split; [lia|].
    clear - Hfinal Hfresh. induction Hfinal as [|t0 t l0 l [n ->] _ IH];
      [done|].
    apply List.Forall_cons_iff in Hfresh as [(_ & Hc & [f Hf]) Hrest].
    constructor; [|by apply IH].
    rewrite (run_ready_calls _ _ _ _ f Hf). lia.
Qed.

Lemma pipeline_tasks_never_deadlock_example :
  exists final,
    _execute_pipeline 9 _create_default_pipeline all_stages (fun _ => None)
      (fun n => pretty n) (Some "finance") (fun _ _ => Returned "ok" 0)
      (fun _ => false) = Finished final
    /\ (length final <= length all_stages)%nat
    /\ Forall (fun t => calls t = 1%nat) final.
Proof.
  apply (pipeline_tasks_never_deadlock _create_default_pipeline all_stages
           (fun _ => None) (fun n => pretty n) (Some "finance")
           (fun _ _ => Returned "ok" 0) (fun _ => false) 9).
  - intros a b H. by apply (inj pretty) in H.
  - cbn. lia.
Defined.

(** X11.  One run of [_execute_task] on a task with a callable: the task
    ends completed exactly when the callable returns within the stage
    timeout, and then holds the returned value; a value returned too late
    is thrown away like a failure.  In every other case the error is
    recorded and the task ends failed or pending.  A retry counter that
    is at most [max_retries] stays so. *)
Theorem execute_task_outcome (pipeline : ValidationPipeline)
    (t : ValidationTask) (f : nat -> CallOutcome) :
  validator_func t = Some f ->
  let t' := _execute_task t pipeline in
  (status t' = COMPLETED
   <-> exists result elapsed,
         f (calls t) = Returned result elapsed
         /\ (elapsed <= timeout_of pipeline t)%Q)
  /\ (forall result elapsed,
        f (calls t) = Returned result elapsed ->
        (elapsed <= timeout_of pipeline t)%Q ->
        output_data t' = Some result /\ error t' = error t)
  /\ (status t' <> COMPLETED ->
      output_data t' = output_data t
      /\ is_Some (error t')
      /\ (status t' = FAILED \/ status t' = PENDING))
  /\ (retry_count t <= max_retries t -> retry_count t' <= max_retries t').
Proof.
  intros Hf. cbn zeta. unfold _execute_task, timeout_of. rewrite Hf.
  set (timeout := match stage_timeout pipeline (stage t) with
                  | Some x => x
                  | None => 30%Q
                  end).
  assert (Hexn : forall e,
            let t' := on_exception e (called t) in
            status t' <> COMPLETED
            /\ output_data t' = output_data t
            /\ is_Some (error t')
            /\ (status t' = FAILED \/ status t' = PENDING)
            /\ (retry_count t <= max_retries t ->
                retry_count t' <= max_retries t')).
  { intros e. cbn zeta. unfold on_exception. cbn.
    destruct (Z.ltb_spec (retry_count t) (max_retries t)); cbn;
      repeat split; eauto; lia. }
  destruct (f (calls t)) as [result elapsed|e] eqn:Hcall.
  - destruct (Qlt_le_dec timeout elapsed) as [Hlate|Hok].
    + destruct (Hexn (SchedulingError (name t) timeout))
        as (Hs & Ho & He & Hfp & Hr).
      split; [split|split; [|split]]; try done.
      * intros (r & el & [= <- <-] & Hle). exfalso.
        apply (Qlt_not_le _ _ Hlate Hle).
      * intros r el [= <- <-] Hle. exfalso. apply (Qlt_not_le _ _ Hlate Hle).
    + cbn. split; [split|split; [|split]]; try done.
      * intros _. by exists result, elapsed.
      * by intros r el [= <- <-] _.
  - destruct (Hexn e) as (Hs & Ho & He & Hfp & Hr).
    split; [split|split; [|split]]; try done.
    intros (r & el & Hd & _). discriminate.
Qed.

Lemma execute_task_outcome_example :
  status (_execute_task flaky_task _create_default_pipeline) <> COMPLETED.
Proof.
  destruct (execute_task_outcome _create_default_pipeline flaky_task flaky
              eq_refl) as (Hiff & _).
  intros Hs. apply Hiff in Hs as (r & el & Hcall & _). discriminate.
Defined.

End OrchestratorPipeline.

(* ===================================================================== *)
(** ** VOS orchestrator: the execution modes of a plan

    [gatf_vos/core/vos_orchestrator.py]: [execute_plan] and the modes
    [_execute_sequential], [_execute_parallel] and [_execute_real_time],
    beside [_execute_adaptive].  Of the [OrchestrationResult] that
    [execute_plan] returns, [status] and [errors] are modelled; an entry of
    [errors] is the exception whose text the source appends. *)
(* ===================================================================== *)

Module VOSPlans.

Import VOSPrimitives.
Import VOSOrchestrator.

(** [class OrchestrationMode(Enum)] *)
Inductive OrchestrationMode := SEQUENTIAL | PARALLEL | ADAPTIVE | REAL_TIME.

(** What a mode can raise: the [ValidationError] of [_execute_sequential]
    for a failed primitive (its name and the [errors] of its result), or
    an error of the kinds of [_execute_adaptive]. *)
Inductive PlanError :=
| PrimitiveFailed (prim_name : string) (prim_errors : list string)
| Other (e : Error).

(** [VOSOrchestrator._execute_sequential] from the [clock]-th call on:
    the results recorded, the number of [execute] calls made, and the
    exception raised, if any. *)
Fixpoint _execute_sequential (prims : list Primitive)
    (results : gmap string PrimitiveResult) (clock : nat)
    : gmap string PrimitiveResult * nat * option PlanError :=
  match prims with
  | [] => (results, clock, None)
  | p :: rest =>
      match execute p clock with
      | Raise e => (results, S clock, Some (Other (MemberError e)))
      | Ret prim_result =>
          let results' := <[name p := prim_result]> results in
          if bool_decide (status prim_result = FAILED)
          then (results', S clock,
                Some (PrimitiveFailed (name p) (errors prim_result)))
          else _execute_sequential rest results' (S clock)
      end
  end.

(** The loop [for prim_name, task in tasks] of [_execute_parallel] and of
    [_execute_real_time]. *)
Fixpoint await_all (tasks : list (string * Res PrimitiveResult))
    (results : gmap string PrimitiveResult)
    : gmap string PrimitiveResult * option PlanError :=
  match tasks with
  | [] => (results, None)
  | (prim_name, task) :: rest =>
      match task with
      | Raise e => (results, Some (Other (MemberError e)))
      | Ret prim_result => await_all rest (<[prim_name := prim_result]> results)
      end
  end.

(** [VOSOrchestrator._execute_parallel] *)
Definition _execute_parallel (prims : list Primitive)
    : gmap string PrimitiveResult * option PlanError :=
  await_all (start_all prims 0) ∅.

(** [execute_with_timeout] of [_execute_real_time]: [timed_out] says that
    the call did not end within the timeout, in which case it is
    cancelled and a failed result stands in for it. *)
Definition execute_with_timeout (timeout : Z) (timed_out : bool)
    (p : Primitive) (k : nat) : Res PrimitiveResult :=
  if timed_out
  then Ret (failed_result ("Timeout after " +:+ pretty timeout +:+ "ms"))
  else execute p k.

Fixpoint start_all_with_timeout (timeout : Z)
    (timed_out : Primitive -> nat -> bool) (prims : list Primitive) (c : nat)
    : list (string * Res PrimitiveResult) :=
  match prims with
  | [] => []
  | p :: rest =>
      (name p, execute_with_timeout timeout (timed_out p c) p c)
      :: start_all_with_timeout timeout timed_out rest (S c)
  end.

(** [VOSOrchestrator._execute_real_time]; [timeout_ms] is
    [plan.timeout_ms]. *)
Definition _execute_real_time (timeout_ms : option Z)
    (timed_out : Primitive -> nat -> bool) (prims : list Primitive)
    : gmap string PrimitiveResult * option PlanError :=
  let timeout :=
    match timeout_ms with
    | Some t => if (t =? 0)%Z then 100%Z else t
    | None => 100%Z
    end in
  await_all (start_all_with_timeout timeout timed_out prims 0) ∅.

(** The [status] and [errors] of an [OrchestrationResult]. *)
Record OrchestrationResult := {
  plan_status : PrimitiveStatus;
  plan_errors : list PlanError
}.

(** The [try ... except Exception as e] of [execute_plan] around a mode
    that raised [e], or returned. *)
Definition settle (raised : option PlanError) : Res OrchestrationResult :=
  match raised with
  | None => Ret {| plan_status := COMPLETED; plan_errors := [] |}
  | Some (Other (MemberError (BaseExceptionOnly text))) =>
      Raise (BaseExceptionOnly text)
  | Some e => Ret {| plan_status := FAILED; plan_errors := [e] |}
  end.

(** [VOSOrchestrator.execute_plan]; [mode] and [timeout_ms] are fields of
    the plan.  [None] when the fuel of the adaptive loop runs out. *)
Definition execute_plan (fuel : nat) (registry : gmap string Primitive)
    (mode : OrchestrationMode) (timeout_ms : option Z)
    (timed_out : Primitive -> nat -> bool) (plan : OrchestrationPlan)
    : option (Res OrchestrationResult) :=
  match mode with
  | SEQUENTIAL =>
      Some (settle (snd (_execute_sequential (primitives plan) ∅ 0)))
  | PARALLEL => Some (settle (snd (_execute_parallel (primitives plan))))
  | ADAPTIVE =>
      match _execute_adaptive fuel registry plan with
      | Finished _ => Some (settle None)
      | Raised e => Some (settle (Some (Other e)))
      | OutOfFuel => None
      end
  | REAL_TIME =>
      Some (settle (snd (_execute_real_time timeout_ms timed_out
                           (primitives plan))))
  end.

(** The primitives are in dependency order: the dependencies of each are
    in [seen] or are names of primitives before it. *)
Fixpoint ordered_after (plan : OrchestrationPlan) (seen : gset string)
    (prims : list Primitive) : Prop :=
  match prims with
  | [] => True
  | p :: rest =>
      Forall (fun d => d ∈ seen) (deps_of plan (name p))
      /\ ordered_after plan (seen ∪ {[name p]}) rest
  end.

Definition ordered (plan : OrchestrationPlan) : Prop :=
  ordered_after plan ∅ (primitives plan).

(** *** Sequential, parallel and real-time mode *)

Lemma sequential_stops pre :
  forall p post results clock r,
    (forall i q, pre !! i = Some q ->
       exists r', execute q (clock + i) = Ret r' /\ status r' <> FAILED) ->
    execute p (clock + length pre) = Ret r ->
    status r = FAILED ->
    exists results',
      _execute_sequential (pre ++ p :: post) results clock
      = (results', S (clock + length pre),
         Some (PrimitiveFailed (name p) (errors r)))
      /\ results' !! name p = Some r.
Proof.
  induction pre as [|q pre IH]; intros p post results clock r Hpre Hp Hr.
  - cbn [app length _execute_sequential] in *. rewrite Nat.add_0_r in *.
    rewrite Hp, bool_decide_eq_true_2 by done.
    eexists. split; [done|]. by rewrite lookup_insert_eq.
  - cbn [app length _execute_sequential].
    destruct (Hpre 0%nat q eq_refl) as (r' & Hq & Hok).
    rewrite Nat.add_0_r in Hq. rewrite Hq, bool_decide_eq_false_2 by done.
    destruct (IH p post (<[name q := r']> results) (S clock) r)
      as (results' & Hrun & Hres).
    + intros i q' Hi. destruct (Hpre (S i) q' Hi) as (r'' & Hq' & Hok').
      exists r''. split; [|done].
      by replace (S clock + i)%nat with (clock + S i)%nat by lia.
    + cbn [length] in Hp.
      by replace (S clock + length pre)%nat
        with (clock + S (length pre))%nat by lia.
    + done.
    + exists results'. split; [|done]. rewrite Hrun.
      by replace (S clock + length pre)%nat
        with (clock + S (length pre))%nat by lia.
Qed.

Lemma await_all_returns tasks :
  forall results,
    Forall (fun nt => exists r, snd nt = Ret r) tasks ->
    snd (await_all tasks results) = None
    /\ forall n, In n (List.map fst tasks) ->
                 is_Some (fst (await_all tasks results) !! n).
Proof.
  induction tasks as [|[n t] rest IH]; intros results Hall; [by split|].
  apply List.Forall_cons_iff in Hall as [[r Hr] Hrest]. cbn in Hr. subst t.
  cbn [await_all]. destruct (IH (<[n := r]> results) Hrest) as [Hnone Hdom].
  split; [done|]. cbn [List.map fst]. intros n' [<- | Hin]; [|by apply Hdom].
  destruct (List.in_dec String.string_dec n (List.map fst rest))
    as [Hin|Hout];
    [by apply Hdom|].
  assert (Hkeep : forall tasks' results',
            ~ In n (List.map fst tasks') -> is_Some (results' !! n) ->
            is_Some (fst (await_all tasks' results') !! n)).
  { clear. induction tasks' as [|[n' t'] rest' IH']; intros results' Hout Hn;
      [done|].
    cbn [await_all]. destruct t' as [r'|e]; [|done].
    apply IH'; [cbn in Hout; tauto|].
    rewrite lookup_insert_ne; [done|]. cbn in Hout. tauto. }
  apply Hkeep; [done|]. by rewrite lookup_insert_eq.
Qed.

Lemma start_all_returns prims c :
  (forall p k, In p prims -> exists r, execute p k = Ret r) ->
  Forall (fun nt => exists r, snd nt = Ret r) (start_all prims c).
Proof.
  revert c. induction prims as [|p rest IH]; intros c Hret; [constructor|].
  cbn [start_all]. constructor.
  - apply Hret. by left.
  - apply IH. intros q k Hq. apply Hret. by right.
Qed.

Lemma start_all_with_timeout_returns timeout timed_out prims c :
  (forall p k, In p prims -> exists r, execute p k = Ret r) ->
  Forall (fun nt => exists r, snd nt = Ret r)
    (start_all_with_timeout timeout timed_out prims c).
Proof.
  revert c. induction prims as [|p rest IH]; intros c Hret; [constructor|].
  cbn [start_all_with_timeout]. constructor.
  - cbn [snd]. unfold execute_with_timeout.
    destruct (timed_out p c); [by eexists|]. apply Hret. by left.
  - apply IH. intros q k Hq. apply Hret. by right.
Qed.

(** *** Adaptive mode on plans in dependency order *)

Section OrderedPlans.
Variables (registry : gmap string Primitive) (plan : OrchestrationPlan).
Hypothesis wf : well_formed registry plan.
Hypothesis in_order : ordered plan.

Lemma ordered_plan_split seen prims :
  ordered_after plan seen prims
  <-> (forall pre p post d, prims = pre ++ p :: post ->
         In d (deps_of plan (name p)) ->
         d ∈ seen ∪ list_to_set (List.map name pre)).
Proof.
  revert seen. induction prims as [|p rest IH]; intros seen; cbn.
  - split; [|done]. intros _ [|? ?] ? ? ? ?; discriminate.
  - rewrite IH, List.Forall_forall. split.
    + intros [Hhead Hrest] [|q pre] p' post d Heq Hd; inversion Heq; subst.
      * specialize (Hhead d Hd). cbn. set_solver.
      * specialize (Hrest pre p' post d eq_refl Hd). cbn. set_solver.
    + intros H. split.
      * intros d Hd. specialize (H [] p rest d eq_refl Hd). cbn in H.
        set_solver.
      * intros pre p' post d -> Hd.
        specialize (H (p :: pre) p' post d eq_refl Hd). cbn in H. set_solver.
Qed.

Lemma first_pending (c : gset string) (l : list Primitive) :
  ~ Forall (fun p => name p ∉ c) l ->
  exists pre p post,
    l = pre ++ p :: post /\ name p ∈ c /\ Forall (fun q => name q ∉ c) pre.
Proof.
  induction l as [|x l IH]; intros Hnot; [by destruct Hnot|].
  destruct (decide (name x ∈ c)) as [Hx|Hx].
  - exists [], x, l. by repeat split.
  - destruct IH as (pre & y & post & -> & Hy & Hpre).
    { intros Hall. apply Hnot. by constructor. }
    exists (x :: pre), y, post. repeat split; [done|by constructor].
Qed.

Lemma retry_results n attempts st st' :
  retry registry n attempts st = Ok st' ->
  forall k, is_Some (primitive_results st !! k) ->
            is_Some (primitive_results st' !! k).
Proof.
  revert st. induction attempts as [|a IH]; intros st; cbn.
  - by intros [= <-].
  - destruct (registry !! n) as [q|]; [|done].
    destruct (execute q (clock st)) as [r|e]; [|done].
    destruct (bool_decide _).
    + intros [= <-] k Hk. cbn.
      destruct (decide (n = k)) as [->|Hne];
        [by rewrite lookup_insert_eq | by rewrite lookup_insert_ne].
    + intros H k Hk. by apply (IH _ H).
Qed.

Lemma process_results policy tasks :
  forall st st',
    process registry policy tasks st = Ok st' ->
    forall k, is_Some (primitive_results st !! k)
              \/ In k (List.map fst tasks) ->
              is_Some (primitive_results st' !! k).
Proof.
  induction tasks as [|[n t] rest IH]; intros st st'; cbn [process].
  - intros [= <-] k [Hk|[]]. done.
  - destruct t as [r|e]; [|done].
    destruct (bool_decide (n ∈ pending st)); [|done].
    destruct (if _ && _ then _ else _) as [st1|e] eqn:Hretry; [|done].
    intros Hrun k Hk. apply (IH _ _ Hrun). cbn [List.map fst] in Hk.
    assert (Hst1 : is_Some (primitive_results st !! k) \/ n = k ->
                   is_Some (primitive_results st1 !! k)).
    { intros Hin.
      assert (Hins : is_Some (<[n := r]> (primitive_results st) !! k)).
      { destruct (decide (n = k)) as [->|Hne];
          [by rewrite lookup_insert_eq|].
        rewrite lookup_insert_ne by done. by destruct Hin. }
      destruct (_ && _).
      - by apply (retry_results _ _ _ _ Hretry).
      - by inversion Hretry. }
    destruct Hk as [Hk|[Hk|Hk]]; [left; apply Hst1; by left
                                  |left; apply Hst1; by right
                                  |by right].
Qed.

(** The state of the adaptive loop between two waves. *)
Definition between_waves (st : RunState) : Prop :=
  pending st ⊆ list_to_set (List.map name (primitives plan))
  /\ (forall p, In p (primitives plan) ->
        name p ∈ pending st \/ name p ∈ executed st)
  /\ (forall n, n ∈ executed st -> is_Some (primitive_results st !! n)).

Lemma adaptive_completes fuel :
  forall st,
    between_waves st ->
    (size (pending st) < fuel)%nat ->
    exists st',
      adaptive_loop fuel registry plan st = Finished st'
      /\ pending st' = ∅
      /\ forall p, In p (primitives plan) ->
           name p ∈ executed st'
           /\ is_Some (primitive_results st' !! name p).
Proof.
  induction fuel as [|fuel IH]; intros st (Hsub & Hcover & Hres) Hfuel; [lia|].
  cbn [adaptive_loop].
  destruct (decide (pending st = ∅)) as [Hempty|Hne].
  { rewrite bool_decide_eq_true_2 by done. exists st.
    split; [done|]. split; [done|]. intros p Hp.
    destruct (Hcover p Hp) as [Hpd|Hex]; [set_solver|].
    split; [done|by apply Hres]. }
  rewrite bool_decide_eq_false_2 by done.
  destruct (first_pending (pending st) (primitives plan))
    as (pre & p & post & Hsplit & Hp & Hpre).
  { intros Hall. apply Hne. apply set_eq. intros n. split; [|set_solver].
    intros Hn. exfalso. pose proof (Hsub _ Hn) as Hn'.
    apply elem_of_list_to_set, list_elem_of_In, List.in_map_iff in Hn'
      as (q & Heq & Hq).
    apply (proj1 (List.Forall_forall _ _) Hall q Hq). by rewrite Heq. }
  assert (Hready : is_ready plan st p = true).
  { apply ready_primitive_spec. split; [done|]. intros d Hd.
    pose proof (proj1 (ordered_plan_split ∅ _) in_order pre p post d Hsplit
                  Hd) as Hin.
    apply elem_of_union in Hin as [Hin|Hin]; [set_solver|].
    apply elem_of_list_to_set, list_elem_of_In, List.in_map_iff in Hin
      as (q & <- & Hq).
    destruct (Hcover q) as [Hpd|Hex]; [|by apply (proj1 (List.Forall_forall _ _) Hpre q Hq) in Hpd|done].
    rewrite Hsplit. apply List.in_or_app. by left. }
  assert (Hpin : In p (primitives plan)).
  { rewrite Hsplit. apply List.in_or_app. right. by left. }
  destruct (List.filter (is_ready plan st) (primitives plan)) as [|r rs]
    eqn:Hfilter.
  { assert (Hin : In p (List.filter (is_ready plan st) (primitives plan)))
      by (by apply List.filter_In).
    by rewrite Hfilter in Hin. }
  assert (Hrin : forall x, In x (r :: rs) ->
            In x (primitives plan) /\ is_ready plan st x = true).
  { intros x Hx. rewrite <- Hfilter in Hx. by apply List.filter_In in Hx. }
  set (st0 := {| executed := executed st; pending := pending st;
                 primitive_results := primitive_results st;
                 clock := (clock st + length (r :: rs))%nat |}).
  destruct wf as (Hnd & Hret & Hreg).
  destruct (process_ok registry (retry_policy plan)
              (start_all (r :: rs) (clock st)) st0) as [st' Hok].
  { rewrite start_all_names, <- Hfilter. by apply NoDup_map_filter. }
  { intros n t Hin.
    apply start_all_outcomes in Hin as (q & k & Hq & -> & ->).
    destruct (Hrin q Hq) as [Hqin Hr].
    apply ready_primitive_spec in Hr as [Hqp _].
    repeat split; [done | by apply Hreg | by apply Hret]. }
  rewrite Hok.
  pose proof (process_results _ _ _ _ Hok) as Hres'.
  apply process_frame in Hok as (He & Hpd & Hhead).
  rewrite start_all_names in He, Hpd, Hres'.
  cbn [executed pending primitive_results st0] in He, Hpd, Hres'.
  apply IH.
  - split; [|split].
    + rewrite Hpd. set_solver.
    + intros q Hq. rewrite Hpd, He.
      destruct (decide (name q ∈ (list_to_set (List.map name (r :: rs))
                                  : gset string))) as [Hin|Hout].
      * right. set_solver.
      * destruct (Hcover q Hq) as [Hqp|Hqe]; [left|right]; set_solver.
    + intros n Hn. rewrite He in Hn. apply Hres'.
      apply elem_of_union in Hn as [Hn|Hn]; [left; by apply Hres|right].
      by apply elem_of_list_to_set, list_elem_of_In in Hn.
  - assert (Hlt : pending st' ⊂ pending st).
    { rewrite Hpd. split; [set_solver|]. intros Hrev.
      specialize (Hhead (name r) (execute r (clock st))
                    (start_all rs (S (clock st))) eq_refl).
      cbn [pending st0] in Hhead.
      specialize (Hrev _ Hhead). apply elem_of_difference in Hrev as [_ Hn].
      apply Hn. cbn [List.map]. rewrite list_to_set_cons. set_solver. }
    apply subset_size in Hlt. lia.
Qed.

End OrderedPlans.

(** *** Properties *)

(** X12.  Sequential mode stops at the first primitive whose result is
    failed: the primitives before it have been executed once each, its
    result is recorded, no later primitive is executed, and
    [execute_plan] returns the status failed with the one error that names
    the primitive and carries the errors of its result. *)
Theorem sequential_stops_at_first_failure (fuel : nat)
    (registry : gmap string Primitive) (timeout_ms : option Z)
    (timed_out : Primitive -> nat -> bool) (plan : OrchestrationPlan)
    (pre post : list Primitive) (p : Primitive) (r : PrimitiveResult) :
  primitives plan = pre ++ p :: post ->
  (forall i q, pre !! i = Some q ->
     exists r', execute q i = Ret r' /\ status r' <> FAILED) ->
  execute p (length pre) = Ret r ->
  status r = FAILED ->
  (exists results,
     _execute_sequential (primitives plan) ∅ 0
     = (results, S (length pre), Some (PrimitiveFailed (name p) (errors r)))
     /\ results !! name p = Some r)
  /\ execute_plan fuel registry SEQUENTIAL timeout_ms timed_out plan
     = Some (Ret {| plan_status := FAILED;
                    plan_errors := [PrimitiveFailed (name p) (errors r)] |}).
Proof.
  intros Hsplit Hpre Hp Hr.
  destruct (sequential_stops pre p post ∅ 0%nat r Hpre Hp Hr)
    as (results & Hrun & Hres).
  cbn [Nat.add] in Hrun. split.
  - exists results. by rewrite Hsplit.
  - unfold execute_plan. by rewrite Hsplit, Hrun.
Qed.

Definition failing (n : string) : Primitive :=
  {| name := n; execute := fun _ => Ret (failed_result "bad input") |}.

Definition three_steps : OrchestrationPlan :=
  {| primitives := [steady "A"; failing "B"; steady "C"];
     dependencies := ∅;
     retry_policy := {| enabled := None; policy_max_retries := None |} |}.

Lemma sequential_stops_at_first_failure_example :
  execute_plan 0 ∅ SEQUENTIAL None (fun _ _ => false) three_steps
  = Some (Ret {| plan_status := FAILED;
                 plan_errors := [PrimitiveFailed "B" ["bad input"]] |}).
Proof.
  refine (proj2 (sequential_stops_at_first_failure 0 ∅ None (fun _ _ => false)
                   three_steps [steady "A"] [steady "C"] (failing "B")
                   (failed_result "bad input") eq_refl _ eq_refl eq_refl)).
  intros [|i] q Hq; [|done]. inversion Hq. by eexists.
Defined.

(** X13.  Parallel and real-time mode do not look at the status of the
    results: when every [execute] returns, [execute_plan] answers
    completed, without errors, even if results are failed (or, in
    real-time mode, timed out), and every primitive of the plan has a
    result recorded. *)
Theorem parallel_modes_ignore_failed_results (fuel : nat)
    (registry : gmap string Primitive) (timeout_ms : option Z)
    (timed_out : Primitive -> nat -> bool) (plan : OrchestrationPlan) :
  (forall p k, In p (primitives plan) -> exists r, execute p k = Ret r) ->
  execute_plan fuel registry PARALLEL timeout_ms timed_out plan
  = Some (Ret {| plan_status := COMPLETED; plan_errors := [] |})
  /\ execute_plan fuel registry REAL_TIME timeout_ms timed_out plan
     = Some (Ret {| plan_status := COMPLETED; plan_errors := [] |})
  /\ forall p, In p (primitives plan) ->
       is_Some (fst (_execute_parallel (primitives plan)) !! name p)
       /\ is_Some (fst (_execute_real_time timeout_ms timed_out
                          (primitives plan)) !! name p).
Proof.
  intros Hret. unfold execute_plan, _execute_parallel, _execute_real_time.
  set (timeout := match timeout_ms with
                  | Some t => if (t =? 0)%Z then 100%Z else t
                  | None => 100%Z
                  end).
  destruct (await_all_returns (start_all (primitives plan) 0) ∅
              (start_all_returns _ _ Hret)) as [Hp Hpdom].
  destruct (await_all_returns
              (start_all_with_timeout timeout timed_out (primitives plan) 0) ∅
              (start_all_with_timeout_returns _ _ _ _ Hret)) as [Hr Hrdom].
  rewrite Hp, Hr. split; [done|]. split; [done|].
  intros p Hin. split.
  - apply Hpdom. rewrite start_all_names. by apply List.in_map.
  - apply Hrdom.
    assert (Hnames : forall prims c,
              List.map fst (start_all_with_timeout timeout timed_out prims c)
              = List.map name prims).
    { clear. induction prims as [|q rest IH]; intros c; cbn; [done|].
      by rewrite IH. }
    rewrite Hnames. by apply List.in_map.
Qed.

Lemma parallel_modes_ignore_failed_results_example :
  execute_plan 0 ∅ PARALLEL None (fun _ _ => false) three_steps
  = Some (Ret {| plan_status := COMPLETED; plan_errors := [] |}).
Proof.
  refine (proj1 (parallel_modes_ignore_failed_results 0 ∅ None
                   (fun _ _ => false) three_steps _)).
  intros p k [<- | [<- | [<- | []]]]; by eexists.
Defined.

(** X14.  Adaptive mode completes a plan that is in dependency order:
    when the primitives have distinct names, are registered, always
    return, and each depends only on primitives before it, the adaptive
    loop ends with nothing pending, every primitive executed and holding a
    result, and [execute_plan] answers completed without errors. *)
Theorem adaptive_completes_ordered_plan (fuel : nat)
    (registry : gmap string Primitive) (timeout_ms : option Z)
    (timed_out : Primitive -> nat -> bool) (plan : OrchestrationPlan) :
  well_formed registry plan ->
  ordered plan ->
  (length (primitives plan) < fuel)%nat ->
  (exists st,
     _execute_adaptive fuel registry plan = Finished st
     /\ pending st = ∅
     /\ forall p, In p (primitives plan) ->
          name p ∈ executed st /\ is_Some (primitive_results st !! name p))
  /\ execute_plan fuel registry ADAPTIVE timeout_ms timed_out plan
     = Some (Ret {| plan_status := COMPLETED; plan_errors := [] |}).
Proof.
  intros Hwf Hord Hfuel.
  destruct (adaptive_completes registry plan Hwf Hord fuel
              {| executed := ∅;
                 pending := list_to_set (List.map name (primitives plan));
                 primitive_results := ∅; clock := 0 |})
    as (st & Hrun & Hdone).
  - split; [|split]; cbn.
    + done.
    + intros p Hp. left.
      by apply elem_of_list_to_set, list_elem_of_In, List.in_map.
    + set_solver.
  - cbn [pending].
    pose proof (ValidationOrchestrator.size_list_to_set_le (List.map name (primitives plan))) as Hle.
    rewrite List.length_map in Hle. lia.
  - split; [by exists st|].
    unfold execute_plan, _execute_adaptive. by rewrite Hrun.
Qed.

Definition chain_plan : OrchestrationPlan :=
  {| primitives := [steady "A"; steady "B"];
     dependencies := {["B" := ["A"]]};
     retry_policy := {| enabled := None; policy_max_retries := None |} |}.

Lemma chain_plan_well_formed : well_formed two_cycle_registry chain_plan.
Proof.
  split; [|split].
  - cbn. repeat constructor; cbn; intros H; [|done].
    by destruct H as [H|[]].
  - intros p k [<- | [<- | []]]; by eexists.
  - intros p [<- | [<- | []]]; cbn.
    + exists (steady "A"). split; [done|]. intros k. by eexists.
    + exists (steady "B"). split; [done|]. intros k. by eexists.
Qed.

Lemma adaptive_completes_ordered_plan_example :
  execute_plan 3 two_cycle_registry ADAPTIVE None (fun _ _ => false)
    chain_plan
  = Some (Ret {| plan_status := COMPLETED; plan_errors := [] |}).
Proof.
  refine (proj2 (adaptive_completes_ordered_plan 3 two_cycle_registry None
                   (fun _ _ => false) chain_plan chain_plan_well_formed
                   _ _)).
  - cbn. split; [by vm_compute|]. split; [|done].
    replace (deps_of chain_plan "B") with ["A"] by (by vm_compute).
    constructor; [set_solver|constructor].
  - cbn. lia.
Defined.

(** X15.  A dependency on a name that no primitive of the plan has is
    never satisfied, and adaptive mode reports it as a circular
    dependency: for a plan with distinct, registered, returning
    primitives [execute_plan] answers failed with that error. *)
Theorem missing_dependency_reported_as_cycle (fuel : nat)
    (registry : gmap string Primitive) (timeout_ms : option Z)
    (timed_out : Primitive -> nat -> bool) (plan : OrchestrationPlan)
    (p : Primitive) (d : string) :
  well_formed registry plan ->
  In p (primitives plan) ->
  In d (deps_of plan (name p)) ->
  ~ In d (List.map name (primitives plan)) ->
  (length (primitives plan) < fuel)%nat ->
  execute_plan fuel registry ADAPTIVE timeout_ms timed_out plan
  = Some (Ret {| plan_status := FAILED; plan_errors := [Other circular] |}).
Proof.
  intros Hwf Hp Hd Hmissing Hfuel.
  destruct (adaptive_raises_on_knot registry plan {[name p; d]} fuel
              {| executed := ∅;
                 pending := list_to_set (List.map name (primitives plan));
                 primitive_results := ∅; clock := 0 |})
    as (e & Hrun & He).
  - split.
    + exists p. split; [done|set_solver].
    + intros q Hq Hc. exists d. split; [|set_solver].
      apply elem_of_union in Hc as [Hc|Hc].
      * apply elem_of_singleton in Hc. by rewrite Hc.
      * apply elem_of_singleton in Hc. exfalso. apply Hmissing.
        rewrite <- Hc. by apply List.in_map.
  - cbn. set_solver.
  - intros q Hq _. cbn.
    by apply elem_of_list_to_set, list_elem_of_In, List.in_map.
  - cbn [pending].
    pose proof (ValidationOrchestrator.size_list_to_set_le (List.map name (primitives plan))) as Hle.
    rewrite List.length_map in Hle. lia.
  - unfold execute_plan, _execute_adaptive. rewrite Hrun, (He Hwf). done.
Qed.

Definition dangling_plan : OrchestrationPlan :=
  {| primitives := [steady "A"; steady "B"];
     dependencies := {["B" := ["Z"]]};
     retry_policy := {| enabled := None; policy_max_retries := None |} |}.

Lemma dangling_plan_well_formed : well_formed two_cycle_registry dangling_plan.
Proof.
  split; [|split].
  - cbn. repeat constructor; cbn; intros H; [|done].
    by destruct H as [H|[]].
  - intros p k [<- | [<- | []]]; by eexists.
  - intros p [<- | [<- | []]]; cbn.
    + exists (steady "A"). split; [done|]. intros k. by eexists.
    + exists (steady "B"). split; [done|]. intros k. by eexists.
Qed.

Lemma missing_dependency_reported_as_cycle_example :
  execute_plan 3 two_cycle_registry ADAPTIVE None (fun _ _ => false)
    dangling_plan
  = Some (Ret {| plan_status := FAILED; plan_errors := [Other circular] |}).
Proof.
  apply (missing_dependency_reported_as_cycle 3 two_cycle_registry None
           (fun _ _ => false) dangling_plan (steady "B") "Z"
           dangling_plan_well_formed).
  - cbn. tauto.
  - by vm_compute; left.
  - cbn. intros [H|[H|[]]]; discriminate.
  - cbn. lia.
Defined.

End VOSPlans.

(* ===================================================================== *)
(** ** Configuration: platform keys from the environment

    [gatf/core/config.py]: the platform part of
    [GATFConfig._load_env_vars], which [__init__] runs before
    [_validate_config].  The environment is a map from variable names to
    values; platform names are ASCII. *)
(* ===================================================================== *)

Module ConfigLoading.

Import Config.

(** [str.upper] on ASCII text. *)
Definition upper_char (c : Ascii.ascii) : Ascii.ascii :=
  let n := Ascii.nat_of_ascii c in
  if (97 <=? n)%nat && (n <=? 122)%nat then Ascii.ascii_of_nat (n - 32) else c.

Fixpoint upper (s : string) : string :=
  match s with
  | EmptyString => EmptyString
  | String c rest => String (upper_char c) (upper rest)
  end.

(** [f"GATF_{platform.upper()}_API_KEY"] *)
Definition env_key (platform : string) : string :=
  "GATF_" +:+ upper platform +:+ "_API_KEY".

(** [os.getenv(k)] where the source tests it for truth: a variable that
    is unset or empty counts as absent. *)
Definition getenv (env : gmap string string) (k : string) : option string :=
  match env !! k with
  | Some v => if bool_decide (v = "") then None else Some v
  | None => None
  end.

(** The body of the loop [for platform in self.platforms]. *)
Definition load_api_key (env : gmap string string)
    (entry : string * PlatformConfig) : string * PlatformConfig :=
  match getenv env (env_key (fst entry)) with
  | Some v =>
      (fst entry,
       {| enabled := true; base_url := base_url (snd entry);
          api_key := Some v; timeout := timeout (snd entry);
          retry_attempts := retry_attempts (snd entry);
          retry_delay := retry_delay (snd entry);
          custom_headers := custom_headers (snd entry) |})
  | None => entry
  end.

(** [GATFConfig._load_env_vars], on [self.platforms]. *)
Definition _load_env_vars (env : gmap string string)
    (platforms : list (string * PlatformConfig))
    : list (string * PlatformConfig) :=
  List.map (load_api_key env) platforms.

(** *** Properties *)





(** [_load_env_vars] only ever adds: it keeps the platforms and
    their order, never changes a base URL, never switches a platform off,
    and leaves a platform whose variable is unset or empty as it was. *)
Theorem load_env_vars_frame (env : gmap string string)
    (platforms : list (string * PlatformConfig)) :
  List.map fst (_load_env_vars env platforms) = List.map fst platforms
  /\ Forall2 (fun old new =>
                base_url (snd new) = base_url (snd old)
                /\ (enabled (snd old) = true -> enabled (snd new) = true)
                /\ (getenv env (env_key (fst old)) = None -> new = old)
                /\ (forall v, getenv env (env_key (fst old)) = Some v ->
                      enabled (snd new) = true /\ api_key (snd new) = Some v))
       platforms (_load_env_vars env platforms).
Proof.
  unfold _load_env_vars. split.
  - rewrite List.map_map. apply List.map_ext. intros [n p].
    unfold load_api_key. by destruct (getenv _ _).
  - induction platforms as [|[n p] rest IH]; cbn [List.map]; constructor;
      [|done].
    unfold load_api_key. cbn [fst snd].
    destruct (getenv env (env_key n)) as [v|]; cbn; repeat split; try done.
Qed.

End ConfigLoading.

(* ===================================================================== *)
(** ** Domain router: what [detect_domain] reports

    [gatf/core/domain_router.py], [detect_domain]: which signatures get a
    match, and what it takes for a match to be confident. *)
(* ===================================================================== *)

Module DomainDetection.

Import DomainRouter.
Local Open Scope Q_scope.

Section Reports.
Variable re_search : string -> string -> bool.

Lemma insert_desc_perm m l : Permutation (insert_desc m l) (m :: l).
Proof.
  induction l as [|x l IH]; cbn; [done|].
  destruct (Qle_bool _ _); [done|].
  rewrite IH. apply perm_swap.
Qed.

Lemma sort_desc_perm l : Permutation (sort_desc l) l.
Proof.
  induction l as [|m l IH]; cbn; [done|].
  rewrite insert_desc_perm. by constructor.
Qed.

Lemma collect_matches_length signatures agent_config sample_data :
  (length (collect_matches re_search signatures agent_config sample_data)
   <= length signatures)%nat.
Proof.
  induction signatures as [|[d sig] rest IH]; cbn [collect_matches length];
    [lia|].
  destruct (score_signature re_search sig agent_config sample_data)
    as [c features].
  destruct (Qlt_le_dec 0 c); cbn [length]; lia.
Qed.

Lemma collect_matches_complete signatures agent_config sample_data d sig :
  In (d, sig) signatures ->
  0 < fst (score_signature re_search sig agent_config sample_data) ->
  In {| domain := d;
        confidence :=
          fst (score_signature re_search sig agent_config sample_data);
        matched_features :=
          snd (score_signature re_search sig agent_config sample_data) |}
    (collect_matches re_search signatures agent_config sample_data).
Proof.
  intros Hin Hpos.
  induction signatures as [|[d' sig'] rest IH]; [done|].
  cbn [collect_matches].
  destruct Hin as [[= -> ->] | Hin].
  - destruct (score_signature re_search sig agent_config sample_data)
      as [c features].
    cbn [fst snd] in *. destruct (Qlt_le_dec 0 c); [by left|lra].
  - destruct (score_signature re_search sig' agent_config sample_data)
      as [c features].
    destruct (Qlt_le_dec 0 c); [right|]; by apply IH.
Qed.

Lemma descending_head m rest :
  Sorted descending (m :: rest) ->
  forall m', In m' rest -> confidence m' <= confidence m.
Proof.
  intros Hs. apply Sorted_StronglySorted in Hs.
  - apply StronglySorted_inv in Hs as [_ Hall].
    intros m' Hin. by apply (proj1 (List.Forall_forall _ _) Hall).
  - intros a b c Hab Hbc. unfold descending in *. lra.
Qed.

Lemma filter_all {A} (f : A -> bool) (l : list A) :
  length (List.filter f l) = length l -> forall x, In x l -> f x = true.
Proof.
  induction l as [|y l IH]; [done|]. cbn.
  pose proof (filter_length_le f l) as Hle.
  destruct (f y) eqn:Hy; cbn; [|lia].
  intros Hlen x [<- | Hin]; [done|]. apply IH; [lia|done].
Qed.

Lemma ratio_full a b : (a <= b)%nat -> 1 <= ratio a b -> a = b /\ (0 < b)%nat.
Proof.
  intros Hab Hr. destruct b as [|b].
  - assert (a = O) as -> by lia. rewrite ratio_zero in Hr. lra.
  - split; [|lia]. unfold ratio in Hr.
    assert (Hb : 0 < inject_Z (Z.of_nat (S b))).
    { replace 0 with (inject_Z 0) by reflexivity. rewrite <- Zlt_Qlt. lia. }
    assert (Hle : inject_Z (Z.of_nat (S b)) <= inject_Z (Z.of_nat a)).
    { apply Qmult_le_r with (z := / inject_Z (Z.of_nat (S b))).
      - by apply Qinv_lt_0_compat.
      - rewrite Qmult_inv_r by lra. exact Hr. }
    rewrite <- Zle_Qle in Hle. lia.
Qed.

End Reports.

(** X18.  [detect_domain] reports exactly the signatures with a positive
    score: every match has a positive confidence, every signature that
    scores above 0 has its match, with the score and the features found,
    there are at most as many matches as signatures, and no match has a
    higher confidence than the first. *)
Theorem detect_domain_reports_positive_scores
    (re_search : string -> string -> bool)
    (signatures : list (DomainKey * DomainSignature))
    (agent_config : AgentConfig) (sample_data : SampleData) :
  let result := detect_domain re_search signatures agent_config sample_data in
  (forall m, In m result -> 0 < confidence m)
  /\ (forall d sig,
        In (d, sig) signatures ->
        0 < fst (score_signature re_search sig agent_config sample_data) ->
        In {| domain := d;
              confidence :=
                fst (score_signature re_search sig agent_config sample_data);
              matched_features :=
                snd (score_signature re_search sig agent_config sample_data) |}
          result)
  /\ (length result <= length signatures)%nat
  /\ (forall m rest, result = m :: rest ->
        forall m', In m' rest -> confidence m' <= confidence m).
Proof.
  cbn zeta. unfold detect_domain. split; [|split; [|split]].
  - intros m Hin. apply (proj1 (sort_desc_In _ _)) in Hin.
    by apply collect_matches_In in Hin as (sig & _ & _ & Hpos).
  - intros d sig Hin Hpos. apply sort_desc_In.
    by apply collect_matches_complete.
  - rewrite (Permutation_length (sort_desc_perm _)).
    apply collect_matches_length.
  - intros m rest Heq. apply descending_head. rewrite <- Heq.
    apply sort_desc_sorted.
Qed.

(** X19.  Without sample data the keywords weigh 0.4 and the model type
    0.3, so a match reaches the confidence 0.7 that [is_confident] asks
    for only when the model type is one of the signature's and every
    keyword of the signature occurs in the configuration. *)
Theorem confident_without_sample_data
    (re_search : string -> string -> bool)
    (signatures : list (DomainKey * DomainSignature))
    (agent_config : AgentConfig) (sample_data : SampleData)
    (m : DomainMatch) :
  sample_truthy sample_data = false ->
  In m (detect_domain re_search signatures agent_config sample_data) ->
  is_confident m = true ->
  exists sig,
    In (domain m, sig) signatures
    /\ model_type agent_config ∈ model_types sig
    /\ keywords sig <> ∅
    /\ forall kw, kw ∈ keywords sig ->
         contains kw (config_text agent_config) = true.
Proof.
  intros Hfalsy Hin Hconf. unfold detect_domain in Hin.
  apply (proj1 (sort_desc_In _ _)) in Hin.
  apply collect_matches_In in Hin as (sig & Hsig & Hc & _).
  exists sig. split; [done|].
  unfold is_confident in Hconf. apply Qle_bool_iff in Hconf.
  pose proof (score_signature_weighted re_search sig agent_config sample_data)
    as Hw.
  rewrite <- Hc in Hw. rewrite Hw in Hconf. clear Hw Hc.
  unfold weighted_confidence in Hconf.
  assert (Hp : pattern_hits re_search sig sample_data = O)
    by (unfold pattern_hits; by rewrite Hfalsy).
  assert (Hf : field_hits sig sample_data = O).
  { unfold field_hits. destruct sample_data as [|keys text|b text]; try done.
    destruct keys; [|done]. cbn [list_to_set].
    by rewrite intersection_empty_r_L, size_empty. }
  rewrite Hp, Hf, !ratio_zero in Hconf.
  assert (Hhits : (keyword_hits sig agent_config <= size (keywords sig))%nat).
  { unfold keyword_hits. apply filter_length_le. }
  destruct (ratio_bounds _ _ Hhits) as [Hr0 Hr1].
  destruct (bool_decide (model_type agent_config ∈ model_types sig)) eqn:Hmt;
    [|lra].
  apply bool_decide_eq_true in Hmt. split; [done|].
  destruct (ratio_full _ _ Hhits) as [Hall Hpos]; [lra|].
  split.
  - intros Hempty. rewrite Hempty, size_empty in Hpos. lia.
  - intros kw Hkw. unfold keyword_hits in Hall.
    apply (filter_all _ _ Hall). by apply list_elem_of_In, elem_of_elements.
Qed.

Definition narrow_signature : DomainSignature :=
  {| keywords := {["fraud"]}; data_patterns := ["USD"];
     required_fields := {["amount"]};
     model_types := {["fraud_detection"]};
     confidence_threshold := 7 # 10 |}.

Lemma confident_without_sample_data_example :
  exists sig,
    In (EnumDomain FINANCE, sig) [(EnumDomain FINANCE, narrow_signature)]
    /\ model_type fraud_agent ∈ model_types sig
    /\ keywords sig <> ∅
    /\ forall kw, kw ∈ keywords sig ->
         contains kw (config_text fraud_agent) = true.
Proof.
  apply (confident_without_sample_data contains
           [(EnumDomain FINANCE, narrow_signature)] fraud_agent NoSample
           {| domain := EnumDomain FINANCE;
              confidence :=
                fst (score_signature contains narrow_signature fraud_agent
                       NoSample);
              matched_features :=
                snd (score_signature contains narrow_signature fraud_agent
                       NoSample) |}).
  - done.
  - vm_compute. by left.
  - by vm_compute.
Defined.

End DomainDetection.

(* ===================================================================== *)
(** ** VOS primitives: composition, callbacks and what is not caught

    [gatf_vos/vos_primitives.py]: [VOSPrimitive.compose], and the
    behaviour of [execute] around callbacks and exceptions. *)
(* ===================================================================== *)

Module PrimitiveComposition.

Import VOSPrimitives.

(** [VOSPrimitive.compose] *)
Definition compose (self other : VOSPrimitive) : VOSPrimitive :=
  ComposedPrimitive [self; other].

(** The event a specialization triggers after its operation, and the
    data it hands to the callbacks. *)
Definition event_of (t : PrimitiveType) : string :=
  match t with
  | DETECTION => "detection_complete"
  | CORRECTION => "correction_complete"
  | UNCERTAINTY => "uncertainty_quantified"
  | COORDINATION => "coordination_complete"
  | TRUST => "trust_calculated"
  | MEMORY => "memory_operation_complete"
  | HANDOFF => "handoff_validated"
  | WORKFLOW => "workflow_validated"
  | COMPLIANCE => "compliance_validated"
  | BENCHMARK => "benchmark_complete"
  end.

Definition event_data (t : PrimitiveType) (kwargs : gmap string Value)
    (returned : Value) : Value :=
  match t with
  | TRUST =>
      VDict [("agent_id", kwargs_get kwargs "agent_id" VNone);
             ("trust_score", returned)]
  | _ => returned
  end.

(** What two results have in common when they differ in [data] only. *)
Definition same_report (x y : PrimitiveResult) : Prop :=
  status x = status y /\ errors x = errors y /\ warnings x = warnings y
  /\ metrics x = metrics y.

(** *** Properties *)

Section Composition.
Variables (context : PrimitiveContext) (kwargs : gmap string Value).

Lemma composed_loop_raises pre m post rs e acc :
  Forall2 (passes context kwargs) pre rs ->
  fst (execute m context kwargs) = Raise e ->
  composed_loop context kwargs (pre ++ m :: post) acc
  = (Raise e, concat (List.map (log_of context kwargs) (pre ++ [m]))).
Proof.
  intros H Hm. revert acc.
  induction H as [|p r' ps rs' [Hret Hst] _ IH]; intros acc.
  - cbn [app composed_loop List.map concat].
    unfold mbind, M_bind, bind, log_of.
    destruct (execute m context kwargs) as [res log]. cbn in Hm. subst res.
    cbn. by rewrite app_nil_r.
  - cbn [app composed_loop List.map concat].
    unfold mbind, M_bind, bind, log_of in *.
    destruct (execute p context kwargs) as [res log]. cbn in Hret. subst res.
    rewrite bool_decide_eq_false_2 by done.
    by rewrite IH.
Qed.

End Composition.

Local Ltac known_status :=
  rewrite ?(bool_decide_eq_true_2 (FAILED = FAILED)) by done;
  rewrite ?(bool_decide_eq_false_2 (COMPLETED = FAILED)) by done.

Local Ltac report_equal :=
  cbn [status composed_result]; known_status; cbn;
  unfold dict_update; cbn;
  rewrite ?app_nil_r, ?(right_id_L ∅ (∪)), <- ?(assoc_L (++)),
    ?(assoc_L (∪)).

(** X20.  Composition is associative in what it reports: [(a.compose(b))
    .compose(c)] and [a.compose(b.compose(c))] return results with the
    same status, errors, warnings and metrics (the [data] differ in their
    nesting), or raise the same exception. *)
Theorem compose_associative (a b c : VOSPrimitive)
    (context : PrimitiveContext) (kwargs : gmap string Value) :
  match fst (execute (compose (compose a b) c) context kwargs),
        fst (execute (compose a (compose b c)) context kwargs) with
  | Ret x, Ret y => same_report x y
  | Raise e, Raise e' => e = e'
  | _, _ => False
  end.
Proof.
  unfold compose. rewrite !execute_composed_unfold.
  cbn [composed_loop]. rewrite !execute_composed_unfold.
  cbn [composed_loop].
  unfold mbind, M_bind, bind, enter, ret, same_report.
  destruct (execute a context kwargs) as [[ra|ea] la]; [|done].
  destruct (bool_decide (status ra = FAILED)) eqn:Ha; [by report_equal|].
  destruct (execute b context kwargs) as [[rb|eb] lb]; [|done].
  destruct (bool_decide (status rb = FAILED)) eqn:Hb; [by report_equal|].
  cbn [status composed_result]. known_status.
  destruct (execute c context kwargs) as [[rc|ec] lc]; [|done].
  destruct (bool_decide (status rc = FAILED)) eqn:Hc; by report_equal.
Qed.

(** X21.  A member of a composition that raises makes the composition
    raise the same exception: the results of the members before it are
    not returned, and no member after it is entered. *)
Theorem composed_member_exception_propagates (pre post : list VOSPrimitive)
    (m : VOSPrimitive) (rs : list PrimitiveResult) (e : Exn)
    (context : PrimitiveContext) (kwargs : gmap string Value) :
  Forall2 (passes context kwargs) pre rs ->
  fst (execute m context kwargs) = Raise e ->
  execute (ComposedPrimitive (pre ++ m :: post)) context kwargs
  = (Raise e,
     prim_name (ComposedPrimitive (pre ++ m :: post))
     :: concat (List.map (log_of context kwargs) (pre ++ [m]))).
Proof.
  intros Hpre Hm. rewrite execute_composed_unfold.
  by rewrite (composed_loop_raises context kwargs pre m post rs e
                empty_accumulated Hpre Hm).
Qed.

Definition crashing (name : string) : VOSPrimitive :=
  Custom name WORKFLOW (fun _ _ => Raise (Exception "crashed")).

Lemma composed_member_exception_propagates_example :
  execute (ComposedPrimitive
             [steady "a" COMPLETED []; crashing "b"; steady "c" COMPLETED []])
    empty_context ∅
  = (Raise (Exception "crashed"), ["Composed(a, b, c)"; "a"; "b"]).
Proof.
  apply (composed_member_exception_propagates [steady "a" COMPLETED []]
           [steady "c" COMPLETED []] (crashing "b")
           [steady_result "a" COMPLETED []] (Exception "crashed")
           empty_context ∅).
  - constructor; [|constructor]. split; [reflexivity | discriminate].
  - reflexivity.
Defined.

(** X22.  The callbacks of a specialization run inside its [try]: when
    the operation returns but a callback registered for the event raises
    an [Exception], [execute] returns the failed result with the text of
    that exception, and the value the operation returned is dropped. *)
Theorem callback_exception_fails_result (name : string) (t : PrimitiveType)
    (operation : Operation) (callbacks : gmap string (list Callback))
    (cbs : list Callback) (context : PrimitiveContext)
    (kwargs : gmap string Value) (returned : Value) (elapsed : Q)
    (text : string) :
  operation (operation_args t kwargs) context = Ret (returned, elapsed) ->
  callbacks !! event_of t = Some cbs ->
  run_callbacks cbs (event_data t kwargs returned) = Raise (Exception text) ->
  execute (Specialized name t operation callbacks) context kwargs
  = (Ret (failed_result text), [name]).
Proof.
  intros Hop Hcbs Hrun.
  cbn [execute]. unfold execute_specialized, execute_body.
  destruct t; cbn [operation_args event_of event_data] in *;
    unfold mbind, M_bind, bind, lift, enter, try_except_Exception, ret,
      _trigger_callbacks;
    rewrite Hop; cbn [fst snd]; rewrite Hcbs; unfold lift; rewrite Hrun;
    reflexivity.
Qed.

Definition rejecting : Callback := fun _ => Raise (Exception "listener failed").

Lemma callback_exception_fails_result_example :
  execute (Specialized "drift_detection" DETECTION
             (fun _ _ => Ret (VStr "no drift", 1%Q))
             {["detection_complete" := [rejecting]]}) empty_context ∅
  = (Ret (failed_result "listener failed"), ["drift_detection"]).
Proof.
  apply (callback_exception_fails_result "drift_detection" DETECTION
           (fun _ _ => Ret (VStr "no drift", 1%Q))
           {["detection_complete" := [rejecting]]} [rejecting] empty_context ∅
           (VStr "no drift") 1%Q "listener failed").
  - reflexivity.
  - by vm_compute.
  - reflexivity.
Defined.

(** [except Exception] does not catch everything: when the
    operation of a specialization raises an exception outside the class
    [Exception] (a cancellation, a keyboard interrupt), [execute] raises
    it; no failed result is returned. *)
Theorem specialized_execute_lets_base_exceptions_through (name : string)
    (t : PrimitiveType) (operation : Operation)
    (callbacks : gmap string (list Callback)) (context : PrimitiveContext)
    (kwargs : gmap string Value) (text : string) :
  operation (operation_args t kwargs) context
  = Raise (BaseExceptionOnly text) ->
  execute (Specialized name t operation callbacks) context kwargs
  = (Raise (BaseExceptionOnly text), [name]).
Proof.
  intros Hop.
  cbn [execute]. unfold execute_specialized, execute_body.
  destruct t; cbn [operation_args] in Hop;
    unfold mbind, M_bind, bind, lift, enter, try_except_Exception, ret;
    rewrite Hop; reflexivity.
Qed.

Lemma specialized_execute_lets_base_exceptions_through_example :
  execute (Specialized "drift_detection" DETECTION
             (fun _ _ => Raise (BaseExceptionOnly "cancelled")) ∅)
    empty_context ∅
  = (Raise (BaseExceptionOnly "cancelled"), ["drift_detection"]).
Proof.
  apply (specialized_execute_lets_base_exceptions_through "drift_detection"
           DETECTION (fun _ _ => Raise (BaseExceptionOnly "cancelled")) ∅
           empty_context ∅ "cancelled").
  reflexivity.
Defined.

End PrimitiveComposition.

(* ===================================================================== *)
(** ** Rate limiting: the other limiters and the helpers

    [gatf/utils/rate_limiting.py]: invariants of [TokenBucket],
    [SlidingWindow.consume], [FixedWindow.consume], and the in-memory
    branch of [check_rate_limit].  Readings of [time.time()] are explicit
    arguments. *)
(* ===================================================================== *)

Module RateLimiters.

Import RateLimiting.
Local Open Scope Q_scope.

(** [class SlidingWindow]; [requests] is the deque, oldest first. *)
Record SlidingWindow := {
  sw_max_requests : Z;
  sw_time_window : Z;
  requests : list Q
}.

(** What a [consume] gives: the pair [(success, retry_after)], or the
    [IndexError] of [self.requests[0]] on an empty deque. *)
Inductive Consumed :=
| Answer (success : bool) (retry_after : option Q)
| IndexError.

(** [while self.requests and self.requests[0] < cutoff:
       self.requests.popleft()] *)
Fixpoint drop_old (cutoff : Q) (requests : list Q) : list Q :=
  match requests with
  | [] => []
  | t :: rest =>
      if Qlt_le_dec t cutoff then drop_old cutoff rest else requests
  end.

(** [SlidingWindow.consume], at the time [now]. *)
Definition sw_consume (now : Q) (w : SlidingWindow)
    : Consumed * SlidingWindow :=
  let cutoff := now - inject_Z (sw_time_window w) in
  let kept := drop_old cutoff (requests w) in
  if (Z.of_nat (length kept) <? sw_max_requests w)%Z
  then (Answer true None,
        {| sw_max_requests := sw_max_requests w;
           sw_time_window := sw_time_window w;
           requests := kept ++ [now] |})
  else
    (match kept with
     | [] => IndexError
     | oldest_request :: _ =>
         Answer false
           (Some (oldest_request + inject_Z (sw_time_window w) - now))
     end,
     {| sw_max_requests := sw_max_requests w;
        sw_time_window := sw_time_window w;
        requests := kept |}).



(** [check_rate_limit] without a Redis client: a limiter is created, at
    the time [created], and asked once, at the time [now].  [None] stands
    for the [ZeroDivisionError] of a zero time window. *)
Definition check_rate_limit (max_requests time_window : Z) (created now : Q)
    : option CheckResult :=
  let config :=
    {| max_requests := max_requests; time_window := time_window;
       algorithm := TOKEN_BUCKET; config_burst_size := None;
       strict := false |} in
  match _create_limiter config created with
  | Some (OfTokenBucket b) => Some (fst (check_and_consume config 1 now b))
  | Some (OfOther _) => None
  | None => None
  end.



(** A sliding window between two calls, the last of which was at
    [last]. *)
Definition window_ok (last : Q) (w : SlidingWindow) : Prop :=
  Sorted Qle (requests w)
  /\ Forall (fun t => t <= last) (requests w)
  /\ (Z.of_nat (length (requests w)) <= sw_max_requests w)%Z.

(** *** Properties *)




(** X24.  The in-memory branch of [check_rate_limit] builds a new, full
    token bucket on every call, so it allows every request: for a limit
    of at least one request and a positive time window the answer is
    [True], whatever was asked before. *)
Theorem check_rate_limit_always_allows (limit window : Z)
    (created now : Q) :
  (1 <= limit)%Z ->
  (0 < window)%Z ->
  created <= now ->
  check_rate_limit limit window created now
  = Some (Allowed true).
Proof.
  intros Hmax Hwin Hclock. unfold check_rate_limit, _create_limiter.
  cbn [algorithm time_window max_requests config_burst_size].
  rewrite (proj2 (Z.eqb_neq window 0)) by lia.
  unfold check_and_consume.
  destruct (consume_spec 1 now
              (TokenBucket_init limit
                 (inject_Z limit / inject_Z window) None created))
    as [Hok _].
  rewrite Hok; [done|].
  unfold available, TokenBucket_init. cbn.
  assert (Hm : 1 <= inject_Z limit).
  { change 1 with (inject_Z 1). by rewrite <- Zle_Qle. }
  assert (Hw : 0 < inject_Z window).
  { change 0 with (inject_Z 0). by rewrite <- Zlt_Qlt. }
  assert (Hr : 0 <= inject_Z limit / inject_Z window).
  { apply Qle_shift_div_l; lra. }
  assert (0 <= (now - created)
               * (inject_Z limit / inject_Z window))
    by (apply Qmult_le_0_compat; lra).
  change (inject_Z 1) with 1. apply Q.min_glb; lra.
Qed.

Lemma check_rate_limit_always_allows_example :
  check_rate_limit 1 60 100 100 = Some (Allowed true).
Proof.
  apply (check_rate_limit_always_allows 1 60 100 100);
    [lia | lia | by vm_compute].
Defined.

Lemma drop_old_spec cutoff l :
  Sorted Qle l ->
  Sorted Qle (drop_old cutoff l)
  /\ Forall (fun t => cutoff <= t) (drop_old cutoff l)
  /\ (length (drop_old cutoff l) <= length l)%nat
  /\ (forall t, In t (drop_old cutoff l) -> In t l).
Proof.
  induction l as [|t rest IH]; intros Hs; cbn [drop_old].
  - repeat split; try constructor. done.
  - destruct (Qlt_le_dec t cutoff) as [Hold|Hkeep].
    + apply Sorted_inv in Hs as [Hrest _].
      destruct (IH Hrest) as (H1 & H2 & H3 & H4).
      repeat split; [done | done | cbn; lia |]. intros x Hx. right. by apply H4.
    + split; [done|]. split; [|split; [lia|done]].
      apply Sorted_StronglySorted in Hs;
        [|intros a b c; apply Qle_trans].
      apply StronglySorted_inv in Hs as [_ Hall].
      constructor; [done|].
      eapply Forall_impl; [exact Hall|]. cbn. intros x Hx. lra.
Qed.

Lemma sorted_snoc l x :
  Sorted Qle l -> Forall (fun t => t <= x) l -> Sorted Qle (l ++ [x]).
Proof.
  induction l as [|t rest IH]; intros Hs Hall; cbn.
  - by repeat constructor.
  - apply Sorted_inv in Hs as [Hrest Hhd].
    apply List.Forall_cons_iff in Hall as [Ht Hall].
    constructor; [by apply IH|].
    destruct rest as [|u rest']; cbn; constructor; [done|].
    by inversion Hhd.
Qed.

(** X25.  The sliding window never holds more than [max_requests]
    requests: with a clock that does not run backwards, after a [consume]
    at [now] the deque is sorted, holds at most [max_requests] times, all
    of them within the window that ends at [now]; a rejection comes with a
    waiting time between 0 and the window.  With [max_requests] equal to 0
    (the invariant leaves no room below) [consume] raises [IndexError]
    instead of rejecting, and it raises in no other case. *)
Theorem sliding_window_stays_within_limit (last now : Q)
    (w : SlidingWindow) :
  window_ok last w ->
  last <= now ->
  (0 <= sw_time_window w)%Z ->
  let '(answer, w') := sw_consume now w in
  window_ok now w'
  /\ Forall (fun t => now - inject_Z (sw_time_window w) <= t) (requests w')
  /\ (forall retry_after,
        answer = Answer false (Some retry_after) ->
        0 <= retry_after <= inject_Z (sw_time_window w))
  /\ (answer = IndexError <-> (sw_max_requests w <= 0)%Z).
Proof.
  intros (Hsorted & Hlast & Hlen) Hclock Hwin.
  assert (Hw : 0 <= inject_Z (sw_time_window w)).
  { change 0 with (inject_Z 0). by rewrite <- Zle_Qle. }
  unfold sw_consume.
  set (cutoff := now - inject_Z (sw_time_window w)).
  destruct (drop_old_spec cutoff (requests w) Hsorted)
    as (Hks & Hkc & Hkl & Hkin).
  assert (Hknow : Forall (fun t => t <= now) (drop_old cutoff (requests w))).
  { apply List.Forall_forall. intros t Ht. apply Hkin in Ht.
    pose proof (proj1 (List.Forall_forall _ _) Hlast t Ht). cbn in *. lra. }
  destruct (Z.ltb_spec (Z.of_nat (length (drop_old cutoff (requests w))))
              (sw_max_requests w)) as [Hroom|Hfull].
  - split; [|split; [|split]]; [| |done|split; [done|lia]].
    + unfold window_ok. cbn [requests sw_max_requests]. split; [|split].
      * by apply sorted_snoc.
      * apply List.Forall_app. split; [done|].
        constructor; [apply Qle_refl|constructor].
      * rewrite List.length_app. cbn [length]. lia.
    + cbn [requests]. apply List.Forall_app. split; [done|].
      constructor; [unfold cutoff; lra|constructor].
  - split; [|split; [|split]].
    + unfold window_ok. cbn [requests sw_max_requests].
      split; [done|]. split; [done|]. lia.
    + done.
    + intros retry_after Hanswer.
      destruct (drop_old cutoff (requests w)) as [|oldest rest]; [done|].
      inversion Hanswer; subst retry_after.
      apply List.Forall_cons_iff in Hkc as [Hc _].
      apply List.Forall_cons_iff in Hknow as [Hn _].
      unfold cutoff in Hc. lra.
    + destruct (drop_old cutoff (requests w)) as [|oldest rest].
      * cbn [length] in Hfull. split; [lia|done].
      * split; [done|]. intros Hmax. exfalso.
        assert (length (requests w) = O) by lia.
        destruct (requests w); [|done]. cbn in Hkl. lia.
Qed.

Lemma sliding_window_stays_within_limit_example :
  window_ok 3 (snd (sw_consume 3 {| sw_max_requests := 2; sw_time_window := 2;
                                    requests := [0; 2] |})).
Proof.
  pose proof (sliding_window_stays_within_limit 2 3
                {| sw_max_requests := 2; sw_time_window := 2;
                   requests := [0; 2] |}) as H.
  destruct (sw_consume 3 {| sw_max_requests := 2; sw_time_window := 2;
                            requests := [0; 2] |}) as [answer w'].
  apply H.
  - unfold window_ok. cbn. repeat split.
    + repeat constructor. by vm_compute.
    + repeat constructor; by vm_compute.
    + lia.
  - by vm_compute.
  - cbn. lia.
Defined.



End RateLimiters.

(* ===================================================================== *)
(** ** Quality validator: accuracy of strings

    [gatf/validation/engines/quality_validator.py]:
    [_levenshtein_distance] and the string branch of
    [_calculate_accuracy].  A string is the list of its characters, of a
    type with decidable equality; [normalize] stands for
    [s.lower().strip()]. *)
(* ===================================================================== *)

Module StringAccuracy.

Section Strings.
Context {A : Type} `{EqDecision A}.

(** The inner loop [for j, c2 in enumerate(s2)] from index [j] on:
    [previous_row] is given from its [j]-th element, [left] is
    [current_row[j]]; the values appended to [current_row]. *)
Fixpoint row_tail (c1 : A) (s2 : list A) (previous_row : list nat)
    (left : nat) : list nat :=
  match s2, previous_row with
  | c2 :: s2', p_j :: ((p_j1 :: _) as previous_row') =>
      let insertions := (p_j1 + 1)%nat in
      let deletions := (left + 1)%nat in
      let substitutions := (p_j + if decide (c1 = c2) then 0 else 1)%nat in
      let v := Nat.min (Nat.min insertions deletions) substitutions in
      v :: row_tail c1 s2' previous_row' v
  | _, _ => []
  end.

(** One iteration of the outer loop: [current_row] for the [i]-th
    character [c1]. *)
Definition next_row (i : nat) (c1 : A) (s2 : list A)
    (previous_row : list nat) : list nat :=
  (i + 1)%nat :: row_tail c1 s2 previous_row (i + 1).

(** The outer loop [for i, c1 in enumerate(s1)]. *)
Fixpoint rows (s1 s2 : list A) (i : nat) (previous_row : list nat)
    : list nat :=
  match s1 with
  | [] => previous_row
  | c1 :: s1' => rows s1' s2 (S i) (next_row i c1 s2 previous_row)
  end.

(** The body of [_levenshtein_distance] once [len(s1) >= len(s2)]. *)
Definition distance_longer_first (s1 s2 : list A) : nat :=
  if (length s2 =? 0)%nat then length s1
  else default 0%nat (last (rows s1 s2 0 (seq 0 (length s2 + 1)))).

(** [QualityValidator._levenshtein_distance] *)
Definition _levenshtein_distance (s1 s2 : list A) : nat :=
  if (length s1 <? length s2)%nat then distance_longer_first s2 s1
  else distance_longer_first s1 s2.


(** *** Properties *)

(** The entries of row [i], from index [j] on, lie between the
    difference and the maximum of the two prefix lengths. *)
Definition row_within (i j : nat) (row : list nat) : Prop :=
  forall k v, row !! k = Some v ->
    (i - (j + k) + (j + k - i) <= v <= Nat.max i (j + k))%nat.

Lemma row_tail_within c1 s2 :
  forall previous_row left i j,
    length previous_row = S (length s2) ->
    row_within i j previous_row ->
    (S i - j + (j - S i) <= left <= Nat.max (S i) j)%nat ->
    length (row_tail c1 s2 previous_row left) = length s2
    /\ row_within (S i) (S j) (row_tail c1 s2 previous_row left).
Proof.
  induction s2 as [|c2 s2 IH]; intros previous_row left i j Hlen Hprev Hleft.
  - split; [done|]. intros k v Hk. by destruct previous_row.
  - destruct previous_row as [|p0 [|p1 rest]]; try done.
    cbn [row_tail].
    set (v := Nat.min (Nat.min (p1 + 1) (left + 1))
                (p0 + if decide (c1 = c2) then 0 else 1)).
    pose proof (Hprev 0%nat p0 eq_refl) as H0.
    pose proof (Hprev 1%nat p1 eq_refl) as H1.
    assert (Hv : (S i - S j + (S j - S i) <= v <= Nat.max (S i) (S j))%nat).
    { unfold v. destruct (decide (c1 = c2)); lia. }
    destruct (IH (p1 :: rest) v i (S j)) as [Hl Hw].
    + cbn [length] in *. lia.
    + intros k x Hk. specialize (Hprev (S k) x Hk).
      replace (S j + k)%nat with (j + S k)%nat by lia. done.
    + done.
    + split; [cbn [length]; by rewrite Hl|].
      intros [|k] x Hk.
      * inversion Hk; subst x. rewrite Nat.add_0_r. done.
      * cbn in Hk. specialize (Hw k x Hk).
        replace (S j + S k)%nat with (S (S j) + k)%nat by lia. done.
Qed.

Lemma rows_within s1 s2 :
  forall i previous_row,
    length previous_row = S (length s2) ->
    row_within i 0 previous_row ->
    length (rows s1 s2 i previous_row) = S (length s2)
    /\ row_within (i + length s1) 0 (rows s1 s2 i previous_row).
Proof.
  induction s1 as [|c1 s1 IH]; intros i previous_row Hlen Hprev.
  - cbn [rows length]. by rewrite Nat.add_0_r.
  - cbn [rows length].
    destruct (row_tail_within c1 s2 previous_row (i + 1) i 0 Hlen Hprev)
      as [Hl Hw]; [lia|].
    destruct (IH (S i) (next_row i c1 s2 previous_row)) as [Hl' Hw'].
    + unfold next_row. cbn [length]. by rewrite Hl.
    + unfold next_row. intros [|k] x Hk.
      * inversion Hk; subst x. lia.
      * cbn in Hk. specialize (Hw k x Hk). cbn [Nat.add] in *. done.
    + split; [done|].
      by replace (i + S (length s1))%nat with (S i + length s1)%nat by lia.
Qed.

Lemma distance_longer_first_bounds s1 s2 :
  (length s1 - length s2 + (length s2 - length s1)
   <= distance_longer_first s1 s2
   <= Nat.max (length s1) (length s2))%nat.
Proof.
  unfold distance_longer_first.
  destruct (Nat.eqb_spec (length s2) 0) as [Hz|Hnz]; [lia|].
  destruct (rows_within s1 s2 0 (seq 0 (length s2 + 1))) as [Hl Hw].
  - rewrite length_seq. lia.
  - intros k v Hk. apply lookup_seq in Hk as [-> _]. lia.
  - rewrite last_lookup, Hl. cbn [Nat.pred].
    destruct (rows s1 s2 0 (seq 0 (length s2 + 1)) !! length s2)
      as [v|] eqn:Hv.
    + specialize (Hw (length s2) v Hv). cbn in *. lia.
    + apply lookup_ge_None in Hv. lia.
Qed.

End Strings.

(** X27.  The edit distance that [_levenshtein_distance] returns lies
    between the difference of the two lengths and the longer length. *)
Theorem levenshtein_distance_bounds {A : Type} `{EqDecision A}
    (s1 s2 : list A) :
  (length s1 - length s2 + (length s2 - length s1)
   <= _levenshtein_distance s1 s2
   <= Nat.max (length s1) (length s2))%nat.
Proof.
  unfold _levenshtein_distance.
  destruct (length s1 <? length s2)%nat.
  - pose proof (distance_longer_first_bounds s2 s1). lia.
  - apply distance_longer_first_bounds.
Qed.



End StringAccuracy.

(* ===================================================================== *)
(** ** Memory cache: round trips and the order of eviction

    [gatf/utils/caching.py], [MemoryCache.get], [set], [delete] and
    [_evict]: what a caller reads back, and which entry a read
    protects. *)
(* ===================================================================== *)

Module CacheRoundTrips.

Import Caching.

Section RoundTrips.
Context {V : Type}.
Implicit Types (c : MemoryCache V) (d : list (string * CacheEntry V)).

Lemma od_get_set k (e : CacheEntry V) d : od_get k (od_set k e d) = Some e.
Proof.
  induction d as [|[k' e'] d IH]; cbn.
  - by rewrite String.eqb_refl.
  - destruct (String.eqb_spec k' k) as [->|Hne]; cbn.
    + by rewrite String.eqb_refl.
    + by rewrite (proj2 (String.eqb_neq k' k) Hne).
Qed.





Lemma od_set_keeps_keys k (e : CacheEntry V) d x :
  In x (keys d) -> In x (keys (od_set k e d)).
Proof.
  intros Hx. destruct (in_dec String.string_dec k (keys d)) as [Hin|Hout].
  - by rewrite od_set_keys_present.
  - rewrite od_set_keys_fresh by done. apply List.in_or_app. by left.
Qed.

End RoundTrips.



(** X30.  Under the LRU policy a read protects its key: after a [get]
    that hits the key [k], in a cache for two entries or more, the next
    [set], of whatever key, leaves [k] in the cache.  Under the other
    policies a [get] that hits leaves the order of the keys, and with it
    the next victim of FIFO, as it was. *)
Theorem lru_read_protects_key {V : Type} (k : string) (v : V) (now : Q)
    (c : MemoryCache V) :
  fst (get k now c) = Some v ->
  (eviction_policy c = "lru" -> (2 <= max_size c)%Z ->
   forall k' (v' : V) t' now',
     In k (keys (_cache (set k' v' t' now' (snd (get k now c))))))
  /\ (eviction_policy c <> "lru" ->
      keys (_cache (snd (get k now c))) = keys (_cache c)).
Proof.
  unfold get.
  destruct (od_get k (_cache c)) as [entry|] eqn:Hg; [|done].
  destruct (is_expired now entry); [done|]. intros _.
  apply od_get_Some in Hg as Hin.
  assert (Hk : In k (keys (_cache c)))
    by (apply List.in_map_iff; by exists (k, entry)).
  split.
  - intros Hlru Hmax k' v' t' now'. rewrite Hlru. cbn [String.eqb Ascii.eqb
      Bool.eqb snd].
    set (d' := od_set k (touch now entry) (_cache c)).
    assert (Hk' : In k (keys d')) by (by apply od_set_keeps_keys).
    assert (Hmove : od_move_to_end k d' = od_pop k d' ++ [(k, touch now entry)]).
    { unfold od_move_to_end, d'. by rewrite od_get_set. }
    rewrite Hmove.
    remember (with_cache (od_pop k d' ++ [(k, touch now entry)])
                {| hits := hits (_stats c) + 1; misses := misses (_stats c);
                   evictions := evictions (_stats c);
                   sets := sets (_stats c) |} c) as c1 eqn:Hc1.
    assert (Hcache : _cache c1 = od_pop k d' ++ [(k, touch now entry)])
      by (by rewrite Hc1).
    assert (Hsize : max_size c1 = max_size c) by (by rewrite Hc1).
    assert (Hpol : eviction_policy c1 = "lru") by (by rewrite Hc1).
    assert (Hlast : In k (keys (_cache c1))).
    { rewrite Hcache. unfold keys. rewrite List.map_app.
      apply List.in_or_app. right. by left. }
    unfold set. cbn [_cache with_cache]. apply od_set_keeps_keys.
    destruct ((max_size c1 <=? Z.of_nat (length (_cache c1)))%Z
              && negb (mem k' c1)) eqn:Hevict; [|done].
    apply andb_true_iff in Hevict as [Hfull _]. apply Z.leb_le in Hfull.
    rewrite Hsize, Hcache, List.length_app in Hfull. cbn [length] in Hfull.
    unfold _evict. rewrite Hcache, Hpol.
    destruct (od_pop k d') as [|[k0 e0] rest]; [cbn in Hfull; lia|].
    cbn [app String.eqb Ascii.eqb Bool.eqb _cache with_cache].
    unfold keys. rewrite List.map_app. apply List.in_or_app. right. by left.
  - intros Hother. cbn [snd].
    rewrite (proj2 (String.eqb_neq _ _) Hother). cbn [_cache with_cache].
    by apply od_set_keys_present.
Qed.

Lemma lru_read_protects_key_example :
  In "a" (keys (_cache
                  (set "c" 3%Z None 3
                     (snd (get "a" 2
                             (set "b" 2%Z None 1
                                (set "a" 1%Z None 0
                                   (MemoryCache_init 2 "lru")))))))).
Proof.
  refine (proj1 (lru_read_protects_key "a" 1%Z 2
                   (set "b" 2%Z None 1
                      (set "a" 1%Z None 0 (MemoryCache_init 2 "lru")))
                   _) _ _ "c" 3%Z None 3%Q).
  - by vm_compute.
  - done.
  - by vm_compute.
Defined.

End CacheRoundTrips.
